(** * cmap: a sharded hash map -- shallow embedding and verification

    The development follows the Go package [cmap] file by file:
    machine arithmetic, [errors.go], [utils.go], [pair.go], the bucket
    interface, the redistribution policy, [segment] and the map facade.
    Execution is sequential: a mutex acquisition and an atomic load or
    store are the plain read or write they protect. *)

From Stdlib Require Import ZArith Lia Bool List.
From Stdlib Require Import Floats.SpecFloat.
From stdpp Require Import base list strings gmap.

Open Scope Z_scope.

(** ** Go machine arithmetic *)

(** [uint64] and [uint32] values are integers in range; every arithmetic
    result is reduced modulo the word size, as the Go operators do. *)
Definition wrap64 (z : Z) : Z := z mod 2 ^ 64.
Definition wrap32 (z : Z) : Z := z mod 2 ^ 32.
Definition MaxUint32 : Z := 2 ^ 32 - 1.
Definition MaxInt : Z := 2 ^ 63 - 1.

(** The value carried by a Go panic: either a value that implements
    [error] (with its [Error()] text) or anything else (with its [%s]
    rendering). *)
Inductive panic_value : Type :=
| PanicError (msg : string)
| PanicOther (msg : string).

(** A call either returns or panics. *)
Inductive panicking (A : Type) : Type :=
| Done (a : A)
| Panic (v : panic_value).
Arguments Done {A} a.
Arguments Panic {A} v.

#[export] Instance panicking_ret : MRet panicking := fun A a => Done a.
#[export] Instance panicking_bind : MBind panicking := fun A B f m =>
  match m with
  | Done a => f a
  | Panic v => Panic v
  end.

Definition divide_by_zero : panic_value :=
  PanicError "runtime error: integer divide by zero".
Definition index_out_of_range : panic_value :=
  PanicError "runtime error: index out of range".
Definition makeslice_out_of_range : panic_value :=
  PanicError "runtime error: makeslice: len out of range".

(** ** float64 *)

(** IEEE 754 binary64 through the specification floats of the standard
    library ([prec = 53], [emax = 1024]). *)
Definition float64 : Type := spec_float.
Definition f64_prec : Z := 53.
Definition f64_emax : Z := 1024.

(** [float64(n)] for an unsigned integer [n]: round to nearest, ties to
    even. *)
Definition float64_of_uint64 (n : Z) : float64 :=
  binary_normalize f64_prec f64_emax n 0 false.

Definition f64_mul (x y : float64) : float64 := SFmul f64_prec f64_emax x y.
Definition f64_lt (x y : float64) : bool := SFltb x y.
Definition f64_le (x y : float64) : bool := SFleb x y.

(** The integer part of a finite float, truncated toward zero. *)
Definition f64_trunc (x : float64) : option Z :=
  match x with
  | S754_zero _ => Some 0
  | S754_finite s m e =>
      let a := if 0 <=? e then Z.pos m * 2 ^ e else Z.pos m / 2 ^ (- e) in
      Some (if s then - a else a)
  | _ => None
  end.

(** [uint64(x)]: the truncated value when [uint64] can hold it.  For
    any other [x] the Go specification leaves the result to the
    implementation; it is the parameter [unspecified]. *)
Definition uint64_of_float64 (unspecified : float64 -> Z) (x : float64) : Z :=
  match f64_trunc x with
  | Some a => if (0 <=? a) && (a <? 2 ^ 64) then a else wrap64 (unspecified x)
  | None => wrap64 (unspecified x)
  end.

(** ** Package constants *)

(** The constants of the package are declared in a file that is not
    part of the sources at hand; they are parameters of the
    development, together with the platform's out-of-range float
    conversion. *)
Class Constants : Type := {
  MAX_CONCURRENCY : Z;
  DEFAULT_BUCKET_NUMBER : Z;
  DEFAULT_BUCKET_LOAD_FACTOR : float64;
  DEFAULT_BUCKET_MAX_SIZE : Z;
  uint64_unspecified : float64 -> Z
}.

(** ** errors.go *)

Inductive error : Type :=
| IllegalParameterError (msg : string)
| IllegalPairTypeError (msg : string)
| PairRedistributorError (msg : string).

Definition newIllegalParameterError (errMsg : string) : error :=
  IllegalParameterError ("concurrency map: illegal parameter: " +:+ errMsg).

Definition newPairRedistributorError (errMsg : string) : error :=
  PairRedistributorError
    ("concurrency map: failing pair redistribution: " +:+ errMsg).

Definition Error (e : error) : string :=
  match e with
  | IllegalParameterError msg => msg
  | IllegalPairTypeError msg => msg
  | PairRedistributorError msg => msg
  end.

(** ** utils.go *)

(** A Go string is a sequence of bytes; [str[i]] is the byte at [i]. *)
Definition byte_value (c : Ascii.ascii) : Z := Z.of_N (Ascii.N_of_ascii c).

Fixpoint hash_from (h : Z) (str : string) : Z :=
  match str with
  | EmptyString => h
  | String c rest => hash_from (wrap64 (h * 13131 + byte_value c)) rest
  end.

(** [hash]: the BKDR hash of the key with the top bit cleared. *)
Definition hash (str : string) : Z :=
  Z.land (hash_from 0 str) 0x7FFFFFFFFFFFFFFF.

Section Cmap.

(** [V] is the type of the non-nil values an [interface{}] element can
    hold; an element is an [option V] with [None] for [nil]. *)
Context {V : Type}.
Context `{Constants}.

(** ** pair.go *)

(** A [pair] owns the chain that hangs from its [next] pointer; a nil
    [unsafe.Pointer] is [None]. *)
#[local] Unset Elimination Schemes.
Inductive pair : Type := mkPair {
  pair_key : string;
  pair_hash : Z;
  pair_element : option V;
  pair_next : option pair
}.
#[local] Set Elimination Schemes.

(** Induction along a chain. *)
Fixpoint pair_chain_ind (P : pair -> Prop)
    (Hlast : forall k h e, P (mkPair k h e None))
    (Hnext : forall k h e q, P q -> P (mkPair k h e (Some q)))
    (p : pair) : P p :=
  match p with
  | mkPair k h e None => Hlast k h e
  | mkPair k h e (Some q) => Hnext k h e q (pair_chain_ind P Hlast Hnext q)
  end.

(** A value of the interface type [Pair]: the nil interface, a [*pair]
    (possibly a nil pointer), or a value of another implementation, of
    which only the type name matters here. *)
Inductive Pair : Type :=
| PairNil
| PairPtr (pp : option pair)
| PairForeign (tyname : string).

(** [fmt.Sprintf("%T", pair)] *)
Definition type_name (p : Pair) : string :=
  match p with
  | PairNil => "<nil>"
  | PairPtr _ => "*cmap.pair"
  | PairForeign tyname => tyname
  end.

Definition newIllegalPairTypeError (p : Pair) : error :=
  IllegalPairTypeError ("concurrency map: illegal pair type: " +:+ type_name p).

Definition newPair (key : string) (element : option V)
  : option pair * option error :=
  let p := mkPair key (hash key) None None in
  match element with
  | None => (None, Some (newIllegalParameterError "element is nil"))
  | Some _ => (Some (mkPair (pair_key p) (pair_hash p) element (pair_next p)), None)
  end.

Definition Key (p : pair) : string := pair_key p.
Definition Hash (p : pair) : Z := pair_hash p.
Definition Element (p : pair) : option V := pair_element p.

Definition SetElement (p : pair) (element : option V) : pair * option error :=
  match element with
  | None => (p, Some (newIllegalParameterError "element is nil"))
  | Some _ => (mkPair (pair_key p) (pair_hash p) element (pair_next p), None)
  end.

Definition Next (p : pair) : Pair :=
  match pair_next p with
  | None => PairNil
  | Some q => PairPtr (Some q)
  end.

Definition store_next (p : pair) (n : option pair) : pair :=
  mkPair (pair_key p) (pair_hash p) (pair_element p) n.

Definition SetNext (p : pair) (nextPair : Pair) : pair * option error :=
  let p1 := match nextPair with
            | PairNil => store_next p None
            | _ => p
            end in
  match nextPair with
  | PairPtr pp => (store_next p1 pp, None)
  | _ => (p1, Some (newIllegalPairTypeError nextPair))
  end.

Definition Copy (p : pair) : option pair :=
  fst (newPair (pair_key p) (Element p)).

(** ** The bucket *)

(** Modelled from the spec: the file that implements [Bucket]
    ([newBucket], [GetFirstPair], [Get], [Put], [Delete], [Size],
    [Clear]) is not among the sources.  The definitions below follow
    section 4.2 of the specification: a bucket is one head reference to
    a chain of pairs. *)
Record Bucket : Type := mkBucket { head : option pair }.

(** Modelled from the spec: [newBucket], a bucket with no pair. *)
Definition newBucket : Bucket := mkBucket None.

(** Modelled from the spec: [GetFirstPair], the load of the head. *)
Definition bucket_GetFirstPair (b : Bucket) : option pair := head b.

(** Traversal from a node along [next] until the key matches. *)
Fixpoint chain_find (key : string) (p : pair) : option pair :=
  match p with
  | mkPair k _ _ n =>
      if String.eqb k key then Some p
      else match n with
           | Some q => chain_find key q
           | None => None
           end
  end.

(** Modelled from the spec: [Get], the traversal from the first pair
    until the key matches or the chain ends. *)
Definition bucket_Get (b : Bucket) (key : string) : option pair :=
  match head b with
  | Some p => chain_find key p
  | None => None
  end.

(** [setValue] on the first node that holds [key], in place. *)
Fixpoint chain_setValue (key : string) (v : option V) (p : pair) : pair :=
  match p with
  | mkPair k h e n =>
      if String.eqb k key then fst (SetElement p v)
      else mkPair k h e
             match n with
             | Some q => Some (chain_setValue key v q)
             | None => None
             end
  end.

(** Modelled from the spec: [Put].  If a node with the key is in the
    chain, [setValue] is called on it in place and the pair is not new;
    otherwise a new node whose [next] is the current head becomes the
    head and the pair is new.  The spec names no failure of [put]: the
    error result is nil. *)
Definition bucket_Put (b : Bucket) (p : pair) : Bucket * (bool * option error) :=
  match bucket_Get b (Key p) with
  | Some _ =>
      (mkBucket (option_map (chain_setValue (Key p) (Element p)) (head b)),
       (false, None))
  | None =>
      (mkBucket (Some (mkPair (Key p) (Hash p) (Element p) (head b))),
       (true, None))
  end.

(** The chain without its first node that holds [key]; the other nodes
    keep their order. *)
Fixpoint chain_remove (key : string) (p : pair) : option pair :=
  match p with
  | mkPair k h e n =>
      if String.eqb k key then n
      else Some (mkPair k h e
                   match n with
                   | Some q => chain_remove key q
                   | None => None
                   end)
  end.

(** Modelled from the spec: [Delete].  If the key is found, the chain
    without that node becomes the head; the result tells whether a node
    was removed. *)
Definition bucket_Delete (b : Bucket) (key : string) : Bucket * bool :=
  match bucket_Get b key with
  | Some _ =>
      (mkBucket match head b with
                | Some p => chain_remove key p
                | None => None
                end, true)
  | None => (b, false)
  end.

Fixpoint chain_length (p : pair) : nat :=
  match p with
  | mkPair _ _ _ n =>
      S match n with
        | Some q => chain_length q
        | None => O
        end
  end.

(** Modelled from the spec: [Size] counts the nodes by traversal. *)
Definition bucket_Size (b : Bucket) : Z :=
  match head b with
  | Some p => Z.of_nat (chain_length p)
  | None => 0
  end.

(** Modelled from the spec: [Clear] sets the head to none. *)
Definition bucket_Clear (b : Bucket) : Bucket := mkBucket None.

(** Every node of a chain, head first. *)
Fixpoint chain_nodes (p : pair) : list pair :=
  p :: match p with
       | mkPair _ _ _ (Some q) => chain_nodes q
       | mkPair _ _ _ None => []
       end.

Definition bucket_nodes (b : Bucket) : list pair :=
  match bucket_GetFirstPair b with
  | Some p => chain_nodes p
  | None => []
  end.

(** ** The redistribution policy *)

(** [BucketStatus] is a [uint8]. *)
Definition BucketStatus : Type := Z.
Definition BUCKET_STATUS_NORMAL : BucketStatus := 0.
Definition BUCKET_STATUS_UNDERWEIGHT : BucketStatus := 1.
Definition BUCKET_STATUS_OVERWEIGHT : BucketStatus := 2.

(** The interface [PairRedistributor].  A method works on the state of
    the policy object and may panic; what it did to its state before a
    panic stays done.  [Redistribe] is handed the caller's buckets,
    which it may also edit in place: next to its own state it returns
    the caller's buckets as it leaves them, and then its results
    [(newBuckets, changed)]. *)
Class PairRedistributor (PS : Type) : Type := {
  UpdateThreshold : PS -> Z -> Z -> PS * panicking unit;
  CheckBucketStatus : PS -> Z -> Z -> PS * panicking BucketStatus;
  Redistribe : PS -> BucketStatus -> list Bucket ->
               (PS * list Bucket) * panicking (list Bucket * bool)
}.

Record myPairRedistributor : Type := mkPairRedistributor {
  loadFactor : float64;
  upperThreshold : Z;
  overweightBucketCount : Z;
  emptyBucketCount : Z
}.

Definition store_upperThreshold (pr : myPairRedistributor) (t : Z) :=
  mkPairRedistributor (loadFactor pr) t (overweightBucketCount pr)
    (emptyBucketCount pr).

Definition store_counts (pr : myPairRedistributor) (o e : Z) :=
  mkPairRedistributor (loadFactor pr) (upperThreshold pr) o e.

Definition f64_100 : float64 := float64_of_uint64 100.

(** [UpdateThreshold]; the deferred [logMsg] only prints. *)
Definition pr_UpdateThreshold (pr : myPairRedistributor)
    (pairTotal bucketNumber : Z) : myPairRedistributor * panicking unit :=
  if wrap64 bucketNumber =? 0 then (pr, Panic divide_by_zero)
  else
    let average := float64_of_uint64 (pairTotal / wrap64 bucketNumber) in
    let average := if f64_lt average f64_100 then f64_100 else average in
    (store_upperThreshold pr
       (uint64_of_float64 uint64_unspecified (f64_mul average (loadFactor pr))),
     Done tt).

Definition newDefaultPairRedistributor (loadFactor : float64)
    (bucketNumber : Z) : panicking myPairRedistributor :=
  let loadFactor :=
    if f64_le loadFactor (S754_zero false) then DEFAULT_BUCKET_LOAD_FACTOR
    else loadFactor in
  let pr := mkPairRedistributor loadFactor 0 0 0 in
  match pr_UpdateThreshold pr 0 bucketNumber with
  | (pr, Done _) => Done pr
  | (_, Panic v) => Panic v
  end.

Definition pr_CheckBucketStatus (pr : myPairRedistributor)
    (pairTotal bucketSize : Z) : myPairRedistributor * panicking BucketStatus :=
  if (bucketSize >? DEFAULT_BUCKET_MAX_SIZE) || (bucketSize >=? upperThreshold pr)
  then (store_counts pr (wrap64 (overweightBucketCount pr + 1))
          (emptyBucketCount pr),
        Done BUCKET_STATUS_OVERWEIGHT)
  else if bucketSize =? 0
  then (store_counts pr (overweightBucketCount pr)
          (wrap64 (emptyBucketCount pr + 1)),
        Done BUCKET_STATUS_NORMAL)
  else (pr, Done BUCKET_STATUS_NORMAL).

(** The [switch] of [Redistribe]: the new bucket number, or [None] where
    the method returns [nil, false] at once. *)
Definition resize_target (pr : myPairRedistributor)
    (bucketStatus : BucketStatus) (currentNumber : Z) : option Z :=
  if bucketStatus =? BUCKET_STATUS_OVERWEIGHT then
    if wrap64 (overweightBucketCount pr * 4) <? currentNumber then None
    else Some (wrap64 (Z.shiftl currentNumber 1))
  else if bucketStatus =? BUCKET_STATUS_UNDERWEIGHT then
    if (currentNumber <? 100)
       || (wrap64 (emptyBucketCount pr * 4) <? currentNumber) then None
    else
      let newNumber := Z.shiftr currentNumber 1 in
      Some (if newNumber <? 2 then 2 else newNumber)
  else None.

(** The gate of [Redistribe], in [uint64] arithmetic. *)
Definition hysteresis_satisfied (pr : myPairRedistributor)
    (bucketStatus : BucketStatus) (currentNumber : Z) : bool :=
  ((bucketStatus =? BUCKET_STATUS_OVERWEIGHT)
   && (currentNumber <=? wrap64 (overweightBucketCount pr * 4)))
  || ((bucketStatus =? BUCKET_STATUS_UNDERWEIGHT)
      && (100 <=? currentNumber)
      && (currentNumber <=? wrap64 (emptyBucketCount pr * 4))).

(** The last loop of [Redistribe]: every collected pair is put into the
    bucket at [hash % newNumber]. *)
Fixpoint rehash (newNumber : Z) (pairs : list pair) (buckets : list Bucket)
  : panicking (list Bucket) :=
  match pairs with
  | [] => Done buckets
  | p :: rest =>
      if newNumber =? 0 then Panic divide_by_zero
      else
        let index := Z.to_nat (Hash p mod newNumber) in
        match buckets !! index with
        | Some b => rehash newNumber rest (<[index := fst (bucket_Put b p)]> buckets)
        | None => Panic index_out_of_range
        end
  end.

(** [Redistribe].  [len(buckets)] is an [int], so its conversion to
    [uint64] is the length itself. *)
Definition pr_Redistribe (pr : myPairRedistributor)
    (bucketStatus : BucketStatus) (buckets : list Bucket)
  : (myPairRedistributor * list Bucket) * panicking (list Bucket * bool) :=
  let currentNumber := Z.of_nat (length buckets) in
  match resize_target pr bucketStatus currentNumber with
  | None => ((pr, buckets), Done ([], false))
  | Some newNumber =>
      if newNumber =? currentNumber
      then ((store_counts pr 0 0, buckets), Done ([], false))
      else
        let pairs := concat (map bucket_nodes buckets) in
        if newNumber >? currentNumber then
          let cleared := map bucket_Clear buckets in
          let grown :=
            cleared ++ replicate (Z.to_nat (newNumber - currentNumber)) newBucket in
          match rehash newNumber pairs grown with
          | Done filled =>
              ((store_counts pr 0 0, take (length buckets) filled),
               Done (filled, true))
          | Panic v => ((pr, cleared), Panic v)
          end
        else
          let fresh := replicate (Z.to_nat newNumber) newBucket in
          match rehash newNumber pairs fresh with
          | Done filled => ((store_counts pr 0 0, buckets), Done (filled, true))
          | Panic v => ((pr, buckets), Panic v)
          end
  end.

(** [PS] is the type of the states of the caller's own policy. *)
Context {PS : Type}.
Context `{PairRedistributor PS}.

(** The value of an interface variable of type [PairRedistributor] that
    is not nil: the caller's own implementation or the default one. *)
Inductive policy : Type :=
| Custom (ps : PS)
| Default (pr : myPairRedistributor).

#[local] Instance policy_methods : PairRedistributor policy := {
  UpdateThreshold pol pairTotal bucketNumber :=
    match pol with
    | Custom ps =>
        let '(ps', r) := UpdateThreshold ps pairTotal bucketNumber in (Custom ps', r)
    | Default pr =>
        let '(pr', r) := pr_UpdateThreshold pr pairTotal bucketNumber in (Default pr', r)
    end;
  CheckBucketStatus pol pairTotal bucketSize :=
    match pol with
    | Custom ps =>
        let '(ps', r) := CheckBucketStatus ps pairTotal bucketSize in (Custom ps', r)
    | Default pr =>
        let '(pr', r) := pr_CheckBucketStatus pr pairTotal bucketSize in (Default pr', r)
    end;
  Redistribe pol bucketStatus buckets :=
    match pol with
    | Custom ps =>
        let '((ps', bs), r) := Redistribe ps bucketStatus buckets in ((Custom ps', bs), r)
    | Default pr =>
        let '((pr', bs), r) := pr_Redistribe pr bucketStatus buckets in ((Default pr', bs), r)
    end
}.

(** ** The segment *)

Record segment (PR : Type) : Type := mkSegment {
  buckets : list Bucket;
  bucketsLen : Z;
  pairTotal : Z;
  pairRedistributor : PR
}.
Arguments mkSegment {PR} _ _ _ _.
Arguments buckets {PR} _.
Arguments bucketsLen {PR} _.
Arguments pairTotal {PR} _.
Arguments pairRedistributor {PR} _.

Definition newSegment (bucketNumber : Z) (pairRedistributor : option PS)
  : panicking (segment policy) :=
  let bucketNumber :=
    if bucketNumber <=? 0 then DEFAULT_BUCKET_NUMBER else bucketNumber in
  pol ← match pairRedistributor with
        | Some ps => Done (Custom ps)
        | None =>
            pr ← newDefaultPairRedistributor DEFAULT_BUCKET_LOAD_FACTOR bucketNumber;
            Done (Default pr)
        end;
  if bucketNumber <? 0 then Panic makeslice_out_of_range
  else Done (mkSegment (replicate (Z.to_nat bucketNumber) newBucket)
               bucketNumber 0 pol).

(** What the deferred function of [redistribute] makes of a recovered
    panic. *)
Definition recovered (v : panic_value) : error :=
  match v with
  | PanicError msg => newPairRedistributorError msg
  | PanicOther msg => newPairRedistributorError msg
  end.

(** [redistribute]; its first parameter, [pairTotal] in the source, is
    the total that [Put] or [Delete] has just stored. *)
Definition segment_redistribute {PR : Type} `{PairRedistributor PR}
    (s : segment PR) (newTotal bucketSize : Z) : segment PR * option error :=
  let '(pol1, r1) :=
    UpdateThreshold (pairRedistributor s) newTotal (bucketsLen s) in
  match r1 with
  | Panic v =>
      (mkSegment (buckets s) (bucketsLen s) (pairTotal s) pol1,
       Some (recovered v))
  | Done _ =>
      let '(pol2, r2) := CheckBucketStatus pol1 newTotal bucketSize in
      match r2 with
      | Panic v =>
          (mkSegment (buckets s) (bucketsLen s) (pairTotal s) pol2,
           Some (recovered v))
      | Done bucketStatus =>
          let '((pol3, inplace), r3) := Redistribe pol2 bucketStatus (buckets s) in
          match r3 with
          | Panic v =>
              (mkSegment inplace (bucketsLen s) (pairTotal s) pol3,
               Some (recovered v))
          | Done (newBuckets, change) =>
              if change
              then (mkSegment newBuckets (Z.of_nat (length newBuckets))
                      (pairTotal s) pol3, None)
              else (mkSegment inplace (bucketsLen s) (pairTotal s) pol3,
                    None)
          end
      end
  end.

(** [s.buckets[int(h % uint64(s.bucketsLen))]]: the index, or the panic
    of the division.  An index beyond the slice panics where it is
    used. *)
Definition bucket_index {PR : Type} (s : segment PR) (h : Z) : panicking nat :=
  if wrap64 (bucketsLen s) =? 0 then Panic divide_by_zero
  else Done (Z.to_nat (h mod wrap64 (bucketsLen s))).

Definition segment_Put {PR : Type} `{PairRedistributor PR}
    (s : segment PR) (p : pair)
  : panicking (segment PR * (bool * option error)) :=
  index ← bucket_index s (Hash p);
  match buckets s !! index with
  | None => Panic index_out_of_range
  | Some b =>
      let '(b', (ok, err)) := bucket_Put b p in
      let s1 := mkSegment (<[index := b']> (buckets s)) (bucketsLen s)
                  (pairTotal s) (pairRedistributor s) in
      if ok then
        let newTotal := wrap64 (pairTotal s1 + 1) in
        let s2 := mkSegment (buckets s1) (bucketsLen s1) newTotal
                    (pairRedistributor s1) in
        let '(s3, _) := segment_redistribute s2 newTotal (bucket_Size b') in
        Done (s3, (ok, err))
      else Done (s1, (ok, err))
  end.

Definition segment_GetWithHash {PR : Type} (s : segment PR)
    (key : string) (keyHash : Z) : panicking (option pair) :=
  index ← bucket_index s keyHash;
  match buckets s !! index with
  | None => Panic index_out_of_range
  | Some b => Done (bucket_Get b key)
  end.

Definition segment_Get {PR : Type} (s : segment PR) (key : string)
  : panicking (option pair) :=
  segment_GetWithHash s key (hash key).

Definition segment_Delete {PR : Type} `{PairRedistributor PR}
    (s : segment PR) (key : string) : panicking (segment PR * bool) :=
  index ← bucket_index s (hash key);
  match buckets s !! index with
  | None => Panic index_out_of_range
  | Some b =>
      let '(b', ok) := bucket_Delete b key in
      let s1 := mkSegment (<[index := b']> (buckets s)) (bucketsLen s)
                  (pairTotal s) (pairRedistributor s) in
      if ok then
        let newTotal := wrap64 (pairTotal s1 + (2 ^ 64 - 1)) in
        let s2 := mkSegment (buckets s1) (bucketsLen s1) newTotal
                    (pairRedistributor s1) in
        let '(s3, _) := segment_redistribute s2 newTotal (bucket_Size b') in
        Done (s3, ok)
      else Done (s1, ok)
  end.

Definition segment_Size {PR : Type} (s : segment PR) : Z := pairTotal s.

(** ** The map *)

Record myConcurrentMap : Type := mkConcurrentMap {
  concurrency : Z;
  segments : list (segment policy);
  total : Z
}.

(** A caller's policy is one object that every segment points to: what
    a segment does to it is seen by all of them.  A default policy
    belongs to its segment alone. *)
Definition share_policy (pol : policy) (s : segment policy) : segment policy :=
  match pol, pairRedistributor s with
  | Custom ps, Custom _ =>
      mkSegment (buckets s) (bucketsLen s) (pairTotal s) (Custom ps)
  | _, _ => s
  end.

(** The segments after the segment at [i] has become [s']. *)
Definition store_segment (segs : list (segment policy)) (i : nat)
    (s' : segment policy) : list (segment policy) :=
  share_policy (pairRedistributor s') <$> <[i := s']> segs.

Definition NewConcurrentMap (concurrency : Z) (pairRedistributor : option PS)
  : panicking (option myConcurrentMap * option error) :=
  if concurrency <=? 0
  then Done (None, Some (newIllegalParameterError "concurrency is too small"))
  else if concurrency >? MAX_CONCURRENCY
  then Done (None, Some (newIllegalParameterError "concurrency is too large"))
  else
    s ← newSegment DEFAULT_BUCKET_NUMBER pairRedistributor;
    Done (Some (mkConcurrentMap concurrency
                  (replicate (Z.to_nat concurrency) s) 0), None).

Definition Concurrency (cmap : myConcurrentMap) : Z := concurrency cmap.

(** [findSegment], as the index of the segment it returns.  The local
    [keyHash32] holds the zero value of its type when it is read. *)
Definition findSegment (cmap : myConcurrentMap) (keyHash : Z) : Z :=
  if concurrency cmap =? 1 then 0
  else
    let keyHash32 := 0 in
    let keyHash32 :=
      if keyHash >? MaxUint32 then wrap32 (Z.shiftr keyHash32 32)
      else wrap32 keyHash32 in
    Z.rem (Z.shiftr keyHash32 16) (concurrency cmap - 1).

Definition nil_dereference : panic_value :=
  PanicError "runtime error: invalid memory address or nil pointer dereference".

Definition cmap_Put (cmap : myConcurrentMap) (key : string) (element : option V)
  : panicking (myConcurrentMap * (bool * option error)) :=
  match newPair key element with
  | (_, Some err) => Done (cmap, (false, Some err))
  | (None, None) => Panic nil_dereference
  | (Some p, None) =>
      let i := Z.to_nat (findSegment cmap (Hash p)) in
      match segments cmap !! i with
      | None => Panic index_out_of_range
      | Some s =>
          match segment_Put s p with
          | Panic v => Panic v
          | Done (s', (ok, err)) =>
              let segs := store_segment (segments cmap) i s' in
              let total := if ok then wrap64 (total cmap + 1) else total cmap in
              Done (mkConcurrentMap (concurrency cmap) segs total, (ok, err))
          end
      end
  end.

Definition cmap_Get (cmap : myConcurrentMap) (key : string)
  : panicking (option V) :=
  let keyHash := hash key in
  let i := Z.to_nat (findSegment cmap keyHash) in
  match segments cmap !! i with
  | None => Panic index_out_of_range
  | Some s =>
      pair ← segment_GetWithHash s key keyHash;
      match pair with
      | None => Done None
      | Some p => Done (Element p)
      end
  end.

Definition cmap_Delete (cmap : myConcurrentMap) (key : string)
  : panicking (myConcurrentMap * bool) :=
  let i := Z.to_nat (findSegment cmap (hash key)) in
  match segments cmap !! i with
  | None => Panic index_out_of_range
  | Some s =>
      match segment_Delete s key with
      | Panic v => Panic v
      | Done (s', ok) =>
          let segs := store_segment (segments cmap) i s' in
          if ok
          then Done (mkConcurrentMap (concurrency cmap) segs
                       (wrap64 (total cmap + (2 ^ 64 - 1))), true)
          else Done (mkConcurrentMap (concurrency cmap) segs (total cmap), false)
      end
  end.

Definition cmap_Len (cmap : myConcurrentMap) : Z := total cmap.

(** ** Runs of a segment *)

(** The two mutating methods of a segment, and a sequential run of
    them; a run panics where one of its calls does. *)
Inductive segment_op : Type :=
| OpPut (p : pair)
| OpDelete (key : string).

Definition segment_apply {PR : Type} `{PairRedistributor PR}
    (s : segment PR) (op : segment_op) : panicking (segment PR) :=
  match op with
  | OpPut p => r ← segment_Put s p; Done (fst r)
  | OpDelete key => r ← segment_Delete s key; Done (fst r)
  end.

Fixpoint segment_run {PR : Type} `{PairRedistributor PR}
    (s : segment PR) (ops : list segment_op) : panicking (segment PR) :=
  match ops with
  | [] => Done s
  | op :: rest => s' ← segment_apply s op; segment_run s' rest
  end.

(** The shape every segment has: [bucketsLen] is the length of the
    bucket slice, which is not empty and, as any Go slice, not longer
    than [MaxInt]. *)
Definition segment_shape {PR : Type} (s : segment PR) : Prop :=
  bucketsLen s = Z.of_nat (length (buckets s)) /\ 0 < bucketsLen s <= MaxInt.

(** ** The contents of buckets and segments *)

(** A node without its successors. *)
Definition detach (p : pair) : pair := store_next p None.

(** The nodes of a chain, detached, head first. *)
Fixpoint chain_entries (p : pair) : list pair :=
  match p with
  | mkPair k h e n =>
      mkPair k h e None :: match n with
                           | Some q => chain_entries q
                           | None => []
                           end
  end.

Definition bucket_entries (b : Bucket) : list pair :=
  match head b with
  | Some p => chain_entries p
  | None => []
  end.

Definition has_key (key : string) (p : pair) : bool := String.eqb (Key p) key.

(** The first entry with the key gets the value; the first entry with
    the key is dropped. *)
Fixpoint set_first (key : string) (v : V) (l : list pair) : list pair :=
  match l with
  | [] => []
  | c :: l' =>
      if has_key key c then mkPair (Key c) (Hash c) (Some v) None :: l'
      else c :: set_first key v l'
  end.

Fixpoint remove_first (key : string) (l : list pair) : list pair :=
  match l with
  | [] => []
  | c :: l' => if has_key key c then l' else c :: remove_first key l'
  end.

(** What a lookup of [key] in a slice of [n] buckets finds: the entry
    of the key in the bucket at [hash key % n]. *)
Definition lookup_entry (bs : list Bucket) (n : Z) (key : string) : option pair :=
  match bs !! Z.to_nat (hash key mod n) with
  | Some b => find (has_key key) (bucket_entries b)
  | None => None
  end.

Definition segment_entry {PR : Type} (s : segment PR) (key : string) : option pair :=
  lookup_entry (buckets s) (bucketsLen s) key.

(** A bucket at index [j] of [n] is in order when its keys are
    distinct and every entry carries the hash of its key and belongs at
    [j]. *)
Definition entry_placed (n : Z) (j : nat) (c : pair) : Prop :=
  Hash c = hash (Key c) /\ Z.to_nat (Hash c mod n) = j.

Definition bucket_ok (n : Z) (j : nat) (b : Bucket) : Prop :=
  NoDup (map Key (bucket_entries b))
  /\ Forall (entry_placed n j) (bucket_entries b).

Definition buckets_ok (n : Z) (bs : list Bucket) : Prop :=
  forall (j : nat) (b : Bucket), bs !! j = Some b -> bucket_ok n j b.

Definition segment_wf {PR : Type} (s : segment PR) : Prop :=
  segment_shape s /\ buckets_ok (bucketsLen s) (buckets s).

(** What one call leaves of a segment with the default policy [pr]:
    still the default policy, with the overweight count at most one
    higher; the bucket number the same or, if it was at most four times
    that count, doubled; the buckets in order. *)
Definition default_step (s s' : segment policy) (pr : myPairRedistributor) : Prop :=
  exists pr',
    pairRedistributor s' = Default pr'
    /\ 0 <= overweightBucketCount pr' <= overweightBucketCount pr + 1
    /\ bucketsLen s' = Z.of_nat (length (buckets s'))
    /\ (bucketsLen s' = bucketsLen s
        \/ bucketsLen s' = 2 * bucketsLen s
           /\ bucketsLen s <= 4 * (overweightBucketCount pr + 1))
    /\ buckets_ok (bucketsLen s') (buckets s').

(** ** Maps in regular state *)

(** A segment with the default policy, in order. *)
Definition default_segment (s : segment policy) : Prop :=
  segment_wf s
  /\ exists pr, pairRedistributor s = Default pr /\ 0 <= overweightBucketCount pr.

(** The same with room for [k] more calls: the bucket number stays a
    legal slice length through them. *)
Definition segment_ready (k : Z) (s : segment policy) : Prop :=
  segment_wf s
  /\ exists pr,
      pairRedistributor s = Default pr
      /\ 0 <= overweightBucketCount pr
      /\ 8 * (overweightBucketCount pr + k) <= MaxInt.

Definition cmap_wf (cmap : myConcurrentMap) : Prop :=
  (0 < length (segments cmap))%nat /\ Forall default_segment (segments cmap).

Definition cmap_ready (k : Z) (cmap : myConcurrentMap) : Prop :=
  (0 < length (segments cmap))%nat /\ Forall (segment_ready k) (segments cmap).

(** What a key finds in the map: its entry in the segment that
    [findSegment] returns. *)
Definition cmap_entry (cmap : myConcurrentMap) (key : string) : option pair :=
  match segments cmap !! Z.to_nat (findSegment cmap (hash key)) with
  | Some s => segment_entry s key
  | None => None
  end.

(** The mutating calls of the map, and a sequential run of them. *)
Inductive cmap_op : Type :=
| CallPut (key : string) (element : option V)
| CallDelete (key : string).

Definition cmap_apply (cmap : myConcurrentMap) (op : cmap_op)
  : panicking myConcurrentMap :=
  match op with
  | CallPut key element => r ← cmap_Put cmap key element; Done (fst r)
  | CallDelete key => r ← cmap_Delete cmap key; Done (fst r)
  end.

Fixpoint cmap_run (cmap : myConcurrentMap) (ops : list cmap_op)
  : panicking myConcurrentMap :=
  match ops with
  | [] => Done cmap
  | op :: rest => cmap' ← cmap_apply cmap op; cmap_run cmap' rest
  end.

(** ** Runs of setter calls on a pair *)

(** The two setters of a pair, and the pair that a sequence of calls
    leaves, whatever errors the calls return. *)
Inductive pair_op : Type :=
| CallSetElement (element : option V)
| CallSetNext (nextPair : Pair).

Definition pair_apply (p : pair) (op : pair_op) : pair :=
  match op with
  | CallSetElement element => fst (SetElement p element)
  | CallSetNext nextPair => fst (SetNext p nextPair)
  end.

Definition pair_run (p : pair) (ops : list pair_op) : pair :=
  foldl pair_apply p ops.

(** ** The map as a dictionary *)

(** What a call does to a dictionary from keys to elements, and the
    dictionary that a sequence of calls builds from the empty one. *)
Definition dict_apply (m : gmap string V) (op : cmap_op) : gmap string V :=
  match op with
  | CallPut key (Some v) => <[key := v]> m
  | CallPut key None => m
  | CallDelete key => delete key m
  end.

Definition dict_run (ops : list cmap_op) : gmap string V :=
  foldl dict_apply ∅ ops.

(** ** Iteration *)

(** A callback [fn] works on the state [A] of its environment and is
    taken to return; [None] is a nil callback.  [ForEach] returns the
    state as the calls leave it, and whether it panicked on the way. *)

(** The inner loop of [ForEach]: [fn(v.Key(), v.Element())] for every
    node [v] of a chain, along [Next]. *)
Fixpoint chain_ForEach {A : Type} (fn : string -> option V -> A -> A)
    (p : pair) (acc : A) : A :=
  match p with
  | mkPair _ _ _ n =>
      let acc := fn (Key p) (Element p) acc in
      match n with
      | Some q => chain_ForEach fn q acc
      | None => acc
      end
  end.

Definition bucket_ForEach {A : Type} (fn : string -> option V -> A -> A)
    (b : Bucket) (acc : A) : A :=
  match bucket_GetFirstPair b with
  | Some p => chain_ForEach fn p acc
  | None => acc
  end.

(** The outer loop of [segment.ForEach], from index [i] for [count]
    rounds; [s.buckets[i]] panics beyond the slice. *)
Fixpoint buckets_ForEach {A : Type} (fn : string -> option V -> A -> A)
    (bs : list Bucket) (i count : nat) (acc : A) : A * panicking unit :=
  match count with
  | O => (acc, Done tt)
  | S count' =>
      match bs !! i with
      | None => (acc, Panic index_out_of_range)
      | Some b => buckets_ForEach fn bs (S i) count' (bucket_ForEach fn b acc)
      end
  end.

Definition segment_ForEach {A PR : Type}
    (fn : option (string -> option V -> A -> A)) (s : segment PR) (acc : A)
  : A * panicking unit :=
  match fn with
  | None => (acc, Done tt)
  | Some f => buckets_ForEach f (buckets s) O (Z.to_nat (bucketsLen s)) acc
  end.

(** The loop of [myConcurrentMap.ForEach]. *)
Fixpoint segments_ForEach {A : Type}
    (fn : option (string -> option V -> A -> A))
    (segs : list (segment policy)) (i count : nat) (acc : A)
  : A * panicking unit :=
  match count with
  | O => (acc, Done tt)
  | S count' =>
      match segs !! i with
      | None => (acc, Panic index_out_of_range)
      | Some s =>
          match segment_ForEach fn s acc with
          | (acc', Done _) => segments_ForEach fn segs (S i) count' acc'
          | (acc', Panic v) => (acc', Panic v)
          end
      end
  end.

Definition cmap_ForEach {A : Type}
    (fn : option (string -> option V -> A -> A)) (cmap : myConcurrentMap)
    (acc : A) : A * panicking unit :=
  match fn with
  | None => (acc, Done tt)
  | Some _ =>
      segments_ForEach fn (segments cmap) O (Z.to_nat (Concurrency cmap)) acc
  end.

(** ** Counting *)

(** The number of pairs in the chains of a slice of buckets, and the sum
    of the sizes of the segments. *)
Definition pair_count (bs : list Bucket) : nat :=
  length (concat (map bucket_nodes bs)).

Definition segments_total (segs : list (segment policy)) : Z :=
  foldr (fun s t => segment_Size s + t) 0 segs.

(** What [GetWithHash] finds for a key and its hash in a slice of
    buckets that is the whole of a segment. *)
Definition slice_Get (bs : list Bucket) (key : string) : option pair :=
  match bs !! Z.to_nat (hash key mod Z.of_nat (length bs)) with
  | Some b => bucket_Get b key
  | None => None
  end.

(** Every pair of the map, in the order of the segments, the buckets
    and the chains. *)
Definition cmap_pairs (cmap : myConcurrentMap) : list pair :=
  concat (map (fun s => concat (map bucket_nodes (buckets s))) (segments cmap)).

(** The calls that a run of [fn(key, element)] over a list of pairs
    makes, as the state they leave. *)
Definition visit_all {A : Type} (fn : string -> option V -> A -> A)
    (pairs : list pair) (acc : A) : A :=
  foldl (fun a p => fn (Key p) (Element p) a) acc pairs.

(** A map as the calls of this package leave it, with room for [k] more
    calls: as many segments as its concurrency, no pair in a segment
    but the first, no nil element, and the total equal to the number of
    pairs. *)
Definition cmap_regular (k : Z) (cmap : myConcurrentMap) : Prop :=
  cmap_ready k cmap
  /\ concurrency cmap = Z.of_nat (length (segments cmap))
  /\ (forall i s, (0 < i)%nat -> segments cmap !! i = Some s ->
        concat (map bucket_nodes (buckets s)) = [])
  /\ (forall key c, cmap_entry cmap key = Some c -> Element c <> None)
  /\ total cmap = wrap64 (Z.of_nat (length (cmap_pairs cmap))).

End Cmap.

#[export] Existing Instance policy_methods.

Arguments pair V : clear implicits.
Arguments Pair V : clear implicits.
Arguments Bucket V : clear implicits.
Arguments PairRedistributor V PS : clear implicits.
Arguments segment V PR : clear implicits.
Arguments policy PS : clear implicits.
Arguments myConcurrentMap V PS : clear implicits.
Arguments segment_op V : clear implicits.
Arguments cmap_op V : clear implicits.
Arguments pair_op V : clear implicits.
Arguments mkSegment {V PR} buckets bucketsLen pairTotal pairRedistributor.
Arguments buckets {V PR} s.
Arguments bucketsLen {V PR} s.
Arguments pairTotal {V PR} s.
Arguments pairRedistributor {V PR} s.

(** * Concrete instances *)

(** Constants for the examples: 65536 shards at most, 16 buckets, load
    factor 0.75, 1000 pairs in a bucket at most; out-of-range float
    conversions give [2^63]. *)
#[local] Instance sample_constants : Constants := {|
  MAX_CONCURRENCY := 65536;
  DEFAULT_BUCKET_NUMBER := 16;
  DEFAULT_BUCKET_LOAD_FACTOR := S754_finite false 6755399441055744 (-53);
  DEFAULT_BUCKET_MAX_SIZE := 1000;
  uint64_unspecified := fun _ => 2 ^ 63
|}.

(** No policy of the caller's: the type of its states is empty. *)
Inductive no_policy : Type := .

#[local] Instance no_policy_methods : PairRedistributor Z no_policy := {|
  UpdateThreshold := fun (ps : no_policy) _ _ => match ps with end;
  CheckBucketStatus := fun (ps : no_policy) _ _ => match ps with end;
  Redistribe := fun (ps : no_policy) _ _ => match ps with end
|}.

(** A policy whose [UpdateThreshold] panics with a value that is not an
    [error]. *)
Definition failing_policy : PairRedistributor Z unit := {|
  UpdateThreshold := fun ps _ _ => (ps, Panic (PanicOther "boom"));
  CheckBucketStatus := fun ps _ _ => (ps, Done BUCKET_STATUS_NORMAL);
  Redistribe := fun ps _ bs => ((ps, bs), Done ([], false))
|}.

Definition sample_pair : pair Z := mkPair "a" (hash "a") (Some 1) None.

(** Two empty buckets and the failing policy. *)
Definition failing_segment : segment Z unit :=
  mkSegment [newBucket; newBucket] 2 0 tt.

(** The same segment as [Put] hands it to [redistribute]: the pair is in
    bucket [97 % 2] and the total is 1. *)
Definition failing_segment_put : segment Z unit :=
  mkSegment [newBucket; fst (bucket_Put newBucket sample_pair)] 2 1 tt.

(** The default policy with load factor 0.75 and threshold 75, and its
    counters. *)
Definition sample_policy (overweight empty : Z) : myPairRedistributor :=
  mkPairRedistributor DEFAULT_BUCKET_LOAD_FACTOR 75 overweight empty.

Definition sample_segment : segment Z (policy no_policy) :=
  mkSegment (replicate 16 newBucket) 16 0 (Default (sample_policy 0 0)).

Definition sample_map : myConcurrentMap Z no_policy :=
  mkConcurrentMap 4 (replicate 4 sample_segment) 0.

(** The same after [Put("a", 1)]: the pair is in bucket [97 % 16] of the
    first segment. *)
Definition sample_segment_a : segment Z (policy no_policy) :=
  mkSegment (<[1%nat := mkBucket (Some sample_pair)]> (replicate 16 newBucket))
    16 1 (Default (sample_policy 0 0)).

Definition sample_map_a : myConcurrentMap Z no_policy :=
  mkConcurrentMap 4 (<[O := sample_segment_a]> (replicate 4 sample_segment)) 1.

(** The same segment with three overweight buckets counted. *)
Definition sample_segment_heavy : segment Z (policy no_policy) :=
  mkSegment (buckets sample_segment_a) 16 1 (Default (sample_policy 3 0)).

(** The buckets of that segment after a redistribution to 32 buckets:
    the pair is in bucket [97 % 32]. *)
Definition sample_buckets_32 : list (Bucket Z) :=
  <[1%nat := mkBucket (Some sample_pair)]> (replicate 32 newBucket).


(** * Properties *)

Section Properties.

Context {V : Type}.
Context `{Constants}.
Context {PS : Type}.
Context `{PairRedistributor V PS}.

#[local] Abbreviation pair := (pair V).
#[local] Abbreviation Pair := (Pair V).
#[local] Abbreviation Bucket := (Bucket V).
#[local] Abbreviation segment := (segment V).
#[local] Abbreviation policy := (policy PS).
#[local] Abbreviation myConcurrentMap := (myConcurrentMap V PS).
#[local] Abbreviation segment_op := (segment_op V).
#[local] Abbreviation cmap_op := (cmap_op V).
#[local] Abbreviation pair_op := (pair_op V).

(** ** float64 conversions *)

Lemma digits2_size (p : positive) : digits2_pos p = Pos.size p.
Proof. induction p as [p IH|p IH|]; cbn; rewrite ?IH; reflexivity. Qed.

Lemma digits2_bounds (p : positive) :
  2 ^ (Z.pos (digits2_pos p) - 1) <= Z.pos p < 2 ^ Z.pos (digits2_pos p).
Proof.
  rewrite digits2_size. split.
  - pose proof (Pos.size_le p) as Hle.
    assert (H2 : 2 ^ Z.pos (Pos.size p) <= 2 * Z.pos p).
    { change 2 with (Z.pos 2) at 1. rewrite <- Pos2Z.inj_pow.
      change (2 * Z.pos p) with (Z.pos p~0). apply Pos2Z.pos_le_pos. exact Hle. }
    replace (Z.pos (Pos.size p)) with (Z.pos (Pos.size p) - 1 + 1) in H2 by lia.
    rewrite Z.pow_add_r in H2 by lia. lia.
  - pose proof (Pos.size_gt p) as Hgt.
    change 2 with (Z.pos 2). rewrite <- Pos2Z.inj_pow. apply Pos2Z.pos_lt_pos. exact Hgt.
Qed.

Lemma digits2_unique (p : positive) (k : Z) :
  2 ^ (k - 1) <= Z.pos p < 2 ^ k -> 0 < k -> Z.pos (digits2_pos p) = k.
Proof.
  intros [Hlo Hhi] Hk. pose proof (digits2_bounds p) as [Hlo' Hhi'].
  assert (k - 1 < Z.pos (digits2_pos p)).
  { apply (Z.pow_lt_mono_r_iff 2); lia. }
  assert (Z.pos (digits2_pos p) - 1 < k).
  { apply (Z.pow_lt_mono_r_iff 2); lia. }
  lia.
Qed.

Lemma shr_1_half (mrs : shr_record) :
  0 <= shr_m mrs -> shr_m (shr_1 mrs) = shr_m mrs / 2.
Proof.
  destruct mrs as [m r s]. cbn [shr_m]. intros Hm.
  destruct m as [|[p|p|]|p]; cbn [shr_1 shr_m]; try lia.
  - reflexivity.
  - rewrite Pos2Z.inj_xI. apply (Z.div_unique _ _ _ 1); lia.
  - rewrite Pos2Z.inj_xO. apply (Z.div_unique _ _ _ 0); lia.
  - reflexivity.
Qed.

Lemma iter_shr_1 (k : positive) :
  forall mrs : shr_record,
    0 <= shr_m mrs ->
    shr_m (SpecFloat.iter_pos shr_1 k mrs) = shr_m mrs / 2 ^ Z.pos k.
Proof.
  induction k as [k IH|k IH|]; intros mrs Hm; cbn [SpecFloat.iter_pos].
  - assert (H1 : 0 <= shr_m (shr_1 mrs)).
    { rewrite shr_1_half by exact Hm. apply Z.div_pos; lia. }
    assert (H2 : 0 <= shr_m (SpecFloat.iter_pos shr_1 k (shr_1 mrs))).
    { rewrite IH by exact H1. apply Z.div_pos; lia. }
    rewrite IH by exact H2. rewrite IH by exact H1. rewrite shr_1_half by exact Hm.
    rewrite !Z.div_div by lia. f_equal.
    rewrite Pos2Z.inj_xI. replace (2 * Z.pos k + 1) with (1 + Z.pos k + Z.pos k) by lia.
    rewrite !Z.pow_add_r by lia. change (2 ^ 1) with 2. lia.
  - assert (H2 : 0 <= shr_m (SpecFloat.iter_pos shr_1 k mrs)).
    { rewrite IH by exact Hm. apply Z.div_pos; lia. }
    rewrite IH by exact H2. rewrite IH by exact Hm.
    rewrite Z.div_div by lia. f_equal.
    rewrite <- Z.pow_add_r by lia. f_equal. lia.
  - apply shr_1_half. exact Hm.
Qed.

(** [shr] by [n >= 0] positions divides the mantissa by [2 ^ n] and adds
    [n] to the exponent. *)
Lemma shr_spec (mrs : shr_record) (e n : Z) :
  0 <= shr_m mrs -> 0 <= n ->
  shr_m (fst (shr mrs e n)) = shr_m mrs / 2 ^ n /\ snd (shr mrs e n) = e + n.
Proof.
  intros Hm Hn. destruct n as [|k|k]; cbn [shr fst snd]; [| |lia].
  - rewrite Z.div_1_r. split; [reflexivity | lia].
  - split; [apply iter_shr_1; exact Hm | reflexivity].
Qed.

Lemma fexp_64 (e : Z) : -1021 <= e -> fexp f64_prec f64_emax e = e - 53.
Proof. intros He. unfold fexp, emin, f64_prec, f64_emax. lia. Qed.

Lemma round_nearest_even_range (m : Z) (l : location) :
  m <= round_nearest_even m l <= m + 1.
Proof.
  destruct l as [|[| |]]; cbn [round_nearest_even]; try lia.
  destruct (Z.even m); lia.
Qed.

(** Rounding a mantissa of at least 53 digits: the result is a finite
    positive float whose exponent is not below the exponent given. *)
Lemma binary_round_aux_finite (mz : positive) (ez : Z) :
  53 <= Z.pos (digits2_pos mz) -> -45 <= ez ->
  ez + Z.pos (digits2_pos mz) <= 900 ->
  exists m e,
    binary_round_aux f64_prec f64_emax false (Z.pos mz) ez loc_Exact
    = S754_finite false m e
    /\ ez <= e.
Proof.
  intros Hd He Hsum. pose proof (digits2_bounds mz) as [Hlo Hhi].
  set (dz := Z.pos (digits2_pos mz)) in *.
  unfold binary_round_aux.
  (* first shift *)
  unfold shr_fexp at 1. cbn [Zdigits2 shr_record_of_loc]. fold dz.
  rewrite fexp_64 by lia.
  destruct (shr_spec (Build_shr_record (Z.pos mz) false false) ez (dz + ez - 53 - ez))
    as [Hm1 He1]; [cbn; lia | lia |].
  destruct (shr _ ez _) as [mrs1 e1]. cbn [fst snd shr_m] in Hm1, He1.
  replace (dz + ez - 53 - ez) with (dz - 53) in Hm1 by lia.
  assert (Hm1b : 2 ^ 52 <= shr_m mrs1 < 2 ^ 53).
  { rewrite Hm1. split.
    - apply Z.div_le_lower_bound; [lia|].
      rewrite <- Z.pow_add_r by lia. replace (dz - 53 + 52) with (dz - 1) by lia.
      exact Hlo.
    - apply Z.div_lt_upper_bound; [lia|].
      rewrite <- Z.pow_add_r by lia. replace (dz - 53 + 53) with dz by lia.
      exact Hhi. }
  pose proof (round_nearest_even_range (shr_m mrs1) (loc_of_shr_record mrs1)) as Hr.
  set (m1 := round_nearest_even (shr_m mrs1) (loc_of_shr_record mrs1)) in *.
  (* second shift *)
  unfold shr_fexp. cbn [shr_record_of_loc].
  destruct m1 as [|p1|p1] eqn:Hp1; [lia | | lia].
  cbn [Zdigits2].
  pose proof (digits2_bounds p1) as [Hlo1 Hhi1].
  assert (Hd1 : 53 <= Z.pos (digits2_pos p1) <= 54).
  { split.
    - assert (52 < Z.pos (digits2_pos p1)); [|lia].
      apply (Z.pow_lt_mono_r_iff 2); lia.
    - assert (Z.pos (digits2_pos p1) - 1 < 54); [|lia].
      apply (Z.pow_lt_mono_r_iff 2); [lia | lia |].
      change (2 ^ 54) with (2 * 2 ^ 53). lia. }
  rewrite fexp_64 by lia.
  destruct (shr_spec (Build_shr_record (Z.pos p1) false false) e1
              (Z.pos (digits2_pos p1) + e1 - 53 - e1)) as [Hm2 He2];
    [cbn; lia | lia |].
  destruct (shr _ e1 _) as [mrs2 e2]. cbn [fst snd shr_m] in Hm2, He2.
  assert (Hm2b : 0 < shr_m mrs2).
  { rewrite Hm2. apply Z.div_str_pos. split; [apply Z.pow_pos_nonneg; lia|].
    replace (Z.pos (digits2_pos p1) + e1 - 53 - e1)
      with (Z.pos (digits2_pos p1) - 53) by lia.
    assert (Hle : 2 ^ (Z.pos (digits2_pos p1) - 53) <= 2 ^ 1).
    { apply Z.pow_le_mono_r; lia. }
    change (2 ^ 1) with 2 in Hle. lia. }
  destruct (shr_m mrs2) as [|m2|m2]; [lia | | lia].
  unfold f64_emax, f64_prec.
  destruct (Z.leb_spec e2 (1024 - 53)); [|lia].
  exists m2, e2. split; [reflexivity | lia].
Qed.

Lemma digits2_iter_xO (p k : positive) :
  digits2_pos (Pos.iter xO p k) = (digits2_pos p + k)%positive.
Proof.
  induction k as [|k IH] using Pos.peano_ind.
  - cbn. rewrite Pos.add_1_r. reflexivity.
  - rewrite Pos.iter_succ. cbn [digits2_pos]. rewrite IH, Pos.add_succ_r.
    reflexivity.
Qed.

(** The conversion of an integer of 8 to 64 binary digits is a finite
    positive float with an exponent of at least -45. *)
Lemma float64_of_uint64_finite (p : positive) :
  8 <= Z.pos (digits2_pos p) <= 64 ->
  exists m e, float64_of_uint64 (Z.pos p) = S754_finite false m e /\ -45 <= e.
Proof.
  intros Hd. unfold float64_of_uint64, binary_normalize, binary_round.
  rewrite fexp_64 by lia. unfold shl_align.
  destruct (Z.pos (digits2_pos p) + 0 - 53 - 0) as [|k|k] eqn:Hk.
  - destruct (binary_round_aux_finite p 0) as (m & e & Hr & He); try lia.
    exists m, e. split; [exact Hr | lia].
  - destruct (binary_round_aux_finite p 0) as (m & e & Hr & He); try lia.
    exists m, e. split; [exact Hr | lia].
  - destruct (binary_round_aux_finite (Pos.iter xO p k)
                (Z.pos (digits2_pos p) + 0 - 53)) as (m & e & Hr & He);
      rewrite ?digits2_iter_xO, ?Pos2Z.inj_add; try lia.
    exists m, e. split; [exact Hr | lia].
Qed.

Lemma f64_lt_100_small (n : nat) :
  (n < 128)%nat ->
  f64_lt (float64_of_uint64 (Z.of_nat n)) f64_100 = (Z.of_nat n <? 100).
Proof.
  intros Hn.
  assert (Hall : forallb
            (fun n => Bool.eqb (f64_lt (float64_of_uint64 (Z.of_nat n)) f64_100)
                        (Z.of_nat n <? 100))
            (seq 0 128) = true) by (vm_compute; reflexivity).
  rewrite forallb_forall in Hall.
  apply Bool.eqb_prop. apply Hall. apply in_seq. lia.
Qed.

(** [float64(q) < 100] holds exactly when [q < 100], for every [uint64]
    value [q]. *)
Lemma f64_lt_100 (q : Z) :
  0 <= q < 2 ^ 64 ->
  f64_lt (float64_of_uint64 q) f64_100 = (q <? 100).
Proof.
  intros Hq. destruct (Z.lt_ge_cases q 128) as [Hsmall | Hbig].
  - rewrite <- (Z2Nat.id q) by lia. apply f64_lt_100_small. lia.
  - destruct q as [|p|p]; try lia.
    pose proof (digits2_bounds p) as [Hlo Hhi].
    destruct (float64_of_uint64_finite p) as (m & e & -> & He).
    { split.
      - assert (7 < Z.pos (digits2_pos p)); [|lia].
        apply (Z.pow_lt_mono_r_iff 2); [lia | lia |]. change (2 ^ 7) with 128. lia.
      - assert (Z.pos (digits2_pos p) - 1 < 64); [|lia].
        apply (Z.pow_lt_mono_r_iff 2); lia. }
    change f64_100 with (S754_finite false 7036874417766400 (-46)).
    unfold f64_lt, SFltb, SFcompare.
    destruct (Z.compare_spec e (-46)) as [Heq | Hlt | Hgt]; lia.
Qed.


(** ** Pairs *)

Lemma SetNext_pointer (p : pair) (pp : option pair) :
  SetNext p (PairPtr pp) = (store_next p pp, None).
Proof. reflexivity. Qed.

Lemma SetNext_foreign (p : pair) (tyname : string) :
  SetNext p (PairForeign tyname)
  = (p, Some (newIllegalPairTypeError (PairForeign tyname : Pair))).
Proof. reflexivity. Qed.

(** C9.  For every pair [p], [p.SetNext(nil)] stores a none link, so that
    a following [p.Next()] returns nil, and still returns an
    [IllegalPairTypeError]; when [p] had a successor the link has
    therefore changed although an error is reported. *)
Theorem SetNext_nil_stores_and_fails (p : pair) :
  let (p', err) := SetNext p PairNil in
  pair_next p' = None
  /\ Next p' = PairNil
  /\ err = Some (IllegalPairTypeError "concurrency map: illegal pair type: <nil>")
  /\ Key p' = Key p /\ Hash p' = Hash p /\ Element p' = Element p
  /\ (pair_next p <> None -> pair_next p' <> pair_next p).
Proof.
  destruct p as [k h e n]; cbn.
  repeat split; try reflexivity.
  intros Hn Heq. apply Hn. symmetry. exact Heq.
Qed.

(** ** Shard routing *)

Lemma wrap32_zero : wrap32 0 = 0.
Proof. reflexivity. Qed.

Lemma findSegment_zero (cmap : myConcurrentMap) (keyHash : Z) :
  findSegment cmap keyHash = 0.
Proof.
  unfold findSegment.
  destruct (concurrency cmap =? 1); [reflexivity|].
  destruct (keyHash >? MaxUint32); reflexivity.
Qed.

(** C1.  Whatever the concurrency and the hash of the key,
    [findSegment] returns the segment at index 0: the index is computed
    from the zero value of the local [keyHash32], not from [keyHash]. *)
Theorem findSegment_always_first (cmap : myConcurrentMap) (keyHash : Z) :
  findSegment cmap keyHash = 0.
Proof. apply findSegment_zero. Qed.

(** ** Illegal parameters *)

(** C8.  For every map and key, [Put] with a nil element returns
    [false] and an [IllegalParameterError] at once and returns the map
    as it was: segments and total are the same. *)
Theorem cmap_Put_nil_element (cmap : myConcurrentMap) (key : string) :
  cmap_Put cmap key None
  = Done (cmap,
          (false,
           Some (IllegalParameterError
                   "concurrency map: illegal parameter: element is nil"))).
Proof. reflexivity. Qed.

(** ** The default policy *)

Lemma pr_CheckBucketStatus_cases (pr : myPairRedistributor) (pairTotal bucketSize : Z) :
  snd (pr_CheckBucketStatus pr pairTotal bucketSize) = Done BUCKET_STATUS_OVERWEIGHT
  \/ snd (pr_CheckBucketStatus pr pairTotal bucketSize) = Done BUCKET_STATUS_NORMAL.
Proof.
  unfold pr_CheckBucketStatus.
  destruct (_ || _); [left; reflexivity|].
  destruct (bucketSize =? 0); right; reflexivity.
Qed.

Lemma rehash_done (newNumber : Z) (pairs : list pair) :
  forall bs : list Bucket,
    0 < newNumber -> Z.of_nat (length bs) = newNumber ->
    exists bs', rehash newNumber pairs bs = Done bs' /\ length bs' = length bs.
Proof.
  induction pairs as [|p rest IH]; intros bs Hpos Hlen; cbn [rehash].
  - exists bs. split; reflexivity.
  - replace (newNumber =? 0) with false by (symmetry; apply Z.eqb_neq; lia).
    assert (Hi : (Z.to_nat (Hash p mod newNumber) < length bs)%nat).
    { pose proof (Z.mod_pos_bound (Hash p) newNumber Hpos). lia. }
    destruct (lookup_lt_is_Some_2 bs _ Hi) as [b Hb]. rewrite Hb.
    destruct (IH (<[Z.to_nat (Hash p mod newNumber) := fst (bucket_Put b p)]> bs))
      as (bs' & Hr & Hl); [lia | rewrite length_insert; lia |].
    exists bs'. split; [exact Hr|]. rewrite Hl. apply length_insert.
Qed.

Lemma resize_target_gate (pr : myPairRedistributor) (st : BucketStatus) (n : Z) :
  hysteresis_satisfied pr st n
  = match resize_target pr st n with Some _ => true | None => false end.
Proof.
  unfold hysteresis_satisfied, resize_target,
    BUCKET_STATUS_OVERWEIGHT, BUCKET_STATUS_UNDERWEIGHT.
  destruct (st =? 2) eqn:E2.
  - apply Z.eqb_eq in E2; subst st. cbn.
    destruct (Z.ltb_spec (wrap64 (overweightBucketCount pr * 4)) n);
      destruct (Z.leb_spec n (wrap64 (overweightBucketCount pr * 4)));
      try reflexivity; lia.
  - destruct (st =? 1) eqn:E1; [|reflexivity]. cbn.
    destruct (Z.ltb_spec n 100); destruct (Z.leb_spec 100 n); try lia; cbn;
      [reflexivity|].
    destruct (Z.ltb_spec (wrap64 (emptyBucketCount pr * 4)) n);
      destruct (Z.leb_spec n (wrap64 (emptyBucketCount pr * 4)));
      try reflexivity; lia.
Qed.

(** Cleared buckets followed by new ones are all new buckets. *)
Lemma cleared_grown (bs : list Bucket) (newNumber : Z) :
  Z.of_nat (length bs) <= newNumber ->
  map bucket_Clear bs
  ++ replicate (Z.to_nat (newNumber - Z.of_nat (length bs))) newBucket
  = replicate (Z.to_nat newNumber) newBucket.
Proof.
  intros Hle.
  replace (Z.to_nat newNumber)
    with (length bs + Z.to_nat (newNumber - Z.of_nat (length bs)))%nat by lia.
  rewrite replicate_add. f_equal.
  clear Hle. induction bs as [|b bs IH]; [reflexivity|].
  cbn. rewrite IH. reflexivity.
Qed.

(** Outcome of [Redistribe] on a slice of [n] buckets, [n] within the
    range of a Go slice length. *)
Lemma pr_Redistribe_outcome (pr : myPairRedistributor) (st : BucketStatus)
    (bs : list Bucket) :
  Z.of_nat (length bs) <= MaxInt ->
  match resize_target pr st (Z.of_nat (length bs)) with
  | None => pr_Redistribe pr st bs = ((pr, bs), Done ([], false))
  | Some newNumber =>
      if newNumber =? Z.of_nat (length bs)
      then pr_Redistribe pr st bs = ((store_counts pr 0 0, bs), Done ([], false))
      else exists inplace filled,
          pr_Redistribe pr st bs
          = ((store_counts pr 0 0, inplace), Done (filled, true))
          /\ rehash newNumber (concat (map bucket_nodes bs))
               (replicate (Z.to_nat newNumber) newBucket) = Done filled
          /\ Z.of_nat (length filled) = newNumber
  end.
Proof.
  intros Hmax. unfold pr_Redistribe.
  destruct (resize_target pr st (Z.of_nat (length bs))) as [newNumber|] eqn:Ht;
    [|reflexivity].
  destruct (newNumber =? Z.of_nat (length bs)) eqn:Heq; [reflexivity|].
  apply Z.eqb_neq in Heq.
  assert (Hnn : 0 < newNumber).
  { unfold resize_target, MaxInt in *.
    destruct (st =? BUCKET_STATUS_OVERWEIGHT).
    - destruct (_ <? _); [discriminate|]. injection Ht as <-.
      rewrite Z.shiftl_mul_pow2 in * by lia. unfold wrap64 in *.
      rewrite Z.mod_small in * by lia. lia.
    - destruct (st =? BUCKET_STATUS_UNDERWEIGHT); [|discriminate].
      destruct (_ || _); [discriminate|]. injection Ht as <-.
      destruct (Z.ltb_spec (Z.shiftr (Z.of_nat (length bs)) 1) 2); lia. }
  destruct (rehash_done newNumber (concat (map bucket_nodes bs))
              (replicate (Z.to_nat newNumber) newBucket) Hnn)
    as (filled & Hr & Hl).
  { rewrite length_replicate. lia. }
  rewrite length_replicate in Hl.
  destruct (Z.gtb_spec newNumber (Z.of_nat (length bs))) as [Hgt|Hle].
  - rewrite (cleared_grown bs newNumber) by lia.
    rewrite Hr. eexists _, filled. split; [reflexivity|].
    split; [reflexivity | lia].
  - rewrite Hr. eexists _, filled. split; [reflexivity|].
    split; [reflexivity | lia].
Qed.

Lemma wrap64_le (z : Z) : 0 <= z -> wrap64 z <= z.
Proof. intros Hz. unfold wrap64. apply Z.mod_le; lia. Qed.

Lemma resize_target_overweight (pr : myPairRedistributor) (n newNumber : Z) :
  0 <= n <= MaxInt ->
  resize_target pr BUCKET_STATUS_OVERWEIGHT n = Some newNumber ->
  n <= wrap64 (overweightBucketCount pr * 4) /\ newNumber = 2 * n.
Proof.
  unfold resize_target, MaxInt. cbn. intros Hn.
  destruct (Z.ltb_spec (wrap64 (overweightBucketCount pr * 4)) n); [discriminate|].
  intros [= <-]. split; [assumption|].
  rewrite Z.shiftl_mul_pow2 by lia. unfold wrap64.
  rewrite Z.mod_small; lia.
Qed.

Lemma resize_target_underweight (pr : myPairRedistributor) (n newNumber : Z) :
  resize_target pr BUCKET_STATUS_UNDERWEIGHT n = Some newNumber ->
  100 <= n /\ n <= wrap64 (emptyBucketCount pr * 4)
  /\ newNumber = Z.max (n / 2) 2.
Proof.
  unfold resize_target. cbn.
  destruct (Z.ltb_spec n 100); [discriminate|]. cbn.
  destruct (Z.ltb_spec (wrap64 (emptyBucketCount pr * 4)) n); [discriminate|].
  intros [= <-]. rewrite Z.shiftr_div_pow2 by lia. change (2 ^ 1) with 2.
  repeat split; try assumption.
  destruct (Z.ltb_spec (n / 2) 2); lia.
Qed.

Lemma resize_target_status (pr : myPairRedistributor) (st : BucketStatus)
    (n newNumber : Z) :
  resize_target pr st n = Some newNumber ->
  st = BUCKET_STATUS_OVERWEIGHT \/ st = BUCKET_STATUS_UNDERWEIGHT.
Proof.
  unfold resize_target.
  destruct (Z.eqb_spec st BUCKET_STATUS_OVERWEIGHT); [left; assumption|].
  destruct (Z.eqb_spec st BUCKET_STATUS_UNDERWEIGHT); [right; assumption|].
  discriminate.
Qed.

(** C5, as the code has it.  A call of [Redistribe] that passes the
    hysteresis gate leaves both counters at zero, whether or not the
    bucket array is resized; a call that returns at the gate, or for a
    status that is neither overweight nor underweight, leaves both
    counters as they were. *)
Theorem Redistribe_counters (pr : myPairRedistributor) (st : BucketStatus)
    (bs : list Bucket) :
  Z.of_nat (length bs) <= MaxInt ->
  let pr' := fst (fst (pr_Redistribe pr st bs)) in
  if hysteresis_satisfied pr st (Z.of_nat (length bs))
  then overweightBucketCount pr' = 0 /\ emptyBucketCount pr' = 0
  else overweightBucketCount pr' = overweightBucketCount pr
       /\ emptyBucketCount pr' = emptyBucketCount pr.
Proof.
  intros Hmax. pose proof (pr_Redistribe_outcome pr st bs Hmax) as Ho.
  rewrite resize_target_gate.
  destruct (resize_target pr st (Z.of_nat (length bs))) as [newNumber|].
  - destruct (newNumber =? Z.of_nat (length bs)).
    + rewrite Ho. cbn. split; reflexivity.
    + destruct Ho as (inplace & filled & -> & _). cbn. split; reflexivity.
  - rewrite Ho. cbn. split; reflexivity.
Qed.

(** C6.  [Redistribe] reports a change only where the hysteresis holds:
    on overweight status only if [overweightBucketCount * 4 >=
    currentNumber], and the bucket number is then doubled; on
    underweight status only if [currentNumber >= 100] and
    [emptyBucketCount * 4 >= currentNumber], and the bucket number is
    then halved, with a floor of 2; in every other case it returns
    [nil, false] and leaves the buckets alone. *)
Theorem Redistribe_hysteresis (pr : myPairRedistributor) (st : BucketStatus)
    (bs : list Bucket) :
  Z.of_nat (length bs) <= MaxInt ->
  0 <= overweightBucketCount pr -> 0 <= emptyBucketCount pr ->
  let n := Z.of_nat (length bs) in
  exists pr' inplace newBuckets changed,
    pr_Redistribe pr st bs = ((pr', inplace), Done (newBuckets, changed))
    /\ (changed = true ->
        (st = BUCKET_STATUS_OVERWEIGHT
         /\ overweightBucketCount pr * 4 >= n
         /\ Z.of_nat (length newBuckets) = 2 * n)
        \/ (st = BUCKET_STATUS_UNDERWEIGHT
            /\ n >= 100
            /\ emptyBucketCount pr * 4 >= n
            /\ Z.of_nat (length newBuckets) = Z.max (n / 2) 2))
    /\ (changed = false -> newBuckets = [] /\ inplace = bs).
Proof.
  intros Hmax Ho He n. pose proof (pr_Redistribe_outcome pr st bs Hmax) as Hout.
  fold n in Hout.
  destruct (resize_target pr st n) as [newNumber|] eqn:Ht.
  - destruct (newNumber =? n).
    + eexists _, _, _, _. split; [exact Hout|]. split; [discriminate|].
      intros _. split; reflexivity.
    + destruct Hout as (inplace & filled & Hr & _ & Hl).
      eexists _, _, _, _. split; [exact Hr|]. split; [|discriminate].
      intros _. destruct (resize_target_status _ _ _ _ Ht) as [-> | ->].
      * left. apply resize_target_overweight in Ht; [|unfold n; lia].
        destruct Ht as [Hg ->].
        pose proof (wrap64_le (overweightBucketCount pr * 4)). lia.
      * right. apply resize_target_underweight in Ht.
        destruct Ht as (H100 & Hg & ->).
        pose proof (wrap64_le (emptyBucketCount pr * 4)). lia.
  - eexists _, _, _, _. split; [exact Hout|]. split; [discriminate|].
    intros _. split; reflexivity.
Qed.

(** The gate also suffices: with overweight status, a non-empty slice
    and the overweight count at a quarter of the bucket number,
    [Redistribe] doubles the buckets. *)
Lemma Redistribe_grows (pr : myPairRedistributor) (bs : list Bucket) :
  0 < Z.of_nat (length bs) <= MaxInt ->
  Z.of_nat (length bs) <= wrap64 (overweightBucketCount pr * 4) ->
  exists inplace newBuckets,
    pr_Redistribe pr BUCKET_STATUS_OVERWEIGHT bs
    = ((store_counts pr 0 0, inplace), Done (newBuckets, true))
    /\ Z.of_nat (length newBuckets) = 2 * Z.of_nat (length bs).
Proof.
  intros Hn Hg.
  pose proof (pr_Redistribe_outcome pr BUCKET_STATUS_OVERWEIGHT bs (proj2 Hn)) as Hout.
  destruct (resize_target pr BUCKET_STATUS_OVERWEIGHT (Z.of_nat (length bs)))
    as [newNumber|] eqn:Ht.
  - apply resize_target_overweight in Ht; [|lia]. destruct Ht as [_ ->].
    destruct (Z.eqb_spec (2 * Z.of_nat (length bs)) (Z.of_nat (length bs))); [lia|].
    destruct Hout as (inplace & filled & Hr & _ & Hl).
    exists inplace, filled. split; assumption.
  - pose proof (resize_target_gate pr BUCKET_STATUS_OVERWEIGHT (Z.of_nat (length bs))) as Hgate.
    rewrite Ht in Hgate. unfold hysteresis_satisfied in Hgate. cbn in Hgate.
    destruct (Z.leb_spec (Z.of_nat (length bs)) (wrap64 (overweightBucketCount pr * 4)));
      [discriminate | lia].
Qed.

(** ** Redistribution in a segment with the default policy *)

Lemma pr_CheckBucketStatus_counts (pr : myPairRedistributor) (t z : Z) :
  0 <= overweightBucketCount pr ->
  exists pr' st,
    pr_CheckBucketStatus pr t z = (pr', Done st)
    /\ (st = BUCKET_STATUS_OVERWEIGHT \/ st = BUCKET_STATUS_NORMAL)
    /\ 0 <= overweightBucketCount pr' <= overweightBucketCount pr + 1.
Proof.
  intros Ho. unfold pr_CheckBucketStatus.
  destruct (_ || _).
  - eexists _, _. split; [reflexivity|]. split; [left; reflexivity|]. cbn.
    pose proof (wrap64_le (overweightBucketCount pr + 1)).
    unfold wrap64 in *.
    pose proof (Z.mod_pos_bound (overweightBucketCount pr + 1) (2 ^ 64)). lia.
  - destruct (z =? 0); eexists _, _; (split; [reflexivity|]);
      (split; [right; reflexivity|]); cbn; lia.
Qed.

Lemma pr_UpdateThreshold_counts (pr : myPairRedistributor) (t n : Z) :
  wrap64 n <> 0 ->
  exists pr',
    pr_UpdateThreshold pr t n = (pr', Done tt)
    /\ overweightBucketCount pr' = overweightBucketCount pr
    /\ emptyBucketCount pr' = emptyBucketCount pr
    /\ loadFactor pr' = loadFactor pr.
Proof.
  intros Hn. unfold pr_UpdateThreshold.
  destruct (Z.eqb_spec (wrap64 n) 0); [contradiction|].
  eexists. split; [reflexivity|]. cbn. repeat split; reflexivity.
Qed.

Lemma shape_wrap64 {PR : Type} (s : segment PR) :
  segment_shape s -> wrap64 (bucketsLen s) = bucketsLen s.
Proof.
  intros [_ Hb]. unfold wrap64, MaxInt in *. apply Z.mod_small. lia.
Qed.

(** With the default policy a redistribution check reports no error and
    either keeps the buckets or replaces them by twice as many, filled
    with every pair of the segment. *)
Lemma segment_redistribute_default (s : segment policy)
    (pr : myPairRedistributor) (t z : Z) :
  segment_shape s -> pairRedistributor s = Default pr ->
  0 <= overweightBucketCount pr ->
  exists pr',
    0 <= overweightBucketCount pr' <= overweightBucketCount pr + 1
    /\ (segment_redistribute s t z
        = (mkSegment (buckets s) (bucketsLen s) (pairTotal s) (Default pr'), None)
        \/ exists filled,
            rehash (2 * bucketsLen s) (concat (map bucket_nodes (buckets s)))
              (replicate (Z.to_nat (2 * bucketsLen s)) newBucket) = Done filled
            /\ Z.of_nat (length filled) = 2 * bucketsLen s
            /\ bucketsLen s <= 4 * (overweightBucketCount pr + 1)
            /\ overweightBucketCount pr' = 0
            /\ segment_redistribute s t z
               = (mkSegment filled (2 * bucketsLen s) (pairTotal s) (Default pr'),
                  None)).
Proof.
  intros Hshape Hpol Ho. pose proof Hshape as [Hlen Hb].
  unfold segment_redistribute. rewrite Hpol. cbn [UpdateThreshold policy_methods].
  destruct (pr_UpdateThreshold_counts pr t (bucketsLen s)) as (pr1 & -> & Ho1 & _).
  { rewrite shape_wrap64 by assumption. lia. }
  cbn [CheckBucketStatus policy_methods].
  destruct (pr_CheckBucketStatus_counts pr1 t z) as (pr2 & st & -> & Hst & Ho2);
    [lia|].
  cbn [Redistribe policy_methods].
  pose proof (pr_Redistribe_outcome pr2 st (buckets s)) as Hout.
  rewrite <- Hlen in Hout. specialize (Hout (proj2 Hb)).
  destruct (resize_target pr2 st (bucketsLen s)) as [newNumber|] eqn:Ht.
  - destruct Hst as [-> | ->]; [|discriminate].
    apply resize_target_overweight in Ht; [|lia]. destruct Ht as [Hg ->].
    destruct (Z.eqb_spec (2 * bucketsLen s) (bucketsLen s)); [lia|].
    destruct Hout as (inplace & filled & -> & Hr & Hl).
    exists (store_counts pr2 0 0). split; [cbn; lia|]. right.
    exists filled. split; [exact Hr|]. split; [exact Hl|].
    split.
    { pose proof (wrap64_le (overweightBucketCount pr2 * 4)). lia. }
    split; [reflexivity|]. rewrite Hl. reflexivity.
  - rewrite Hout. exists pr2. split; [lia|]. left. reflexivity.
Qed.

Lemma bucket_index_shape {PR : Type} (s : segment PR) (h : Z) :
  segment_shape s ->
  exists b,
    bucket_index s h = Done (Z.to_nat (h mod bucketsLen s))
    /\ buckets s !! Z.to_nat (h mod bucketsLen s) = Some b.
Proof.
  intros Hshape. pose proof Hshape as [Hlen Hb].
  unfold bucket_index. rewrite shape_wrap64 by assumption.
  destruct (Z.eqb_spec (bucketsLen s) 0); [lia|].
  assert (Hi : (Z.to_nat (h mod bucketsLen s) < length (buckets s))%nat).
  { pose proof (Z.mod_pos_bound h (bucketsLen s)). lia. }
  destruct (lookup_lt_is_Some_2 _ _ Hi) as [b Hlook].
  exists b. split; [reflexivity | exact Hlook].
Qed.

(** One operation on a segment with the default policy: it returns, the
    bucket number stays or doubles, and it doubles only when it is at
    most four times the overweight count. *)
Lemma segment_apply_default (s : segment policy) (op : segment_op)
    (pr : myPairRedistributor) :
  segment_shape s -> pairRedistributor s = Default pr ->
  0 <= overweightBucketCount pr ->
  exists s' pr',
    segment_apply s op = Done s'
    /\ pairRedistributor s' = Default pr'
    /\ bucketsLen s' = Z.of_nat (length (buckets s'))
    /\ 0 <= overweightBucketCount pr' <= overweightBucketCount pr + 1
    /\ (bucketsLen s' = bucketsLen s
        \/ bucketsLen s' = 2 * bucketsLen s
           /\ bucketsLen s <= 4 * (overweightBucketCount pr + 1)).
Proof.
  intros Hshape Hpol Ho. pose proof Hshape as [Hlen Hb].
  assert (Hstep : forall (i : nat) (b' : Bucket) (t z : Z),
    exists s' pr',
      fst (segment_redistribute
             (mkSegment (<[i := b']> (buckets s)) (bucketsLen s) t
                (pairRedistributor s)) t z) = s'
      /\ pairRedistributor s' = Default pr'
      /\ bucketsLen s' = Z.of_nat (length (buckets s'))
      /\ 0 <= overweightBucketCount pr' <= overweightBucketCount pr + 1
      /\ (bucketsLen s' = bucketsLen s
          \/ bucketsLen s' = 2 * bucketsLen s
             /\ bucketsLen s <= 4 * (overweightBucketCount pr + 1))).
  { intros i b' t z.
    destruct (segment_redistribute_default
                (mkSegment (<[i := b']> (buckets s)) (bucketsLen s) t
                   (pairRedistributor s)) pr t z) as (pr' & Ho' & Hcase).
    - split; cbn; [rewrite length_insert; exact Hlen | exact Hb].
    - exact Hpol.
    - exact Ho.
    - destruct Hcase as [-> | (filled & _ & Hl & Hg & _ & ->)]; cbn in *.
      + eexists _, pr'. split; [reflexivity|]. cbn.
        rewrite length_insert. repeat split; lia.
      + eexists _, pr'. split; [reflexivity|]. cbn.
        repeat split; lia. }
  destruct op as [p | key]; cbn [segment_apply].
  - unfold segment_Put.
    destruct (bucket_index_shape s (Hash p) Hshape) as (b & -> & Hlook).
    cbn [mbind panicking_bind]. rewrite Hlook.
    destruct (bucket_Put b p) as [b' [ok err]]. destruct ok.
    + cbn [pairTotal buckets bucketsLen pairRedistributor].
      destruct (Hstep (Z.to_nat (Hash p mod bucketsLen s)) b'
                  (wrap64 (pairTotal s + 1)) (bucket_Size b'))
        as (s' & pr' & Hs' & Hrest).
      destruct (segment_redistribute _ _ _) as [s3 e]. cbn in Hs'. subst s3.
      exists s', pr'. split; [reflexivity | exact Hrest].
    + eexists _, pr. split; [reflexivity|]. cbn.
      rewrite length_insert. repeat split; first [assumption | lia].
  - unfold segment_Delete.
    destruct (bucket_index_shape s (hash key) Hshape) as (b & -> & Hlook).
    cbn [mbind panicking_bind]. rewrite Hlook.
    destruct (bucket_Delete b key) as [b' ok]. destruct ok.
    + cbn [pairTotal buckets bucketsLen pairRedistributor].
      destruct (Hstep (Z.to_nat (hash key mod bucketsLen s)) b'
                  (wrap64 (pairTotal s + (2 ^ 64 - 1))) (bucket_Size b'))
        as (s' & pr' & Hs' & Hrest).
      destruct (segment_redistribute _ _ _) as [s3 e]. cbn in Hs'. subst s3.
      exists s', pr'. split; [reflexivity | exact Hrest].
    + eexists _, pr. split; [reflexivity|]. cbn.
      rewrite length_insert. repeat split; first [assumption | lia].
Qed.

Lemma segment_run_default (ops : list segment_op) :
  forall (s : segment policy) (pr : myPairRedistributor) (B : Z),
    segment_shape s -> pairRedistributor s = Default pr ->
    0 <= overweightBucketCount pr ->
    overweightBucketCount pr + Z.of_nat (length ops) <= B ->
    8 * B <= MaxInt ->
    exists s',
      segment_run s ops = Done s'
      /\ segment_shape s'
      /\ bucketsLen s <= bucketsLen s'.
Proof.
  induction ops as [|op rest IH]; intros s pr B Hshape Hpol Ho HB HM.
  - exists s. split; [reflexivity|]. split; [assumption | lia].
  - cbn [segment_run].
    destruct (segment_apply_default s op pr Hshape Hpol Ho)
      as (s1 & pr1 & -> & Hpol1 & Hlen1 & Ho1 & Hcase).
    cbn [mbind panicking_bind]. cbn [length] in HB.
    destruct Hshape as [Hlen Hb].
    destruct (IH s1 pr1 B) as (s' & Hrun & Hshape' & Hle); try assumption; try lia.
    { split; [exact Hlen1|]. destruct Hcase as [-> | [-> Hg]]; lia. }
    exists s'. split; [exact Hrun|]. split; [exact Hshape'|].
    destruct Hcase as [Heq | [Heq _]]; lia.
Qed.

(** C10.  [CheckBucketStatus] of the default policy never returns the
    underweight status; hence, in a segment that uses the default
    policy, every run of [Put] and [Delete] calls returns and leaves at
    least as many buckets as there were.  The run is bounded so that
    the bucket number stays a legal slice length. *)
Theorem bucket_number_never_decreases :
  (forall (pr : myPairRedistributor) (pairTotal bucketSize : Z),
      snd (pr_CheckBucketStatus pr pairTotal bucketSize)
      <> Done BUCKET_STATUS_UNDERWEIGHT)
  /\ (forall (s : segment policy) (pr : myPairRedistributor)
             (ops : list segment_op),
         segment_shape s -> pairRedistributor s = Default pr ->
         0 <= overweightBucketCount pr ->
         8 * (overweightBucketCount pr + Z.of_nat (length ops)) <= MaxInt ->
         exists s',
           segment_run s ops = Done s'
           /\ bucketsLen s' = Z.of_nat (length (buckets s'))
           /\ Z.of_nat (length (buckets s)) <= Z.of_nat (length (buckets s'))).
Proof.
  split.
  - intros pr t z.
    destruct (pr_CheckBucketStatus_cases pr t z) as [-> | ->]; discriminate.
  - intros s pr ops Hshape Hpol Ho HB.
    destruct (segment_run_default ops s pr
                (overweightBucketCount pr + Z.of_nat (length ops)))
      as (s' & Hrun & [Hlen' _] & Hle); try assumption; try lia.
    exists s'. split; [exact Hrun|]. split; [exact Hlen'|].
    destruct Hshape as [Hlen _]. lia.
Qed.

(** ** Failures of the policy *)

Lemma recovered_kind (v : panic_value) :
  exists msg, recovered v = PairRedistributorError msg.
Proof. destruct v; eexists; reflexivity. Qed.

(** Whatever the policy, an error that [redistribute] returns is a
    [PairRedistributorError], and a panic of the policy never leaves
    [redistribute]: the function is total. *)
Lemma segment_redistribute_error {PR : Type} `{PairRedistributor V PR}
    (s : segment PR) (t z : Z) (e : error) :
  snd (segment_redistribute s t z) = Some e ->
  exists msg, e = PairRedistributorError msg.
Proof.
  unfold segment_redistribute.
  destruct (UpdateThreshold _ _ _) as [pol1 [[]|v1]].
  - destruct (CheckBucketStatus _ _ _) as [pol2 [st|v2]].
    + destruct (Redistribe _ _ _) as [[pol3 inplace] [[newBuckets change]|v3]].
      * destruct change; discriminate.
      * cbn. intros [= <-]. apply recovered_kind.
    + cbn. intros [= <-]. apply recovered_kind.
  - cbn. intros [= <-]. apply recovered_kind.
Qed.

(** What [redistribute] returns as its error, by the calls of the
    policy: the first of [UpdateThreshold], [CheckBucketStatus] and
    [Redistribe] that panics has its panic value recovered and turned
    into the error; if none of them panics the error is nil. *)
Lemma segment_redistribute_fault {PR : Type} `{PairRedistributor V PR}
    (s : segment PR) (t z : Z) :
  match UpdateThreshold (pairRedistributor s) t (bucketsLen s) with
  | (_, Panic v) => snd (segment_redistribute s t z) = Some (recovered v)
  | (pol1, Done _) =>
      match CheckBucketStatus pol1 t z with
      | (_, Panic v) => snd (segment_redistribute s t z) = Some (recovered v)
      | (pol2, Done bucketStatus) =>
          match Redistribe pol2 bucketStatus (buckets s) with
          | (_, Panic v) =>
              snd (segment_redistribute s t z) = Some (recovered v)
          | (_, Done _) => snd (segment_redistribute s t z) = None
          end
      end
  end.
Proof.
  unfold segment_redistribute.
  destruct (UpdateThreshold _ _ _) as [pol1 [[]|v1]]; [|reflexivity].
  destruct (CheckBucketStatus _ _ _) as [pol2 [st|v2]]; [|reflexivity].
  destruct (Redistribe _ _ _) as [[pol3 inplace] [[newBuckets change]|v3]];
    [|reflexivity].
  destruct change; reflexivity.
Qed.

(** C2, as the code has it.  With any policy, [Put] and [Delete] on a
    segment of regular shape return, and what they return is exactly
    the result of the bucket's own [Put] or [Delete], also when the
    policy panics during the redistribution check.  The panic is
    recovered in [redistribute] and turned into a
    [PairRedistributorError] there: whichever of the three calls of the
    policy panics first, [redistribute] returns the error made of its
    panic value, with the text of that value after the prefix of the
    error; it returns nil if none panics, and no other error ever.
    That error is not among the results of [Put] and [Delete]. *)
Theorem segment_mutation_result {PR : Type} `{PairRedistributor V PR}
    (s : segment PR) :
  segment_shape s ->
  (forall p : pair,
      exists b s',
        buckets s !! Z.to_nat (Hash p mod bucketsLen s) = Some b
        /\ segment_Put s p = Done (s', snd (bucket_Put b p)))
  /\ (forall key : string,
        exists b s',
          buckets s !! Z.to_nat (hash key mod bucketsLen s) = Some b
          /\ segment_Delete s key = Done (s', snd (bucket_Delete b key)))
  /\ (forall (t z : Z) (e : error),
        snd (segment_redistribute s t z) = Some e ->
        exists msg, e = PairRedistributorError msg)
  /\ (forall t z : Z,
        match UpdateThreshold (pairRedistributor s) t (bucketsLen s) with
        | (_, Panic v) => snd (segment_redistribute s t z) = Some (recovered v)
        | (pol1, Done _) =>
            match CheckBucketStatus pol1 t z with
            | (_, Panic v) =>
                snd (segment_redistribute s t z) = Some (recovered v)
            | (pol2, Done bucketStatus) =>
                match Redistribe pol2 bucketStatus (buckets s) with
                | (_, Panic v) =>
                    snd (segment_redistribute s t z) = Some (recovered v)
                | (_, Done _) => snd (segment_redistribute s t z) = None
                end
            end
        end)
  /\ (forall v : panic_value,
        recovered v
        = PairRedistributorError
            ("concurrency map: failing pair redistribution: "
             +:+ match v with PanicError msg | PanicOther msg => msg end)).
Proof.
  intros Hshape. split; [|split; [|split; [|split]]];
    [| | | apply segment_redistribute_fault
         | intros v; destruct v; reflexivity].
  - intros p. unfold segment_Put.
    destruct (bucket_index_shape s (Hash p) Hshape) as (b & -> & Hlook).
    cbn [mbind panicking_bind]. rewrite Hlook. exists b.
    destruct (bucket_Put b p) as [b' [ok err]]. destruct ok.
    + destruct (segment_redistribute _ _ _) as [s3 e].
      exists s3. split; reflexivity.
    + eexists. split; reflexivity.
  - intros key. unfold segment_Delete.
    destruct (bucket_index_shape s (hash key) Hshape) as (b & -> & Hlook).
    cbn [mbind panicking_bind]. rewrite Hlook. exists b.
    destruct (bucket_Delete b key) as [b' ok]. destruct ok.
    + destruct (segment_redistribute _ _ _) as [s3 e].
      exists s3. split; reflexivity.
    + eexists. split; reflexivity.
  - intros t z e. apply segment_redistribute_error.
Qed.

(** ** Buckets as lists of entries *)

Lemma chain_find_entries (key : string) (p : pair) :
  detach <$> chain_find key p = find (has_key key) (chain_entries p).
Proof.
  induction p as [k h e | k h e q IH] using pair_chain_ind;
    cbn [chain_find chain_entries find]; unfold has_key at 1; cbn [Key pair_key];
    destruct (String.eqb k key); try reflexivity.
  exact IH.
Qed.

Lemma bucket_Get_entries (b : Bucket) (key : string) :
  detach <$> bucket_Get b key = find (has_key key) (bucket_entries b).
Proof.
  unfold bucket_Get, bucket_entries. destruct (head b) as [p|]; [|reflexivity].
  apply chain_find_entries.
Qed.

Lemma chain_setValue_entries (key : string) (v : V) (p : pair) :
  chain_entries (chain_setValue key (Some v) p)
  = set_first key v (chain_entries p).
Proof.
  induction p as [k h e | k h e q IH] using pair_chain_ind;
    cbn [chain_setValue chain_entries set_first]; unfold has_key at 1;
    cbn [Key pair_key]; destruct (String.eqb k key); try reflexivity.
  cbn [chain_entries]. rewrite IH. reflexivity.
Qed.

Lemma chain_remove_entries (key : string) (p : pair) :
  match chain_remove key p with
  | Some q => chain_entries q
  | None => []
  end = remove_first key (chain_entries p).
Proof.
  induction p as [k h e | k h e q IH] using pair_chain_ind;
    cbn [chain_remove chain_entries remove_first]; unfold has_key at 1;
    cbn [Key pair_key]; destruct (String.eqb k key); try reflexivity.
  cbn [chain_entries]. rewrite IH. reflexivity.
Qed.

Lemma chain_length_entries (p : pair) :
  chain_length p = length (chain_entries p).
Proof.
  induction p as [k h e | k h e q IH] using pair_chain_ind;
    cbn [chain_length chain_entries length]; [reflexivity|].
  rewrite IH. reflexivity.
Qed.

Lemma chain_nodes_entries (p : pair) :
  map detach (chain_nodes p) = chain_entries p.
Proof.
  induction p as [k h e | k h e q IH] using pair_chain_ind;
    cbn [chain_nodes chain_entries map]; [reflexivity|].
  rewrite IH. reflexivity.
Qed.

Lemma bucket_nodes_entries (b : Bucket) :
  map detach (bucket_nodes b) = bucket_entries b.
Proof.
  unfold bucket_nodes, bucket_entries, bucket_GetFirstPair.
  destruct (head b) as [p|]; [|reflexivity]. apply chain_nodes_entries.
Qed.

(** [Put] of a pair with a value, on the entries: the value of the key
    is replaced where the key is, else the pair becomes the head. *)
Lemma bucket_Put_entries (b : Bucket) (p : pair) (v : V) :
  Element p = Some v ->
  bucket_Put b p
  = (fst (bucket_Put b p),
     (match find (has_key (Key p)) (bucket_entries b) with
      | Some _ => false
      | None => true
      end, None))
  /\ bucket_entries (fst (bucket_Put b p))
     = match find (has_key (Key p)) (bucket_entries b) with
       | Some _ => set_first (Key p) v (bucket_entries b)
       | None => detach p :: bucket_entries b
       end.
Proof.
  intros He. rewrite <- bucket_Get_entries. unfold bucket_Put.
  destruct (bucket_Get b (Key p)) as [q|] eqn:Hget; cbn [fmap option_fmap option_map fst].
  - split; [reflexivity|]. unfold bucket_entries at 1. cbn [head].
    unfold bucket_Get in Hget. unfold bucket_entries.
    destruct (head b) as [c|]; [|discriminate]. cbn [option_map].
    rewrite He. apply chain_setValue_entries.
  - split; [reflexivity|]. unfold bucket_entries. cbn [head chain_entries].
    destruct p as [k h e n]. reflexivity.
Qed.

Lemma bucket_Delete_entries (b : Bucket) (key : string) :
  bucket_Delete b key
  = (fst (bucket_Delete b key),
     match find (has_key key) (bucket_entries b) with
     | Some _ => true
     | None => false
     end)
  /\ bucket_entries (fst (bucket_Delete b key))
     = remove_first key (bucket_entries b).
Proof.
  rewrite <- bucket_Get_entries. unfold bucket_Delete.
  destruct (bucket_Get b key) as [q|] eqn:Hget; cbn [fmap option_fmap option_map fst].
  - split; [reflexivity|]. unfold bucket_entries. cbn [head].
    unfold bucket_Get in Hget. destruct (head b) as [c|]; [|discriminate].
    apply chain_remove_entries.
  - split; [reflexivity|].
    pose proof (bucket_Get_entries b key) as Hget'. rewrite Hget in Hget'.
    cbn in Hget'. symmetry in Hget'. revert Hget'.
    generalize (bucket_entries b). intros l.
    induction l as [|c l IH]; cbn [find remove_first]; [reflexivity|].
    destruct (has_key key c); [discriminate|].
    intros Hf. rewrite <- IH by exact Hf. reflexivity.
Qed.

(** ** Lists of entries *)

Lemma has_key_true (key : string) (c : pair) :
  has_key key c = true <-> Key c = key.
Proof. unfold has_key. apply String.eqb_eq. Qed.

Lemma has_key_false (key : string) (c : pair) :
  has_key key c = false <-> Key c <> key.
Proof. unfold has_key. apply String.eqb_neq. Qed.

Lemma has_key_other (key key' : string) (c : pair) :
  key' <> key -> has_key key c = true -> has_key key' c = false.
Proof.
  intros Hne Hk. apply has_key_true in Hk. apply has_key_false. congruence.
Qed.

Lemma find_key_none (key : string) (l : list pair) :
  find (has_key key) l = None <-> ~ In key (map Key l).
Proof.
  induction l as [|c l IH]; cbn [find map In]; [tauto|].
  destruct (has_key key c) eqn:Hk.
  - apply has_key_true in Hk. split; [discriminate | tauto].
  - apply has_key_false in Hk. rewrite IH. tauto.
Qed.

Lemma find_key_some (key : string) (l : list pair) (c : pair) :
  find (has_key key) l = Some c -> In c l /\ Key c = key.
Proof.
  intros Hf. apply find_some in Hf. rewrite has_key_true in Hf. exact Hf.
Qed.

(** With distinct keys, membership decides what is found. *)
Lemma find_key_in (key : string) (l : list pair) (c : pair) :
  NoDup (map Key l) -> In c l -> Key c = key ->
  find (has_key key) l = Some c.
Proof.
  induction l as [|d l IH]; cbn [find map In]; intros Hnd Hin Hk; [contradiction|].
  apply NoDup_cons in Hnd as [Hd Hnd].
  destruct Hin as [-> | Hin].
  - apply has_key_true in Hk. rewrite Hk. reflexivity.
  - destruct (has_key key d) eqn:Hkd.
    + apply has_key_true in Hkd. exfalso. apply Hd.
      apply list_elem_of_In, in_map_iff. exists c. split; [congruence | exact Hin].
    + apply IH; assumption.
Qed.

Lemma set_first_keys (key : string) (v : V) (l : list pair) :
  map Key (set_first key v l) = map Key l.
Proof.
  induction l as [|c l IH]; cbn [set_first map]; [reflexivity|].
  destruct (has_key key c); cbn [map]; [reflexivity|]. rewrite IH. reflexivity.
Qed.

Lemma set_first_placed (n : Z) (j : nat) (key : string) (v : V) (l : list pair) :
  Forall (entry_placed n j) l -> Forall (entry_placed n j) (set_first key v l).
Proof.
  induction 1 as [|c l Hc Hl IH]; cbn [set_first]; [constructor|].
  destruct (has_key key c); constructor; assumption.
Qed.

Lemma find_set_first_eq (key : string) (v : V) (l : list pair) (c : pair) :
  find (has_key key) l = Some c ->
  find (has_key key) (set_first key v l)
  = Some (mkPair (Key c) (Hash c) (Some v) None).
Proof.
  induction l as [|d l IH]; cbn [find set_first]; [discriminate|].
  destruct (has_key key d) eqn:Hk.
  - intros [= <-]. cbn [find]. unfold has_key in *. cbn [Key pair_key] in *.
    rewrite Hk. reflexivity.
  - intros Hf. cbn [find]. rewrite Hk. apply IH. exact Hf.
Qed.

Lemma find_set_first_ne (key key' : string) (v : V) (l : list pair) :
  key' <> key ->
  find (has_key key') (set_first key v l) = find (has_key key') l.
Proof.
  intros Hne. induction l as [|d l IH]; cbn [find set_first]; [reflexivity|].
  destruct (has_key key d) eqn:Hk; cbn [find].
  - rewrite (has_key_other key key' d Hne Hk).
    apply has_key_true in Hk. unfold has_key at 1. cbn [Key pair_key].
    destruct (String.eqb_spec (Key d) key') as [Heq|_]; [|reflexivity].
    exfalso. apply Hne. rewrite <- Heq. exact Hk.
  - destruct (has_key key' d); [reflexivity | exact IH].
Qed.

Lemma remove_first_incl (key : string) (l : list pair) (c : pair) :
  In c (remove_first key l) -> In c l.
Proof.
  induction l as [|d l IH]; cbn [remove_first In]; [tauto|].
  destruct (has_key key d); cbn [In]; tauto.
Qed.

Lemma remove_first_keys_incl (key k : string) (l : list pair) :
  In k (map Key (remove_first key l)) -> In k (map Key l).
Proof.
  rewrite !in_map_iff. intros (c & Hk & Hin). exists c.
  split; [exact Hk | eapply remove_first_incl; exact Hin].
Qed.

Lemma remove_first_NoDup (key : string) (l : list pair) :
  NoDup (map Key l) -> NoDup (map Key (remove_first key l)).
Proof.
  induction l as [|d l IH]; cbn [remove_first map]; intros Hnd; [exact Hnd|].
  apply NoDup_cons in Hnd as [Hd Hnd].
  destruct (has_key key d); [exact Hnd|]. cbn [map].
  apply NoDup_cons. split; [|apply IH; exact Hnd].
  intros Hin. apply Hd. apply list_elem_of_In.
  apply list_elem_of_In in Hin. eapply remove_first_keys_incl. exact Hin.
Qed.

Lemma remove_first_placed (n : Z) (j : nat) (key : string) (l : list pair) :
  Forall (entry_placed n j) l -> Forall (entry_placed n j) (remove_first key l).
Proof.
  induction 1 as [|c l Hc Hl IH]; cbn [remove_first]; [constructor|].
  destruct (has_key key c); [assumption|]. constructor; assumption.
Qed.

Lemma find_remove_first_eq (key : string) (l : list pair) :
  NoDup (map Key l) -> find (has_key key) (remove_first key l) = None.
Proof.
  induction l as [|d l IH]; cbn [remove_first map]; intros Hnd; [reflexivity|].
  apply NoDup_cons in Hnd as [Hd Hnd].
  destruct (has_key key d) eqn:Hk.
  - apply find_key_none. apply has_key_true in Hk. subst key.
    intros Hin. apply Hd. apply list_elem_of_In. exact Hin.
  - cbn [find]. rewrite Hk. apply IH. exact Hnd.
Qed.

Lemma find_remove_first_ne (key key' : string) (l : list pair) :
  key' <> key ->
  find (has_key key') (remove_first key l) = find (has_key key') l.
Proof.
  intros Hne. induction l as [|d l IH]; cbn [find remove_first]; [reflexivity|].
  destruct (has_key key d) eqn:Hk.
  - rewrite (has_key_other key key' d Hne Hk). reflexivity.
  - cbn [find]. destruct (has_key key' d); [reflexivity | exact IH].
Qed.

(** ** Slices of buckets *)

Lemma slot_in_range (n h : Z) (bs : list Bucket) :
  0 < n -> Z.of_nat (length bs) = n ->
  (Z.to_nat (h mod n) < length bs)%nat.
Proof. intros Hn Hl. pose proof (Z.mod_pos_bound h n Hn). lia. Qed.

Lemma lookup_entry_insert_same (bs : list Bucket) (n : Z) (key : string)
    (i : nat) (b' : Bucket) :
  (i < length bs)%nat -> Z.to_nat (hash key mod n) = i ->
  lookup_entry (<[i := b']> bs) n key = find (has_key key) (bucket_entries b').
Proof.
  intros Hi Hk. unfold lookup_entry. rewrite Hk.
  rewrite list_lookup_insert_eq by exact Hi. reflexivity.
Qed.

Lemma lookup_entry_insert_other (bs : list Bucket) (n : Z) (key : string)
    (i : nat) (b' : Bucket) :
  Z.to_nat (hash key mod n) <> i ->
  lookup_entry (<[i := b']> bs) n key = lookup_entry bs n key.
Proof.
  intros Hk. unfold lookup_entry.
  rewrite list_lookup_insert_ne by (intros Heq; apply Hk; symmetry; exact Heq).
  reflexivity.
Qed.

Lemma buckets_ok_insert (n : Z) (bs : list Bucket) (i : nat) (b' : Bucket) :
  buckets_ok n bs -> bucket_ok n i b' -> buckets_ok n (<[i := b']> bs).
Proof.
  intros Hok Hb' j b Hj.
  destruct (decide (i = j)) as [<- | Hne].
  - apply list_lookup_insert_Some in Hj.
    destruct Hj as [(_ & <- & _) | (Hne & _)]; [exact Hb' | contradiction].
  - rewrite list_lookup_insert_ne in Hj by exact Hne. apply Hok. exact Hj.
Qed.

(** A found entry sits in the bucket of its key and carries the hash of
    its key. *)
Lemma lookup_entry_found (bs : list Bucket) (n : Z) (key : string) (c : pair) :
  buckets_ok n bs -> lookup_entry bs n key = Some c ->
  Key c = key /\ Hash c = hash key /\ pair_next c = None.
Proof.
  unfold lookup_entry. intros Hok Hf.
  destruct (bs !! Z.to_nat (hash key mod n)) as [b|] eqn:Hb; [|discriminate].
  apply find_key_some in Hf as [Hin Hk]. split; [exact Hk|].
  destruct (Hok _ _ Hb) as [_ Hpl].
  rewrite Forall_forall in Hpl. apply list_elem_of_In in Hin.
  destruct (Hpl c Hin) as [Hh _]. split; [congruence|].
  clear - Hin. apply list_elem_of_In in Hin.
  unfold bucket_entries in Hin. destruct (head b) as [p|]; [|contradiction].
  revert Hin. induction p as [k h e | k h e q IH] using pair_chain_ind;
    cbn [chain_entries In]; intros [<- | Hin]; try reflexivity;
    [contradiction | apply IH; exact Hin].
Qed.

(** Putting a pair whose key is not in the slice: the pair is new, and
    afterwards the key finds it. *)
Lemma put_new_in_slice (bs : list Bucket) (n : Z) (p : pair) (b : Bucket) :
  0 < n -> Z.of_nat (length bs) = n -> buckets_ok n bs ->
  Hash p = hash (Key p) ->
  bs !! Z.to_nat (Hash p mod n) = Some b ->
  lookup_entry bs n (Key p) = None ->
  snd (bucket_Put b p) = (true, None)
  /\ buckets_ok n (<[Z.to_nat (Hash p mod n) := fst (bucket_Put b p)]> bs)
  /\ forall key,
      lookup_entry (<[Z.to_nat (Hash p mod n) := fst (bucket_Put b p)]> bs) n key
      = if decide (key = Key p) then Some (detach p) else lookup_entry bs n key.
Proof.
  intros Hn Hl Hok Hh Hb Hnone.
  assert (Hfind : find (has_key (Key p)) (bucket_entries b) = None).
  { unfold lookup_entry in Hnone. rewrite <- Hh, Hb in Hnone. exact Hnone. }
  assert (Hput : bucket_Put b p
                 = (mkBucket (Some (mkPair (Key p) (Hash p) (Element p) (head b))),
                    (true, None))).
  { unfold bucket_Put. pose proof (bucket_Get_entries b (Key p)) as Hg.
    rewrite Hfind in Hg. destruct (bucket_Get b (Key p)); [discriminate|].
    reflexivity. }
  assert (Hent : bucket_entries (fst (bucket_Put b p)) = detach p :: bucket_entries b).
  { rewrite Hput. destruct p as [k h e nx]. reflexivity. }
  split; [rewrite Hput; reflexivity|]. split.
  - apply buckets_ok_insert; [exact Hok|].
    destruct (Hok _ _ Hb) as [Hnd Hpl]. split; rewrite Hent.
    + cbn [map]. apply NoDup_cons. split; [|exact Hnd].
      intros Hin. apply list_elem_of_In in Hin.
      apply find_key_none in Hfind. apply Hfind.
      destruct p; exact Hin.
    + constructor; [|exact Hpl]. destruct p as [k h e nx]. split; [exact Hh | reflexivity].
  - intros key. destruct (decide (key = Key p)) as [-> | Hne].
    + rewrite lookup_entry_insert_same;
        [| apply slot_in_range; assumption | rewrite Hh; reflexivity].
      rewrite Hent. cbn [find]. replace (has_key (Key p) (detach p)) with true.
      * reflexivity.
      * symmetry. apply has_key_true. destruct p; reflexivity.
    + destruct (decide (Z.to_nat (hash key mod n) = Z.to_nat (Hash p mod n)))
        as [Heq | Hneq].
      * rewrite lookup_entry_insert_same;
          [| apply slot_in_range; assumption | exact Heq].
        rewrite Hent. cbn [find]. replace (has_key key (detach p)) with false.
        -- unfold lookup_entry. rewrite Heq, Hb. reflexivity.
        -- symmetry. apply has_key_false. destruct p; cbn in *. congruence.
      * apply lookup_entry_insert_other. exact Hneq.
Qed.

(** Putting a pair whose key is in the slice: the pair is not new, and
    the entry of the key takes its value. *)
Lemma put_existing_in_slice (bs : list Bucket) (n : Z) (p : pair) (b : Bucket)
    (v : V) (c : pair) :
  0 < n -> Z.of_nat (length bs) = n -> buckets_ok n bs ->
  Hash p = hash (Key p) -> Element p = Some v ->
  bs !! Z.to_nat (Hash p mod n) = Some b ->
  lookup_entry bs n (Key p) = Some c ->
  snd (bucket_Put b p) = (false, None)
  /\ buckets_ok n (<[Z.to_nat (Hash p mod n) := fst (bucket_Put b p)]> bs)
  /\ forall key,
      lookup_entry (<[Z.to_nat (Hash p mod n) := fst (bucket_Put b p)]> bs) n key
      = if decide (key = Key p) then Some (detach p) else lookup_entry bs n key.
Proof.
  intros Hn Hl Hok Hh He Hb Hsome.
  destruct (lookup_entry_found bs n (Key p) c Hok Hsome) as (Hck & Hch & _).
  assert (Hfind : find (has_key (Key p)) (bucket_entries b) = Some c).
  { unfold lookup_entry in Hsome. rewrite <- Hh, Hb in Hsome. exact Hsome. }
  destruct (bucket_Put_entries b p v He) as [Hput Hent].
  rewrite Hfind in Hput, Hent.
  split; [rewrite Hput; reflexivity|]. split.
  - apply buckets_ok_insert; [exact Hok|].
    destruct (Hok _ _ Hb) as [Hnd Hpl]. split; rewrite Hent.
    + rewrite set_first_keys. exact Hnd.
    + apply set_first_placed. exact Hpl.
  - intros key. destruct (decide (key = Key p)) as [-> | Hne].
    + rewrite lookup_entry_insert_same;
        [| apply slot_in_range; assumption | rewrite Hh; reflexivity].
      rewrite Hent, (find_set_first_eq _ _ _ _ Hfind).
      rewrite Hck, Hch, <- Hh. unfold detach, store_next.
      rewrite <- He. reflexivity.
    + destruct (decide (Z.to_nat (hash key mod n) = Z.to_nat (Hash p mod n)))
        as [Heq | Hneq].
      * rewrite lookup_entry_insert_same;
          [| apply slot_in_range; assumption | exact Heq].
        rewrite Hent, find_set_first_ne by exact Hne.
        unfold lookup_entry. rewrite Heq, Hb. reflexivity.
      * apply lookup_entry_insert_other. exact Hneq.
Qed.

(** Deleting a key from the slice. *)
Lemma delete_in_slice (bs : list Bucket) (n : Z) (key : string) (b : Bucket) :
  0 < n -> Z.of_nat (length bs) = n -> buckets_ok n bs ->
  bs !! Z.to_nat (hash key mod n) = Some b ->
  snd (bucket_Delete b key)
  = match lookup_entry bs n key with Some _ => true | None => false end
  /\ buckets_ok n (<[Z.to_nat (hash key mod n) := fst (bucket_Delete b key)]> bs)
  /\ forall key',
      lookup_entry (<[Z.to_nat (hash key mod n) := fst (bucket_Delete b key)]> bs)
        n key'
      = if decide (key' = key) then None else lookup_entry bs n key'.
Proof.
  intros Hn Hl Hok Hb.
  destruct (bucket_Delete_entries b key) as [Hdel Hent].
  destruct (Hok _ _ Hb) as [Hnd Hpl].
  split; [|split].
  - rewrite Hdel. unfold lookup_entry. rewrite Hb. reflexivity.
  - apply buckets_ok_insert; [exact Hok|]. split; rewrite Hent.
    + apply remove_first_NoDup. exact Hnd.
    + apply remove_first_placed. exact Hpl.
  - intros key'. destruct (decide (key' = key)) as [-> | Hne].
    + rewrite lookup_entry_insert_same;
        [| apply slot_in_range; assumption | reflexivity].
      rewrite Hent. apply find_remove_first_eq. exact Hnd.
    + destruct (decide (Z.to_nat (hash key' mod n) = Z.to_nat (hash key mod n)))
        as [Heq | Hneq].
      * rewrite lookup_entry_insert_same;
          [| apply slot_in_range; assumption | exact Heq].
        rewrite Hent, find_remove_first_ne by exact Hne.
        unfold lookup_entry. rewrite Heq, Hb. reflexivity.
      * apply lookup_entry_insert_other. exact Hneq.
Qed.

(** ** Rehashing *)

(** Pairs with distinct keys that are not in the slice yet: [rehash]
    returns, and afterwards a key finds its pair or what it found
    before. *)
Lemma rehash_entries (n : Z) (pairs : list pair) :
  forall bs : list Bucket,
    0 < n -> Z.of_nat (length bs) = n -> buckets_ok n bs ->
    Forall (fun p => Hash p = hash (Key p)) pairs ->
    NoDup (map Key pairs) ->
    (forall p, In p pairs -> lookup_entry bs n (Key p) = None) ->
    exists bs',
      rehash n pairs bs = Done bs'
      /\ Z.of_nat (length bs') = n
      /\ buckets_ok n bs'
      /\ forall key,
          lookup_entry bs' n key
          = match find (has_key key) pairs with
            | Some p => Some (detach p)
            | None => lookup_entry bs n key
            end.
Proof.
  induction pairs as [|p rest IH]; intros bs Hn Hl Hok Hh Hnd Hfresh.
  - exists bs. split; [reflexivity|]. split; [exact Hl|]. split; [exact Hok|].
    intros key. reflexivity.
  - cbn [rehash].
    destruct (Z.eqb_spec n 0); [lia|].
    destruct (lookup_lt_is_Some_2 bs _ (slot_in_range n (Hash p) bs Hn Hl))
      as [b Hb].
    rewrite Hb. apply Forall_cons in Hh as [Hhp Hhrest].
    cbn [map] in Hnd. apply NoDup_cons in Hnd as [Hp Hnd].
    destruct (put_new_in_slice bs n p b Hn Hl Hok Hhp Hb)
      as (_ & Hok1 & Hlook1); [apply Hfresh; left; reflexivity|].
    destruct (IH (<[Z.to_nat (Hash p mod n) := fst (bucket_Put b p)]> bs))
      as (bs' & Hr & Hl' & Hok' & Hlook'); try assumption.
    { rewrite length_insert. exact Hl. }
    { intros q Hq. rewrite Hlook1.
      destruct (decide (Key q = Key p)) as [Heq | _].
      - exfalso. apply Hp. apply list_elem_of_In, in_map_iff.
        exists q. split; [exact Heq | exact Hq].
      - apply Hfresh. right. exact Hq. }
    exists bs'. split; [exact Hr|]. split; [exact Hl'|]. split; [exact Hok'|].
    intros key. rewrite Hlook', Hlook1. cbn [find].
    destruct (has_key key p) eqn:Hk.
    + apply has_key_true in Hk. subst key.
      replace (find (has_key (Key p)) rest) with (@None pair).
      * destruct (decide (Key p = Key p)); [reflexivity | contradiction].
      * symmetry. apply find_key_none. intros Hin. apply Hp.
        apply list_elem_of_In. exact Hin.
    + apply has_key_false in Hk.
      destruct (find (has_key key) rest); [reflexivity|].
      destruct (decide (key = Key p)); [congruence | reflexivity].
Qed.

(** ** All the entries of a slice *)

Lemma all_entries_nodes (bs : list Bucket) :
  concat (map bucket_entries bs) = map detach (concat (map bucket_nodes bs)).
Proof.
  induction bs as [|b bs IH]; cbn [map concat]; [reflexivity|].
  rewrite map_app, IH, bucket_nodes_entries. reflexivity.
Qed.

Lemma all_entries_in (bs : list Bucket) (c : pair) :
  In c (concat (map bucket_entries bs))
  <-> exists j b, bs !! j = Some b /\ In c (bucket_entries b).
Proof.
  rewrite in_concat. split.
  - intros (l & Hl & Hc). apply in_map_iff in Hl as (b & <- & Hb).
    apply list_elem_of_In, list_elem_of_lookup in Hb as [j Hj].
    exists j, b. split; assumption.
  - intros (j & b & Hj & Hc). exists (bucket_entries b). split; [|exact Hc].
    apply in_map_iff. exists b. split; [reflexivity|].
    apply list_elem_of_In, list_elem_of_lookup. exists j. exact Hj.
Qed.

Lemma placed_slot (n : Z) (bs : list Bucket) (j : nat) (b : Bucket) (c : pair) :
  buckets_ok n bs -> bs !! j = Some b -> In c (bucket_entries b) ->
  Hash c = hash (Key c) /\ Z.to_nat (hash (Key c) mod n) = j.
Proof.
  intros Hok Hj Hc. destruct (Hok _ _ Hj) as [_ Hpl].
  rewrite Forall_forall in Hpl. apply list_elem_of_In in Hc.
  destruct (Hpl c Hc) as [Hh Hslot]. split; [exact Hh|].
  rewrite <- Hh. exact Hslot.
Qed.

Lemma all_entries_NoDup_from (n : Z) (bs : list Bucket) :
  forall off : nat,
    (forall j b, bs !! j = Some b -> bucket_ok n (off + j) b) ->
    NoDup (map Key (concat (map bucket_entries bs))).
Proof.
  induction bs as [|b bs IH]; intros off Hok; cbn [map concat].
  - constructor.
  - rewrite map_app. apply NoDup_app. split; [|split].
    + destruct (Hok O b eq_refl) as [Hnd _]. exact Hnd.
    + intros k Hk1 Hk2.
      apply list_elem_of_In, in_map_iff in Hk1 as (c1 & Hc1 & Hin1).
      apply list_elem_of_In, in_map_iff in Hk2 as (c2 & Hc2 & Hin2).
      apply all_entries_in in Hin2 as (j & b2 & Hj & Hin2).
      destruct (Hok O b eq_refl) as [_ Hpl1].
      destruct (Hok (S j) b2 Hj) as [_ Hpl2].
      rewrite Forall_forall in Hpl1, Hpl2.
      apply list_elem_of_In in Hin1, Hin2.
      destruct (Hpl1 c1 Hin1) as [Hh1 Hs1].
      destruct (Hpl2 c2 Hin2) as [Hh2 Hs2].
      rewrite Hh1, Hc1 in Hs1. rewrite Hh2, Hc2 in Hs2. lia.
    + apply (IH (S off)). intros j b' Hj.
      replace (S off + j)%nat with (off + S j)%nat by lia.
      apply Hok. exact Hj.
Qed.

Lemma all_entries_NoDup (n : Z) (bs : list Bucket) :
  buckets_ok n bs -> NoDup (map Key (concat (map bucket_entries bs))).
Proof. intros Hok. apply (all_entries_NoDup_from n bs O). exact Hok. Qed.

(** With the buckets in order, a key is found in its bucket exactly
    when it is found among all the entries. *)
Lemma find_all_entries (n : Z) (bs : list Bucket) (key : string) :
  buckets_ok n bs ->
  find (has_key key) (concat (map bucket_entries bs)) = lookup_entry bs n key.
Proof.
  intros Hok. destruct (lookup_entry bs n key) as [c|] eqn:Hlook.
  - unfold lookup_entry in Hlook.
    destruct (bs !! Z.to_nat (hash key mod n)) as [b|] eqn:Hb; [|discriminate].
    apply find_key_some in Hlook as [Hin Hk].
    apply find_key_in; [apply (all_entries_NoDup n); exact Hok | | exact Hk].
    apply all_entries_in. eexists _, b. split; [exact Hb | exact Hin].
  - apply find_key_none. intros Hin.
    apply in_map_iff in Hin as (c & Hk & Hin).
    apply all_entries_in in Hin as (j & b & Hj & Hin).
    destruct (placed_slot n bs j b c Hok Hj Hin) as [_ Hslot].
    rewrite Hk in Hslot. unfold lookup_entry in Hlook.
    rewrite Hslot, Hj in Hlook. apply find_key_none in Hlook.
    apply Hlook. apply in_map_iff. exists c. split; assumption.
Qed.

Lemma find_map_detach (key : string) (l : list pair) :
  find (has_key key) (map detach l) = detach <$> find (has_key key) l.
Proof.
  induction l as [|p l IH]; cbn [map find]; [reflexivity|].
  replace (has_key key (detach p)) with (has_key key p)
    by (destruct p; reflexivity).
  destruct (has_key key p); [reflexivity | exact IH].
Qed.

Lemma lookup_entry_new (m : Z) (key : string) :
  lookup_entry (replicate (Z.to_nat m) (newBucket : Bucket)) m key = None.
Proof.
  unfold lookup_entry.
  destruct (replicate (Z.to_nat m) newBucket !! Z.to_nat (hash key mod m))
    as [b|] eqn:Hb; [|reflexivity].
  apply lookup_replicate in Hb as [-> _]. reflexivity.
Qed.

(** Rehashing every pair of a slice in order into [m] new buckets gives
    a slice in order in which every key finds what it found before. *)
Lemma rehash_slice (n m : Z) (bs : list Bucket) :
  buckets_ok n bs -> 0 < m ->
  exists filled,
    rehash m (concat (map bucket_nodes bs)) (replicate (Z.to_nat m) newBucket)
    = Done filled
    /\ Z.of_nat (length filled) = m
    /\ buckets_ok m filled
    /\ forall key, lookup_entry filled m key = lookup_entry bs n key.
Proof.
  intros Hok Hm.
  pose proof (all_entries_NoDup n bs Hok) as Hnd.
  rewrite all_entries_nodes, map_map in Hnd.
  destruct (rehash_entries m (concat (map bucket_nodes bs))
              (replicate (Z.to_nat m) newBucket))
    as (filled & Hr & Hl & Hok' & Hlook); try assumption.
  - rewrite length_replicate. lia.
  - intros j b Hj. apply lookup_replicate in Hj as [-> _].
    split; [constructor | constructor].
  - apply Forall_forall. intros p Hp. apply list_elem_of_In in Hp.
    assert (Hin : In (detach p) (concat (map bucket_entries bs))).
    { rewrite all_entries_nodes. apply in_map. exact Hp. }
    apply all_entries_in in Hin as (j & b & Hj & Hin).
    destruct (placed_slot n bs j b (detach p) Hok Hj Hin) as [Hh _].
    destruct p; exact Hh.
  - intros p _. apply lookup_entry_new.
  - exists filled. split; [exact Hr|]. split; [exact Hl|]. split; [exact Hok'|].
    intros key. rewrite Hlook, lookup_entry_new.
    rewrite <- (find_all_entries n bs key Hok), all_entries_nodes, find_map_detach.
    destruct (find (has_key key) (concat (map bucket_nodes bs))); reflexivity.
Qed.

(** ** Segments with the default policy *)

Lemma rehash_deterministic (m : Z) (pairs : list pair) (bs f1 f2 : list Bucket) :
  rehash m pairs bs = Done f1 -> rehash m pairs bs = Done f2 -> f1 = f2.
Proof. intros H1 H2. rewrite H1 in H2. injection H2 as ->. reflexivity. Qed.

(** The redistribution check of the default policy keeps what every
    key finds. *)
Lemma segment_redistribute_default_wf (s : segment policy)
    (pr : myPairRedistributor) (t z : Z) :
  segment_wf s -> pairRedistributor s = Default pr ->
  0 <= overweightBucketCount pr ->
  exists s',
    segment_redistribute s t z = (s', None)
    /\ default_step s s' pr
    /\ pairTotal s' = pairTotal s
    /\ forall key, segment_entry s' key = segment_entry s key.
Proof.
  intros [Hshape Hok] Hpol Ho.
  destruct (segment_redistribute_default s pr t z Hshape Hpol Ho)
    as (pr' & Ho' & [Hr | (filled & Hre & Hl & Hg & Hz & Hr)]);
    rewrite Hr; eexists; (split; [reflexivity|]).
  - split; [|split; [reflexivity | intros key; reflexivity]].
    exists pr'. cbn. destruct Hshape as [Hlen Hb].
    split; [reflexivity|]. split; [lia|]. split; [exact Hlen|].
    split; [left; reflexivity | exact Hok].
  - destruct Hshape as [Hlen Hb].
    destruct (rehash_slice (bucketsLen s) (2 * bucketsLen s) (buckets s) Hok)
      as (filled' & Hre' & Hl' & Hok' & Hlook'); [lia|].
    pose proof (rehash_deterministic _ _ _ _ _ Hre Hre') as ->.
    split; [|split; [reflexivity | intros key; apply Hlook']].
    exists pr'. cbn.
    split; [reflexivity|]. split; [lia|]. split; [lia|].
    split; [right; split; [reflexivity | exact Hg] | exact Hok'].
Qed.

(** Indexing a slice by [h % bucketsLen] when the length is below
    [2^64]. *)
Lemma bucket_index_in_range {PR : Type} (s : segment PR) (h : Z) :
  bucketsLen s = Z.of_nat (length (buckets s)) ->
  0 < bucketsLen s < 2 ^ 64 ->
  exists b,
    bucket_index s h = Done (Z.to_nat (h mod bucketsLen s))
    /\ buckets s !! Z.to_nat (h mod bucketsLen s) = Some b.
Proof.
  intros Hlen Hb. unfold bucket_index, wrap64.
  rewrite Z.mod_small by lia.
  destruct (Z.eqb_spec (bucketsLen s) 0); [lia|].
  assert (Hi : (Z.to_nat (h mod bucketsLen s) < length (buckets s))%nat).
  { pose proof (Z.mod_pos_bound h (bucketsLen s)). lia. }
  destruct (lookup_lt_is_Some_2 _ _ Hi) as [b Hlook].
  exists b. split; [reflexivity | exact Hlook].
Qed.

(** [Put] on a segment in order, with the default policy. *)
Lemma segment_Put_default (s : segment policy) (pr : myPairRedistributor)
    (p : pair) (v : V) :
  segment_wf s -> pairRedistributor s = Default pr ->
  0 <= overweightBucketCount pr ->
  Hash p = hash (Key p) -> Element p = Some v ->
  exists s',
    segment_Put s p
    = Done (s', (match segment_entry s (Key p) with
                 | Some _ => false
                 | None => true
                 end, None))
    /\ default_step s s' pr
    /\ forall key,
        segment_entry s' key
        = if decide (key = Key p) then Some (detach p) else segment_entry s key.
Proof.
  intros [Hshape Hok] Hpol Ho Hh He. pose proof Hshape as [Hlen Hb].
  unfold segment_Put.
  destruct (bucket_index_shape s (Hash p) Hshape) as (b & -> & Hlook).
  cbn [mbind panicking_bind]. rewrite Hlook.
  assert (Hcase : exists ok,
    snd (bucket_Put b p) = (ok, None)
    /\ ok = match segment_entry s (Key p) with Some _ => false | None => true end
    /\ buckets_ok (bucketsLen s)
         (<[Z.to_nat (Hash p mod bucketsLen s) := fst (bucket_Put b p)]> (buckets s))
    /\ forall key,
        lookup_entry
          (<[Z.to_nat (Hash p mod bucketsLen s) := fst (bucket_Put b p)]> (buckets s))
          (bucketsLen s) key
        = if decide (key = Key p) then Some (detach p) else segment_entry s key).
  { unfold segment_entry.
    destruct (lookup_entry (buckets s) (bucketsLen s) (Key p)) as [c|] eqn:Hc.
    - destruct (put_existing_in_slice (buckets s) (bucketsLen s) p b v c)
        as (H1 & H2 & H3); try assumption; try lia.
      exists false. split; [exact H1|]. split; [reflexivity|].
      split; [exact H2 | exact H3].
    - destruct (put_new_in_slice (buckets s) (bucketsLen s) p b)
        as (H1 & H2 & H3); try assumption; try lia.
      exists true. split; [exact H1|]. split; [reflexivity|].
      split; [exact H2 | exact H3]. }
  destruct Hcase as (ok & Hres & -> & Hok1 & Hlook1).
  destruct (bucket_Put b p) as [b' [ok' err]]. cbn [fst snd] in *.
  injection Hres as -> ->.
  destruct (segment_entry s (Key p)) as [c|].
  - eexists. split; [reflexivity|]. split; [|exact Hlook1].
    exists pr. cbn. rewrite length_insert.
    split; [exact Hpol|]. split; [lia|]. split; [exact Hlen|].
    split; [left; reflexivity | exact Hok1].
  - cbn [pairTotal buckets bucketsLen pairRedistributor].
    destruct (segment_redistribute_default_wf
                (mkSegment
                   (<[Z.to_nat (Hash p mod bucketsLen s) := b']> (buckets s))
                   (bucketsLen s) (wrap64 (pairTotal s + 1)) (pairRedistributor s))
                pr (wrap64 (pairTotal s + 1)) (bucket_Size b'))
      as (s' & -> & Hstep & _ & Hkeep); try assumption.
    { split; [split; cbn; [rewrite length_insert; exact Hlen | exact Hb]|].
      exact Hok1. }
    exists s'. split; [reflexivity|]. split; [exact Hstep|].
    intros key. rewrite Hkeep. apply Hlook1.
Qed.

(** [Delete] on a segment in order, with the default policy. *)
Lemma segment_Delete_default (s : segment policy) (pr : myPairRedistributor)
    (key : string) :
  segment_wf s -> pairRedistributor s = Default pr ->
  0 <= overweightBucketCount pr ->
  exists s',
    segment_Delete s key
    = Done (s', match segment_entry s key with
                | Some _ => true
                | None => false
                end)
    /\ default_step s s' pr
    /\ forall key',
        segment_entry s' key'
        = if decide (key' = key) then None else segment_entry s key'.
Proof.
  intros [Hshape Hok] Hpol Ho. pose proof Hshape as [Hlen Hb].
  unfold segment_Delete.
  destruct (bucket_index_shape s (hash key) Hshape) as (b & -> & Hlook).
  cbn [mbind panicking_bind]. rewrite Hlook.
  destruct (delete_in_slice (buckets s) (bucketsLen s) key b)
    as (Hres & Hok1 & Hlook1); try assumption; try lia.
  fold (segment_entry s key) in Hres.
  destruct (bucket_Delete b key) as [b' ok]. cbn [fst snd] in *. subst ok.
  destruct (segment_entry s key) as [c|].
  - cbn [pairTotal buckets bucketsLen pairRedistributor].
    destruct (segment_redistribute_default_wf
                (mkSegment
                   (<[Z.to_nat (hash key mod bucketsLen s) := b']> (buckets s))
                   (bucketsLen s) (wrap64 (pairTotal s + (2 ^ 64 - 1)))
                   (pairRedistributor s))
                pr (wrap64 (pairTotal s + (2 ^ 64 - 1))) (bucket_Size b'))
      as (s' & -> & Hstep & _ & Hkeep); try assumption.
    { split; [split; cbn; [rewrite length_insert; exact Hlen | exact Hb]|].
      exact Hok1. }
    exists s'. split; [reflexivity|]. split; [exact Hstep|].
    intros key'. rewrite Hkeep. apply Hlook1.
  - eexists. split; [reflexivity|]. split; [|exact Hlook1].
    exists pr. cbn. rewrite length_insert.
    split; [exact Hpol|]. split; [lia|]. split; [exact Hlen|].
    split; [left; reflexivity | exact Hok1].
Qed.

(** ** The map with default policies *)

Lemma share_policy_default (pr : myPairRedistributor) (segs : list (segment policy)) :
  share_policy (Default pr) <$> segs = segs.
Proof.
  induction segs as [|s segs IH]; [reflexivity|].
  cbn. rewrite IH. reflexivity.
Qed.

Lemma store_segment_default (segs : list (segment policy)) (i : nat)
    (s' : segment policy) (pr : myPairRedistributor) :
  pairRedistributor s' = Default pr -> store_segment segs i s' = <[i := s']> segs.
Proof. intros Hpol. unfold store_segment. rewrite Hpol. apply share_policy_default. Qed.

Lemma cmap_entry_first (cmap : myConcurrentMap) (s : segment policy) (key : string) :
  segments cmap !! O = Some s -> cmap_entry cmap key = segment_entry s key.
Proof.
  intros Hs. unfold cmap_entry. rewrite findSegment_zero.
  change (Z.to_nat 0) with O. rewrite Hs. reflexivity.
Qed.

Lemma default_step_range (s s' : segment policy) (pr : myPairRedistributor) :
  segment_shape s -> default_step s s' pr ->
  bucketsLen s' = Z.of_nat (length (buckets s')) /\ 0 < bucketsLen s' < 2 ^ 64.
Proof.
  intros [_ Hb] (pr' & _ & _ & Hlen' & Hcase & _). split; [exact Hlen'|].
  unfold MaxInt in Hb. destruct Hcase as [-> | [-> _]]; lia.
Qed.

(** [Get] returns the element of the entry that the key finds. *)
Lemma cmap_Get_entry (cmap : myConcurrentMap) (s : segment policy) (key : string) :
  segments cmap !! O = Some s ->
  bucketsLen s = Z.of_nat (length (buckets s)) -> 0 < bucketsLen s < 2 ^ 64 ->
  cmap_Get cmap key
  = Done match segment_entry s key with
         | Some c => Element c
         | None => None
         end.
Proof.
  intros Hs Hlen Hb. unfold cmap_Get. rewrite findSegment_zero. change (Z.to_nat 0) with O.
  rewrite Hs. unfold segment_GetWithHash.
  destruct (bucket_index_in_range s (hash key) Hlen Hb) as (b & -> & Hlook).
  cbn [mbind panicking_bind]. rewrite Hlook.
  unfold segment_entry, lookup_entry. rewrite Hlook.
  rewrite <- bucket_Get_entries.
  destruct (bucket_Get b key) as [q|]; [|reflexivity].
  cbn. destruct q; reflexivity.
Qed.

Lemma newPair_element (key : string) (v : V) :
  newPair key (Some v) = (Some (mkPair key (hash key) (Some v) None), None).
Proof. reflexivity. Qed.

(** [Put] of a value on a map whose first segment is in order. *)
Lemma cmap_Put_default (cmap : myConcurrentMap) (s : segment policy)
    (pr : myPairRedistributor) (key : string) (v : V) :
  segments cmap !! O = Some s -> segment_wf s ->
  pairRedistributor s = Default pr -> 0 <= overweightBucketCount pr ->
  let new := match segment_entry s key with Some _ => false | None => true end in
  exists s',
    cmap_Put cmap key (Some v)
    = Done (mkConcurrentMap (concurrency cmap) (<[O := s']> (segments cmap))
              (if new then wrap64 (total cmap + 1) else total cmap),
            (new, None))
    /\ default_step s s' pr
    /\ forall key',
        segment_entry s' key'
        = if decide (key' = key)
          then Some (mkPair key (hash key) (Some v) None)
          else segment_entry s key'.
Proof.
  intros Hs Hwf Hpol Ho new. unfold cmap_Put. rewrite newPair_element.
  rewrite findSegment_zero. change (Z.to_nat 0) with O. rewrite Hs.
  destruct (segment_Put_default s pr (mkPair key (hash key) (Some v) None) v
              Hwf Hpol Ho eq_refl eq_refl) as (s' & Hput & Hstep & Hlook).
  cbn [Key pair_key] in Hput, Hlook. rewrite Hput.
  destruct Hstep as (pr' & Hpol' & Hrest).
  rewrite (store_segment_default _ _ _ _ Hpol').
  exists s'. split; [reflexivity|]. split; [exists pr'; split; assumption|].
  exact Hlook.
Qed.

(** [Delete] on a map whose first segment is in order. *)
Lemma cmap_Delete_default (cmap : myConcurrentMap) (s : segment policy)
    (pr : myPairRedistributor) (key : string) :
  segments cmap !! O = Some s -> segment_wf s ->
  pairRedistributor s = Default pr -> 0 <= overweightBucketCount pr ->
  let found := match segment_entry s key with Some _ => true | None => false end in
  exists s',
    cmap_Delete cmap key
    = Done (mkConcurrentMap (concurrency cmap) (<[O := s']> (segments cmap))
              (if found then wrap64 (total cmap + (2 ^ 64 - 1)) else total cmap),
            found)
    /\ default_step s s' pr
    /\ forall key',
        segment_entry s' key'
        = if decide (key' = key) then None else segment_entry s key'.
Proof.
  intros Hs Hwf Hpol Ho found. unfold cmap_Delete.
  rewrite findSegment_zero. change (Z.to_nat 0) with O. rewrite Hs.
  destruct (segment_Delete_default s pr key Hwf Hpol Ho)
    as (s' & Hdel & Hstep & Hlook).
  rewrite Hdel. fold found.
  destruct Hstep as (pr' & Hpol' & Hrest).
  rewrite (store_segment_default _ _ _ _ Hpol').
  exists s'. split; [destruct found; reflexivity|].
  split; [exists pr'; split; assumption|]. exact Hlook.
Qed.

Lemma cmap_wf_first (cmap : myConcurrentMap) :
  cmap_wf cmap ->
  exists s pr,
    segments cmap !! O = Some s /\ segment_wf s
    /\ pairRedistributor s = Default pr /\ 0 <= overweightBucketCount pr.
Proof.
  intros [Hlen Hall].
  destruct (lookup_lt_is_Some_2 (segments cmap) O Hlen) as [s Hs].
  rewrite Forall_forall in Hall.
  destruct (Hall s) as [Hwf (pr & Hpol & Ho)].
  { apply list_elem_of_lookup. exists O. exact Hs. }
  exists s, pr. split; [exact Hs|]. split; [exact Hwf|]. split; assumption.
Qed.


(** ** Maps with room for further calls *)

Lemma segment_ready_less (k k' : Z) (s : segment policy) :
  k' <= k -> segment_ready k s -> segment_ready k' s.
Proof.
  intros Hk [Hwf (pr & Hpol & Ho & Hroom)]. split; [exact Hwf|].
  exists pr. split; [exact Hpol|]. split; [exact Ho | lia].
Qed.

Lemma segment_ready_step (k : Z) (s s' : segment policy)
    (pr : myPairRedistributor) :
  1 <= k -> segment_wf s -> pairRedistributor s = Default pr ->
  8 * (overweightBucketCount pr + k) <= MaxInt ->
  default_step s s' pr -> segment_ready (k - 1) s'.
Proof.
  intros Hk [[Hlen Hb] _] Hpol Hroom (pr' & Hpol' & Ho' & Hlen' & Hcase & Hok').
  split.
  - split; [|exact Hok']. split; [exact Hlen'|].
    destruct Hcase as [-> | [-> Hg]]; lia.
  - exists pr'. split; [exact Hpol'|]. split; lia.
Qed.

Lemma cmap_ready_first (k : Z) (cmap : myConcurrentMap) :
  cmap_ready k cmap ->
  exists s pr,
    segments cmap !! O = Some s /\ segment_wf s
    /\ pairRedistributor s = Default pr /\ 0 <= overweightBucketCount pr
    /\ 8 * (overweightBucketCount pr + k) <= MaxInt.
Proof.
  intros [Hlen Hall].
  destruct (lookup_lt_is_Some_2 (segments cmap) O Hlen) as [s Hs].
  rewrite Forall_forall in Hall.
  destruct (Hall s) as [Hwf (pr & Hpol & Ho & Hroom)].
  { apply list_elem_of_lookup. exists O. exact Hs. }
  exists s, pr. split; [exact Hs|]. split; [exact Hwf|].
  split; [exact Hpol|]. split; assumption.
Qed.

Lemma cmap_ready_store (k : Z) (cmap : myConcurrentMap) (s' : segment policy)
    (c t : Z) :
  1 <= k -> cmap_ready k cmap -> segment_ready (k - 1) s' ->
  cmap_ready (k - 1) (mkConcurrentMap c (<[O := s']> (segments cmap)) t).
Proof.
  intros Hk [Hlen Hall] Hs'. split; cbn [segments].
  - rewrite length_insert. exact Hlen.
  - apply Forall_insert; [|exact Hs'].
    eapply Forall_impl; [exact Hall|]. intros s. apply segment_ready_less. lia.
Qed.

Lemma cmap_ready_wf (k : Z) (cmap : myConcurrentMap) :
  0 <= k -> cmap_ready k cmap -> cmap_wf cmap.
Proof.
  intros Hk [Hlen Hall]. split; [exact Hlen|].
  eapply Forall_impl; [exact Hall|].
  intros s [Hwf (pr & Hpol & Ho & _)]. split; [exact Hwf|].
  exists pr. split; assumption.
Qed.

Lemma cmap_Put_ready (k : Z) (cmap : myConcurrentMap) (key : string) (v : V) :
  1 <= k -> cmap_ready k cmap ->
  let new := match cmap_entry cmap key with Some _ => false | None => true end in
  exists cmap',
    cmap_Put cmap key (Some v) = Done (cmap', (new, None))
    /\ cmap_ready (k - 1) cmap'
    /\ total cmap' = (if new then wrap64 (total cmap + 1) else total cmap)
    /\ forall key',
        cmap_entry cmap' key'
        = if decide (key' = key)
          then Some (mkPair key (hash key) (Some v) None)
          else cmap_entry cmap key'.
Proof.
  intros Hk Hready new.
  destruct (cmap_ready_first k cmap Hready)
    as (s & pr & Hs & Hwf & Hpol & Ho & Hroom).
  destruct (cmap_Put_default cmap s pr key v Hs Hwf Hpol Ho)
    as (s' & Hput & Hstep & Hlook).
  unfold new. rewrite (cmap_entry_first cmap s key Hs).
  eexists. split; [exact Hput|]. split; [|split; [reflexivity|]].
  - apply cmap_ready_store; [exact Hk | exact Hready |].
    eapply segment_ready_step; eassumption.
  - intros key'. rewrite (cmap_entry_first cmap s key' Hs), <- Hlook.
    apply cmap_entry_first. cbn [segments].
    apply list_lookup_insert_eq. destruct Hready as [Hlen _]. exact Hlen.
Qed.

Lemma cmap_Delete_ready (k : Z) (cmap : myConcurrentMap) (key : string) :
  1 <= k -> cmap_ready k cmap ->
  let found := match cmap_entry cmap key with Some _ => true | None => false end in
  exists cmap',
    cmap_Delete cmap key = Done (cmap', found)
    /\ cmap_ready (k - 1) cmap'
    /\ total cmap'
       = (if found then wrap64 (total cmap + (2 ^ 64 - 1)) else total cmap)
    /\ forall key',
        cmap_entry cmap' key'
        = if decide (key' = key) then None else cmap_entry cmap key'.
Proof.
  intros Hk Hready found.
  destruct (cmap_ready_first k cmap Hready)
    as (s & pr & Hs & Hwf & Hpol & Ho & Hroom).
  destruct (cmap_Delete_default cmap s pr key Hs Hwf Hpol Ho)
    as (s' & Hdel & Hstep & Hlook).
  unfold found. rewrite (cmap_entry_first cmap s key Hs).
  eexists. split; [exact Hdel|]. split; [|split; [reflexivity|]].
  - apply cmap_ready_store; [exact Hk | exact Hready |].
    eapply segment_ready_step; eassumption.
  - intros key'. rewrite (cmap_entry_first cmap s key' Hs), <- Hlook.
    apply cmap_entry_first. cbn [segments].
    apply list_lookup_insert_eq. destruct Hready as [Hlen _]. exact Hlen.
Qed.

Lemma cmap_Get_ready (k : Z) (cmap : myConcurrentMap) (key : string) :
  cmap_ready k cmap ->
  cmap_Get cmap key
  = Done match cmap_entry cmap key with
         | Some c => Element c
         | None => None
         end.
Proof.
  intros Hready.
  destruct (cmap_ready_first k cmap Hready)
    as (s & pr & Hs & [[Hlen Hb] _] & _).
  rewrite (cmap_entry_first cmap s key Hs).
  apply cmap_Get_entry; [exact Hs | exact Hlen |]. unfold MaxInt in Hb. lia.
Qed.

(** A new map with default policies is ready for any number of calls
    that keeps [8 * k] within [MaxInt]; it is empty and its total is
    zero. *)
Lemma NewConcurrentMap_ready (c k : Z) :
  0 < DEFAULT_BUCKET_NUMBER <= MaxInt ->
  0 < c <= MAX_CONCURRENCY -> 0 <= 8 * k <= MaxInt ->
  exists cmap : myConcurrentMap,
    NewConcurrentMap c None = Done (Some cmap, None)
    /\ cmap_ready k cmap
    /\ concurrency cmap = c
    /\ Z.of_nat (length (segments cmap)) = c
    /\ total cmap = 0
    /\ forall key, cmap_entry cmap key = None.
Proof.
  intros HD Hc Hk. unfold NewConcurrentMap.
  destruct (Z.leb_spec c 0); [lia|].
  destruct (Z.gtb_spec c MAX_CONCURRENCY); [lia|].
  unfold newSegment.
  destruct (Z.leb_spec DEFAULT_BUCKET_NUMBER 0); [lia|].
  unfold newDefaultPairRedistributor.
  destruct (pr_UpdateThreshold_counts
              (mkPairRedistributor
                 (if f64_le DEFAULT_BUCKET_LOAD_FACTOR (S754_zero false)
                  then DEFAULT_BUCKET_LOAD_FACTOR
                  else DEFAULT_BUCKET_LOAD_FACTOR) 0 0 0)
              0 DEFAULT_BUCKET_NUMBER) as (pr & Hpr & Ho & _).
  { unfold wrap64, MaxInt in *. rewrite Z.mod_small; lia. }
  rewrite Hpr. cbn [mbind panicking_bind].
  destruct (Z.ltb_spec DEFAULT_BUCKET_NUMBER 0); [lia|].
  cbn [overweightBucketCount] in Ho.
  set (s := mkSegment (replicate (Z.to_nat DEFAULT_BUCKET_NUMBER) newBucket)
              DEFAULT_BUCKET_NUMBER 0 (Default pr)).
  assert (Hs : segment_ready k s).
  { split.
    - split.
      + split; cbn; [rewrite length_replicate; lia | lia].
      + intros j b Hj. apply lookup_replicate in Hj as [-> _].
        split; constructor.
    - exists pr. split; [reflexivity|]. split; lia. }
  eexists. split; [reflexivity|]. cbn [segments concurrency total].
  split; [|split; [reflexivity|split; [|split; [reflexivity|]]]].
  - split; cbn [segments]; [rewrite length_replicate; lia|].
    apply Forall_replicate. exact Hs.
  - rewrite length_replicate. lia.
  - intros key. unfold cmap_entry. rewrite findSegment_zero.
    change (Z.to_nat 0) with O. cbn [segments].
    destruct (replicate (Z.to_nat c) s !! O) as [s0|] eqn:Hs0; [|reflexivity].
    apply lookup_replicate in Hs0 as [-> _].
    apply lookup_entry_new.
Qed.

Lemma cmap_ready_less (k k' : Z) (cmap : myConcurrentMap) :
  k' <= k -> cmap_ready k cmap -> cmap_ready k' cmap.
Proof.
  intros Hk [Hlen Hall]. split; [exact Hlen|].
  eapply Forall_impl; [exact Hall|]. intros s. apply segment_ready_less. exact Hk.
Qed.

Lemma cmap_apply_ready (k : Z) (cmap : myConcurrentMap) (op : cmap_op) :
  1 <= k -> cmap_ready k cmap ->
  exists cmap', cmap_apply cmap op = Done cmap' /\ cmap_ready (k - 1) cmap'.
Proof.
  intros Hk Hready. destruct op as [key [v|] | key]; cbn [cmap_apply].
  - destruct (cmap_Put_ready k cmap key v Hk Hready) as (cmap' & -> & Hr & _).
    exists cmap'. split; [reflexivity | exact Hr].
  - exists cmap. split; [reflexivity|]. apply (cmap_ready_less k); [lia | exact Hready].
  - destruct (cmap_Delete_ready k cmap key Hk Hready) as (cmap' & -> & Hr & _).
    exists cmap'. split; [reflexivity | exact Hr].
Qed.

(** A run of calls on a map with room for them returns, and leaves a
    map with the room that remains. *)
Lemma cmap_run_ready (ops : list cmap_op) :
  forall (k : Z) (cmap : myConcurrentMap),
    Z.of_nat (length ops) <= k -> cmap_ready k cmap ->
    exists cmap',
      cmap_run cmap ops = Done cmap'
      /\ cmap_ready (k - Z.of_nat (length ops)) cmap'.
Proof.
  induction ops as [|op rest IH]; intros k cmap Hk Hready.
  - exists cmap. split; [reflexivity|]. cbn [length].
    replace (k - Z.of_nat 0) with k by lia. exact Hready.
  - cbn [length] in *. cbn [cmap_run].
    destruct (cmap_apply_ready k cmap op) as (cmap1 & -> & Hr1);
      [lia | exact Hready |].
    cbn [mbind panicking_bind].
    destruct (IH (k - 1) cmap1) as (cmap' & Hrun & Hr'); [lia | exact Hr1 |].
    exists cmap'. split; [exact Hrun|].
    replace (k - Z.of_nat (S (length rest)))
      with (k - 1 - Z.of_nat (length rest)) by lia.
    exact Hr'.
Qed.

(** Every map that a run of calls reaches from a new map with default
    policies is in regular state, as long as eight times the number of
    calls is a legal slice length. *)
Lemma reachable_wf (c : Z) (ops : list cmap_op) :
  0 < DEFAULT_BUCKET_NUMBER <= MaxInt -> 0 < c <= MAX_CONCURRENCY ->
  8 * Z.of_nat (length ops) <= MaxInt ->
  exists cmap0 cmap : myConcurrentMap,
    NewConcurrentMap c None = Done (Some cmap0, None)
    /\ cmap_run cmap0 ops = Done cmap
    /\ cmap_wf cmap.
Proof.
  intros HD Hc Hops.
  destruct (NewConcurrentMap_ready c (Z.of_nat (length ops)) HD Hc)
    as (cmap0 & Hnew & Hready & _); [lia|].
  destruct (cmap_run_ready ops _ cmap0 (Z.le_refl _) Hready)
    as (cmap & Hrun & Hready').
  exists cmap0, cmap. split; [exact Hnew|]. split; [exact Hrun|].
  apply (cmap_ready_wf (Z.of_nat (length ops) - Z.of_nat (length ops)));
    [lia | exact Hready'].
Qed.

(** The run of section 8 of the specification, for any two values. *)
Lemma scenario_any_values (v1 v2 : V) :
  0 < DEFAULT_BUCKET_NUMBER <= MaxInt -> 4 <= MAX_CONCURRENCY ->
  exists m0 m1 m2 m3 : myConcurrentMap,
    NewConcurrentMap 4 None = Done (Some m0, None)
    /\ cmap_Put m0 "a" (Some v1) = Done (m1, (true, None))
    /\ cmap_Put m1 "a" (Some v2) = Done (m2, (false, None))
    /\ cmap_Get m2 "a" = Done (Some v2)
    /\ cmap_Delete m2 "a" = Done (m3, true)
    /\ cmap_Get m3 "a" = Done None
    /\ cmap_Len m3 = 0.
Proof.
  intros HD HM.
  destruct (NewConcurrentMap_ready 4 3 HD) as (m0 & Hnew & Hr0 & _ & _ & Ht0 & He0);
    [lia | unfold MaxInt; lia |].
  destruct (cmap_Put_ready 3 m0 "a" v1) as (m1 & Hp1 & Hr1 & Ht1 & He1);
    [lia | exact Hr0 |].
  rewrite He0 in Hp1, Ht1.
  destruct (cmap_Put_ready 2 m1 "a" v2) as (m2 & Hp2 & Hr2 & Ht2 & He2);
    [lia | exact Hr1 |].
  rewrite He1 in Hp2, Ht2.
  destruct (decide ("a" = "a")) as [_|Hne]; [|contradiction].
  pose proof (cmap_Get_ready 1 m2 "a" Hr2) as Hg2.
  rewrite He2 in Hg2.
  destruct (decide ("a" = "a")) as [_|Hne]; [|contradiction].
  destruct (cmap_Delete_ready 1 m2 "a") as (m3 & Hd3 & Hr3 & Ht3 & He3);
    [lia | exact Hr2 |].
  rewrite He2 in Hd3, Ht3.
  destruct (decide ("a" = "a")) as [_|Hne]; [|contradiction].
  pose proof (cmap_Get_ready 0 m3 "a" Hr3) as Hg3.
  rewrite He3 in Hg3.
  destruct (decide ("a" = "a")) as [_|Hne]; [|contradiction].
  exists m0, m1, m2, m3.
  split; [exact Hnew|]. split; [exact Hp1|]. split; [exact Hp2|].
  split; [exact Hg2|]. split; [exact Hd3|]. split; [exact Hg3|].
  unfold cmap_Len. rewrite Ht3, Ht2, Ht1, Ht0. reflexivity.
Qed.

(** ** The threshold *)

Lemma uint64_of_float64_trunc (x : float64) (a : Z) :
  f64_trunc x = Some a -> 0 <= a < 2 ^ 64 ->
  uint64_of_float64 uint64_unspecified x = a.
Proof.
  intros Hx Ha. unfold uint64_of_float64. rewrite Hx.
  destruct (Z.leb_spec 0 a); [|lia]. destruct (Z.ltb_spec a (2 ^ 64)); [|lia].
  reflexivity.
Qed.

(** C7.  For every [pairTotal] and every positive [bucketNumber],
    [UpdateThreshold] stores in [upperThreshold] the product of
    [max(pairTotal / bucketNumber, 100)] and [loadFactor], where the
    quotient is the integer quotient, the product is the [float64]
    product and its conversion to [uint64] truncates; no other field
    changes and the call returns. *)
Theorem UpdateThreshold_upperThreshold (pr : myPairRedistributor)
    (pairTotal bucketNumber : Z) :
  0 <= pairTotal < 2 ^ 64 -> 0 < bucketNumber <= MaxInt ->
  pr_UpdateThreshold pr pairTotal bucketNumber
  = (mkPairRedistributor (loadFactor pr)
       (uint64_of_float64 uint64_unspecified
          (f64_mul (float64_of_uint64 (Z.max (pairTotal / bucketNumber) 100))
             (loadFactor pr)))
       (overweightBucketCount pr) (emptyBucketCount pr),
     Done tt).
Proof.
  intros Ht Hn. unfold pr_UpdateThreshold, store_upperThreshold.
  assert (Hw : wrap64 bucketNumber = bucketNumber).
  { unfold wrap64, MaxInt in *. apply Z.mod_small. lia. }
  rewrite Hw. destruct (Z.eqb_spec bucketNumber 0); [lia|].
  assert (Hq : 0 <= pairTotal / bucketNumber < 2 ^ 64).
  { split; [apply Z.div_pos; lia|].
    apply Z.div_lt_upper_bound; [lia|]. nia. }
  rewrite (f64_lt_100 _ Hq).
  destruct (Z.ltb_spec (pairTotal / bucketNumber) 100).
  - rewrite Z.max_r by lia. reflexivity.
  - rewrite Z.max_l by lia. reflexivity.
Qed.

(** * Further properties *)

(** ** The hash *)

Lemma hash_from_range (str : string) :
  forall h : Z, 0 <= h < 2 ^ 64 -> 0 <= hash_from h str < 2 ^ 64.
Proof.
  induction str as [|c rest IH]; intros h Hh; cbn [hash_from]; [exact Hh|].
  apply IH. unfold wrap64. apply Z.mod_pos_bound. lia.
Qed.

(** X1.  The hash of every key is below [2^63]: the top bit of the
    64-bit BKDR value is cleared, the other bits are kept. *)
Theorem hash_range (str : string) :
  0 <= hash str < 2 ^ 63 /\ hash str = hash_from 0 str mod 2 ^ 63.
Proof.
  unfold hash. change 0x7FFFFFFFFFFFFFFF with (Z.ones 63).
  rewrite Z.land_ones by lia. split; [|reflexivity].
  apply Z.mod_pos_bound. lia.
Qed.

(** The hash of a key extended by more bytes continues from the BKDR
    value of the key. *)
Lemma hash_from_app (s1 s2 : string) (h : Z) :
  hash_from h (s1 +:+ s2) = hash_from (hash_from h s1) s2.
Proof.
  revert h. induction s1 as [|c rest IH]; intros h; cbn; [reflexivity|].
  apply IH.
Qed.

(** ** Pairs *)

(** X2.  [SetNext] with a [*pair], nil pointer or not, stores it and
    returns no error, and [Next] then returns the pair stored (the nil
    interface for a nil pointer); with a value of another
    implementation it returns an [IllegalPairTypeError] and leaves the
    link as it was.  Key, hash and element never change. *)
Theorem SetNext_pointer_or_foreign (p : pair) :
  (forall q : pair,
      SetNext p (PairPtr (Some q)) = (store_next p (Some q), None)
      /\ Next (fst (SetNext p (PairPtr (Some q)))) = PairPtr (Some q))
  /\ (SetNext p (PairPtr None) = (store_next p None, None)
      /\ Next (fst (SetNext p (PairPtr None))) = PairNil)
  /\ (forall tyname : string,
        exists msg,
          SetNext p (PairForeign tyname) = (p, Some (IllegalPairTypeError msg)))
  /\ (forall nextPair : Pair,
        Key (fst (SetNext p nextPair)) = Key p
        /\ Hash (fst (SetNext p nextPair)) = Hash p
        /\ Element (fst (SetNext p nextPair)) = Element p).
Proof.
  split; [|split; [|split]].
  - intros q. split; reflexivity.
  - split; reflexivity.
  - intros tyname. eexists. reflexivity.
  - intros [|pp|tyname]; destruct p; repeat split.
Qed.

Lemma pair_run_keeps (ops : list pair_op) :
  forall p : pair,
    Element p <> None ->
    Key (pair_run p ops) = Key p
    /\ Hash (pair_run p ops) = Hash p
    /\ Element (pair_run p ops) <> None.
Proof.
  induction ops as [|op rest IH]; intros p He; [repeat split; exact He|].
  change (pair_run p (op :: rest)) with (pair_run (pair_apply p op) rest).
  assert (Hstep : Key (pair_apply p op) = Key p
                  /\ Hash (pair_apply p op) = Hash p
                  /\ Element (pair_apply p op) <> None).
  { destruct op as [[w|] | [|pp|tyname]]; destruct p;
      repeat split; try exact He; discriminate. }
  destruct Hstep as (Hk & Hh & He').
  destruct (IH _ He') as (Hk' & Hh' & He'').
  rewrite Hk', Hh', Hk, Hh. repeat split. exact He''.
Qed.

(** X3.  A pair made by [newPair] carries the hash of its key, and so
    it does after any sequence of [SetElement] and [SetNext] calls,
    failed ones included: the key and the hash stay, the element is
    never nil, and [Copy] returns a pair with the same key, the hash of
    the key, the current element and no successor. *)
Theorem pair_invariant (key : string) (v : V) (ops : list pair_op) :
  exists p,
    newPair key (Some v) = (Some p, None)
    /\ Key (pair_run p ops) = key
    /\ Hash (pair_run p ops) = hash key
    /\ exists w,
        Element (pair_run p ops) = Some w
        /\ Copy (pair_run p ops) = Some (mkPair key (hash key) (Some w) None).
Proof.
  exists (mkPair key (hash key) (Some v) None). split; [reflexivity|].
  destruct (pair_run_keeps ops (mkPair key (hash key) (Some v) None))
    as (Hk & Hh & He); [discriminate|].
  cbn [Key Hash pair_key pair_hash] in Hk, Hh.
  split; [exact Hk|]. split; [exact Hh|].
  destruct (Element (pair_run _ ops)) as [w|] eqn:Hw; [|contradiction].
  exists w. split; [reflexivity|].
  unfold Copy. rewrite Hw. unfold Key in Hk. rewrite Hk. reflexivity.
Qed.

(** A pair without element has no copy: [Copy] returns nil. *)
Lemma Copy_no_element (p : pair) : Element p = None -> Copy p = None.
Proof. unfold Copy. intros ->. reflexivity. Qed.

(** ** Construction *)

Lemma newDefaultPairRedistributor_done (lf : float64) (bucketNumber : Z) :
  0 < bucketNumber <= MaxInt ->
  let lf' := if f64_le lf (S754_zero false) then DEFAULT_BUCKET_LOAD_FACTOR else lf in
  newDefaultPairRedistributor lf bucketNumber
  = Done (mkPairRedistributor lf'
            (uint64_of_float64 uint64_unspecified (f64_mul f64_100 lf')) 0 0).
Proof.
  intros Hn lf'. unfold newDefaultPairRedistributor, pr_UpdateThreshold.
  fold lf'.
  assert (Hw : wrap64 bucketNumber = bucketNumber).
  { unfold wrap64, MaxInt in *. apply Z.mod_small. lia. }
  rewrite Hw. destruct (Z.eqb_spec bucketNumber 0); [lia|].
  rewrite Z.div_0_l by lia. reflexivity.
Qed.

(** X4.  [newDefaultPairRedistributor] with a positive bucket number
    returns a policy with both counters at zero, the load factor given
    or, if that is not above zero, the default one, and the threshold
    [uint64(100 * loadFactor)]. *)
Theorem newDefaultPairRedistributor_result (lf : float64) (bucketNumber : Z) :
  0 < bucketNumber <= MaxInt ->
  let lf' := if f64_le lf (S754_zero false) then DEFAULT_BUCKET_LOAD_FACTOR else lf in
  newDefaultPairRedistributor lf bucketNumber
  = Done (mkPairRedistributor lf'
            (uint64_of_float64 uint64_unspecified (f64_mul f64_100 lf')) 0 0).
Proof. intros. apply newDefaultPairRedistributor_done; assumption. Qed.

Lemma newSegment_done (bucketNumber : Z) (pairRedistributor : option PS) :
  0 < DEFAULT_BUCKET_NUMBER <= MaxInt -> bucketNumber <= MaxInt ->
  let n := if bucketNumber <=? 0 then DEFAULT_BUCKET_NUMBER else bucketNumber in
  exists pol : policy,
    newSegment bucketNumber pairRedistributor
    = Done (mkSegment (replicate (Z.to_nat n) (newBucket : Bucket)) n 0 pol)
    /\ segment_shape (mkSegment (replicate (Z.to_nat n) (newBucket : Bucket)) n 0 pol)
    /\ match pairRedistributor with
       | Some ps => pol = Custom ps
       | None =>
           exists pr,
             pol = Default pr
             /\ newDefaultPairRedistributor DEFAULT_BUCKET_LOAD_FACTOR n = Done pr
             /\ overweightBucketCount pr = 0 /\ emptyBucketCount pr = 0
       end.
Proof.
  intros HD Hn n.
  assert (Hpos : 0 < n <= MaxInt).
  { unfold n. destruct (Z.leb_spec bucketNumber 0); lia. }
  unfold newSegment. fold n.
  destruct (Z.ltb_spec n 0); [lia|].
  assert (Hshape : forall pol : policy,
    segment_shape (mkSegment (replicate (Z.to_nat n) (newBucket : Bucket)) n 0 pol)).
  { intros pol. split; cbn; [rewrite length_replicate; lia | exact Hpos]. }
  destruct pairRedistributor as [ps|].
  - exists (Custom ps). cbn [mbind panicking_bind].
    split; [reflexivity|]. split; [apply Hshape | reflexivity].
  - pose proof (newDefaultPairRedistributor_done DEFAULT_BUCKET_LOAD_FACTOR n Hpos)
      as Hpr. cbn zeta in Hpr. rewrite Hpr. cbn [mbind panicking_bind].
    eexists (Default _). split; [reflexivity|]. split; [apply Hshape|].
    eexists. split; [reflexivity|]. split; [reflexivity|]. split; reflexivity.
Qed.

(** X5.  [newSegment] returns a segment of regular shape and size zero
    with empty buckets: as many as asked for, or the default number if
    the number asked for is not positive; its policy is the caller's
    or, for nil, a new default policy. *)
Theorem newSegment_result (bucketNumber : Z) (pairRedistributor : option PS) :
  0 < DEFAULT_BUCKET_NUMBER <= MaxInt -> bucketNumber <= MaxInt ->
  let n := if bucketNumber <=? 0 then DEFAULT_BUCKET_NUMBER else bucketNumber in
  exists pol : policy,
    newSegment bucketNumber pairRedistributor
    = Done (mkSegment (replicate (Z.to_nat n) (newBucket : Bucket)) n 0 pol)
    /\ segment_shape (mkSegment (replicate (Z.to_nat n) (newBucket : Bucket)) n 0 pol)
    /\ match pairRedistributor with
       | Some ps => pol = Custom ps
       | None =>
           exists pr,
             pol = Default pr
             /\ newDefaultPairRedistributor DEFAULT_BUCKET_LOAD_FACTOR n = Done pr
             /\ overweightBucketCount pr = 0 /\ emptyBucketCount pr = 0
       end.
Proof. intros. apply newSegment_done; assumption. Qed.

Lemma NewConcurrentMap_done (c : Z) (pairRedistributor : option PS) :
  0 < DEFAULT_BUCKET_NUMBER <= MaxInt ->
  (c <= 0 ->
   @NewConcurrentMap V _ PS c pairRedistributor
   = Done (None, Some (IllegalParameterError
                         "concurrency map: illegal parameter: concurrency is too small")))
  /\ (0 < c -> MAX_CONCURRENCY < c ->
      @NewConcurrentMap V _ PS c pairRedistributor
      = Done (None, Some (IllegalParameterError
                            "concurrency map: illegal parameter: concurrency is too large")))
  /\ (0 < c <= MAX_CONCURRENCY ->
      exists s : segment policy,
        newSegment DEFAULT_BUCKET_NUMBER pairRedistributor = Done s
        /\ NewConcurrentMap c pairRedistributor
           = Done (Some (mkConcurrentMap c (replicate (Z.to_nat c) s) 0), None)
        /\ Z.of_nat (length (replicate (Z.to_nat c) s)) = c
        /\ bucketsLen s = DEFAULT_BUCKET_NUMBER /\ segment_Size s = 0).
Proof.
  intros HD. unfold NewConcurrentMap. split; [|split].
  - intros Hc. destruct (Z.leb_spec c 0); [reflexivity | lia].
  - intros Hc HM. destruct (Z.leb_spec c 0); [lia|].
    destruct (Z.gtb_spec c MAX_CONCURRENCY); [reflexivity | lia].
  - intros Hc. destruct (Z.leb_spec c 0); [lia|].
    destruct (Z.gtb_spec c MAX_CONCURRENCY); [lia|].
    destruct (newSegment_done DEFAULT_BUCKET_NUMBER pairRedistributor HD)
      as (pol & Hnew & _); [lia|].
    destruct (Z.leb_spec DEFAULT_BUCKET_NUMBER 0); [lia|].
    rewrite Hnew. cbn [mbind panicking_bind]. eexists. split; [reflexivity|].
    split; [reflexivity|]. rewrite length_replicate.
    split; [lia|]. split; reflexivity.
Qed.

(** X6.  [NewConcurrentMap] returns an [IllegalParameterError] and no
    map exactly when the concurrency is not positive or above
    [MAX_CONCURRENCY]; otherwise it returns a map of that concurrency
    with as many segments, each as [newSegment] makes it for the
    default bucket number, and [Len] zero. *)
Theorem NewConcurrentMap_result (c : Z) (pairRedistributor : option PS) :
  0 < DEFAULT_BUCKET_NUMBER <= MaxInt ->
  (c <= 0 ->
   @NewConcurrentMap V _ PS c pairRedistributor
   = Done (None, Some (IllegalParameterError
                         "concurrency map: illegal parameter: concurrency is too small")))
  /\ (0 < c -> MAX_CONCURRENCY < c ->
      @NewConcurrentMap V _ PS c pairRedistributor
      = Done (None, Some (IllegalParameterError
                            "concurrency map: illegal parameter: concurrency is too large")))
  /\ (0 < c <= MAX_CONCURRENCY ->
      exists s : segment policy,
        newSegment DEFAULT_BUCKET_NUMBER pairRedistributor = Done s
        /\ NewConcurrentMap c pairRedistributor
           = Done (Some (mkConcurrentMap c (replicate (Z.to_nat c) s) 0), None)
        /\ Z.of_nat (length (replicate (Z.to_nat c) s)) = c
        /\ bucketsLen s = DEFAULT_BUCKET_NUMBER /\ segment_Size s = 0).
Proof. intros. apply NewConcurrentMap_done; assumption. Qed.

(** ** Sizes *)

Lemma segment_redistribute_total {PR : Type} `{PairRedistributor V PR}
    (s : segment PR) (t z : Z) :
  pairTotal (fst (segment_redistribute s t z)) = pairTotal s.
Proof.
  unfold segment_redistribute.
  destruct (UpdateThreshold _ _ _) as [pol1 [[]|v1]]; [|reflexivity].
  destruct (CheckBucketStatus _ _ _) as [pol2 [st|v2]]; [|reflexivity].
  destruct (Redistribe _ _ _) as [[pol3 inplace] [[newBuckets change]|v3]];
    [|reflexivity].
  destruct change; reflexivity.
Qed.

Lemma wrap64_pred (z : Z) : wrap64 (z + (2 ^ 64 - 1)) = wrap64 (z - 1).
Proof.
  unfold wrap64. replace (z + (2 ^ 64 - 1)) with (z - 1 + 1 * 2 ^ 64) by lia.
  apply Z.mod_add. lia.
Qed.

Lemma segment_Size_change {PR : Type} `{PairRedistributor V PR} (s : segment PR) :
  (forall (p : pair) (s' : segment PR) (ok : bool) (err : option error),
      segment_Put s p = Done (s', (ok, err)) ->
      segment_Size s'
      = if ok then wrap64 (segment_Size s + 1) else segment_Size s)
  /\ (forall (key : string) (s' : segment PR) (ok : bool),
        segment_Delete s key = Done (s', ok) ->
        segment_Size s'
        = if ok then wrap64 (segment_Size s - 1) else segment_Size s).
Proof.
  unfold segment_Size. split.
  - intros p s' ok err. unfold segment_Put.
    destruct (bucket_index s (Hash p)) as [index|v]; cbn [mbind panicking_bind];
      [|discriminate].
    destruct (buckets s !! index) as [b|]; [|discriminate].
    destruct (bucket_Put b p) as [b' [ok' err']]. destruct ok'.
    + cbn [pairTotal buckets bucketsLen pairRedistributor].
      pose proof (segment_redistribute_total
                    (mkSegment (<[index := b']> (buckets s)) (bucketsLen s)
                       (wrap64 (pairTotal s + 1)) (pairRedistributor s))
                    (wrap64 (pairTotal s + 1)) (bucket_Size b')) as Ht.
      destruct (segment_redistribute _ _ _) as [s3 e].
      intros [= <- <- <-]. exact Ht.
    + intros [= <- <- <-]. reflexivity.
  - intros key s' ok. unfold segment_Delete.
    destruct (bucket_index s (hash key)) as [index|v]; cbn [mbind panicking_bind];
      [|discriminate].
    destruct (buckets s !! index) as [b|]; [|discriminate].
    destruct (bucket_Delete b key) as [b' ok']. destruct ok'.
    + cbn [pairTotal buckets bucketsLen pairRedistributor].
      pose proof (segment_redistribute_total
                    (mkSegment (<[index := b']> (buckets s)) (bucketsLen s)
                       (wrap64 (pairTotal s + (2 ^ 64 - 1))) (pairRedistributor s))
                    (wrap64 (pairTotal s + (2 ^ 64 - 1))) (bucket_Size b')) as Ht.
      destruct (segment_redistribute _ _ _) as [s3 e].
      intros [= <- <-]. cbn [fst pairTotal] in Ht. rewrite Ht. apply wrap64_pred.
    + intros [= <- <-]. reflexivity.
Qed.

(** X7.  Whatever the policy does, a [Put] that returns leaves the size
    of the segment one higher if the pair was new and unchanged if not,
    and a [Delete] that returns leaves it one lower if the key was
    there and unchanged if not (in [uint64] arithmetic). *)
Theorem segment_Size_step {PR : Type} `{PairRedistributor V PR} (s : segment PR) :
  (forall (p : pair) (s' : segment PR) (ok : bool) (err : option error),
      segment_Put s p = Done (s', (ok, err)) ->
      segment_Size s'
      = if ok then wrap64 (segment_Size s + 1) else segment_Size s)
  /\ (forall (key : string) (s' : segment PR) (ok : bool),
        segment_Delete s key = Done (s', ok) ->
        segment_Size s'
        = if ok then wrap64 (segment_Size s - 1) else segment_Size s).
Proof. intros. apply segment_Size_change; assumption. Qed.

(** X8.  In a segment of regular shape that uses the default policy,
    the redistribution check returns no error, keeps the size, and
    leaves a segment with the default policy whose [bucketsLen] is the
    length of its bucket slice and is the old number or twice that. *)
Theorem redistribute_default_no_error (s : segment policy)
    (pr : myPairRedistributor) (newTotal bucketSize : Z) :
  segment_shape s -> pairRedistributor s = Default pr ->
  0 <= overweightBucketCount pr ->
  exists s' pr',
    segment_redistribute s newTotal bucketSize = (s', None)
    /\ pairRedistributor s' = Default pr'
    /\ pairTotal s' = pairTotal s
    /\ bucketsLen s' = Z.of_nat (length (buckets s'))
    /\ (bucketsLen s' = bucketsLen s \/ bucketsLen s' = 2 * bucketsLen s).
Proof.
  intros Hshape Hpol Ho. pose proof Hshape as [Hlen Hb].
  destruct (segment_redistribute_default s pr newTotal bucketSize Hshape Hpol Ho)
    as (pr' & _ & [Hr | (filled & _ & Hl & _ & _ & Hr)]);
    rewrite Hr; eexists _, pr'; (split; [reflexivity|]); cbn.
  - split; [reflexivity|]. split; [reflexivity|]. split; [exact Hlen|].
    left. reflexivity.
  - split; [reflexivity|]. split; [reflexivity|]. split; [lia|].
    right. reflexivity.
Qed.

(** ** The total of the map *)

Lemma cmap_Put_inv (cmap cmap' : myConcurrentMap) (key : string)
    (element : option V) (ok : bool) (err : option error) :
  cmap_Put cmap key element = Done (cmap', (ok, err)) ->
  (element = None /\ cmap' = cmap /\ ok = false)
  \/ exists v s s',
      element = Some v
      /\ segments cmap !! O = Some s
      /\ segment_Put s (mkPair key (hash key) (Some v) None) = Done (s', (ok, err))
      /\ cmap' = mkConcurrentMap (concurrency cmap)
                   (store_segment (segments cmap) O s')
                   (if ok then wrap64 (total cmap + 1) else total cmap).
Proof.
  unfold cmap_Put. destruct element as [v|].
  - rewrite newPair_element, findSegment_zero. change (Z.to_nat 0) with O.
    destruct (segments cmap !! O) as [s|]; [|discriminate].
    destruct (segment_Put s _) as [[s' [ok' err']]|pv] eqn:Hput; [|discriminate].
    intros [= <- <- <-]. right. exists v, s, s'.
    split; [reflexivity|]. split; [reflexivity|]. split; [exact Hput|].
    destruct ok'; reflexivity.
  - cbn. intros [= <- <- <-]. left. repeat split.
Qed.

Lemma cmap_Delete_inv (cmap cmap' : myConcurrentMap) (key : string) (ok : bool) :
  cmap_Delete cmap key = Done (cmap', ok) ->
  exists s s',
    segments cmap !! O = Some s
    /\ segment_Delete s key = Done (s', ok)
    /\ cmap' = mkConcurrentMap (concurrency cmap)
                 (store_segment (segments cmap) O s')
                 (if ok then wrap64 (total cmap - 1) else total cmap).
Proof.
  unfold cmap_Delete. rewrite findSegment_zero. change (Z.to_nat 0) with O.
  destruct (segments cmap !! O) as [s|]; [|discriminate].
  destruct (segment_Delete s key) as [[s' ok']|pv] eqn:Hdel; [|discriminate].
  destruct ok'; intros [= <- <-]; exists s, s';
    (split; [reflexivity|]); (split; [exact Hdel|]); [|reflexivity].
  rewrite wrap64_pred. reflexivity.
Qed.

Lemma share_policy_fields (pol : policy) (s : segment policy) :
  buckets (share_policy pol s) = buckets s
  /\ bucketsLen (share_policy pol s) = bucketsLen s
  /\ pairTotal (share_policy pol s) = pairTotal s.
Proof.
  unfold share_policy. destruct pol; [|repeat split].
  destruct (pairRedistributor s); repeat split.
Qed.

Lemma segments_total_cons (s : segment policy) (segs : list (segment policy)) :
  segments_total (s :: segs) = segment_Size s + segments_total segs.
Proof. reflexivity. Qed.

Lemma segments_total_share (pol : policy) (segs : list (segment policy)) :
  segments_total (share_policy pol <$> segs) = segments_total segs.
Proof.
  induction segs as [|s segs IH]; [reflexivity|].
  change (share_policy pol <$> s :: segs)
    with (share_policy pol s :: (share_policy pol <$> segs)).
  rewrite !segments_total_cons, IH. unfold segment_Size.
  destruct (share_policy_fields pol s) as (_ & _ & ->). reflexivity.
Qed.

Lemma segments_total_insert (segs : list (segment policy)) :
  forall (i : nat) (s s' : segment policy),
    segs !! i = Some s ->
    segments_total (<[i := s']> segs)
    = segments_total segs - pairTotal s + pairTotal s'.
Proof.
  induction segs as [|s0 segs IH]; intros i s s' Hi; [discriminate|].
  destruct i as [|i].
  - injection Hi as ->.
    change (<[O := s']> (s :: segs)) with (s' :: segs).
    rewrite !segments_total_cons. unfold segment_Size. lia.
  - change (<[S i := s']> (s0 :: segs)) with (s0 :: <[i := s']> segs).
    rewrite !segments_total_cons, (IH i s s' Hi). lia.
Qed.

Lemma segments_total_store (segs : list (segment policy)) (i : nat)
    (s s' : segment policy) :
  segs !! i = Some s ->
  segments_total (store_segment segs i s')
  = segments_total segs - pairTotal s + pairTotal s'.
Proof.
  intros Hi. unfold store_segment.
  rewrite segments_total_share. apply segments_total_insert. exact Hi.
Qed.

Lemma wrap64_idem_add (a b : Z) : wrap64 (wrap64 a + b) = wrap64 (a + b).
Proof. unfold wrap64. apply Zplus_mod_idemp_l. Qed.

Lemma wrap64_shift (sum t d : Z) :
  wrap64 (wrap64 sum + d) = wrap64 (sum - t + wrap64 (t + d)).
Proof.
  unfold wrap64. rewrite Zplus_mod_idemp_l, Zplus_mod_idemp_r.
  f_equal. lia.
Qed.

Lemma total_step (cmap cmap' : myConcurrentMap) (op : cmap_op) :
  total cmap = wrap64 (segments_total (segments cmap)) ->
  cmap_apply cmap op = Done cmap' ->
  total cmap' = wrap64 (segments_total (segments cmap')).
Proof.
  intros Hinv. destruct op as [key element | key]; cbn [cmap_apply].
  - destruct (cmap_Put cmap key element) as [[cmap1 [ok err]]|pv] eqn:Hput;
      cbn [mbind panicking_bind fst]; [|discriminate].
    intros [= <-].
    apply cmap_Put_inv in Hput
      as [(_ & -> & _) | (v & s & s' & _ & Hs & Hseg & ->)]; [exact Hinv|].
    cbn [total segments]. rewrite (segments_total_store _ _ s s' Hs).
    destruct (segment_Size_change s) as [Hsize _].
    specialize (Hsize _ _ _ _ Hseg). unfold segment_Size in Hsize. rewrite Hsize.
    destruct ok.
    + rewrite Hinv. apply wrap64_shift.
    + rewrite Hinv. f_equal. lia.
  - destruct (cmap_Delete cmap key) as [[cmap1 ok]|pv] eqn:Hdel;
      cbn [mbind panicking_bind fst]; [|discriminate].
    intros [= <-].
    apply cmap_Delete_inv in Hdel as (s & s' & Hs & Hseg & ->).
    cbn [total segments]. rewrite (segments_total_store _ _ s s' Hs).
    destruct (segment_Size_change s) as [_ Hsize].
    specialize (Hsize _ _ _ Hseg). unfold segment_Size in Hsize. rewrite Hsize.
    destruct ok.
    + rewrite Hinv. replace (wrap64 (segments_total (segments cmap)) - 1)
        with (wrap64 (segments_total (segments cmap)) + (-1)) by lia.
      replace (pairTotal s - 1) with (pairTotal s + (-1)) by lia.
      apply wrap64_shift.
    + rewrite Hinv. f_equal. lia.
Qed.

Lemma total_run (ops : list cmap_op) :
  forall cmap cmap' : myConcurrentMap,
    total cmap = wrap64 (segments_total (segments cmap)) ->
    cmap_run cmap ops = Done cmap' ->
    total cmap' = wrap64 (segments_total (segments cmap')).
Proof.
  induction ops as [|op rest IH]; intros cmap cmap' Hinv; cbn [cmap_run].
  - intros [= <-]. exact Hinv.
  - destruct (cmap_apply cmap op) as [cmap1|pv] eqn:Hop;
      cbn [mbind panicking_bind]; [|discriminate].
    apply IH. eapply total_step; eassumption.
Qed.

Lemma segments_total_replicate (n : nat) (s : segment policy) :
  pairTotal s = 0 -> segments_total (replicate n s) = 0.
Proof.
  intros Hs. induction n as [|n IH]; [reflexivity|].
  change (replicate (S n) s) with (s :: replicate n s).
  rewrite segments_total_cons, IH. unfold segment_Size. lia.
Qed.

(** X9.  With any policy, after every run of [Put] and [Delete] calls
    that returns on a map that [NewConcurrentMap] returned, [Len] is the
    sum of the sizes of the segments (in [uint64] arithmetic). *)
Theorem Len_is_sum_of_sizes (c : Z) (pairRedistributor : option PS)
    (cmap0 cmap : myConcurrentMap) (ops : list cmap_op) :
  NewConcurrentMap c pairRedistributor = Done (Some cmap0, None) ->
  cmap_run cmap0 ops = Done cmap ->
  cmap_Len cmap = wrap64 (segments_total (segments cmap)).
Proof.
  intros Hnew Hrun. unfold cmap_Len. apply (total_run ops cmap0); [|exact Hrun].
  unfold NewConcurrentMap in Hnew.
  destruct (c <=? 0); [discriminate|]. destruct (c >? MAX_CONCURRENCY); [discriminate|].
  destruct (newSegment DEFAULT_BUCKET_NUMBER pairRedistributor) as [s|pv] eqn:Hs;
    cbn [mbind panicking_bind] in Hnew; [|discriminate].
  injection Hnew as <-. cbn [total segments].
  rewrite segments_total_replicate; [reflexivity|].
  unfold newSegment in Hs.
  destruct (match pairRedistributor with Some ps => _ | None => _ end) as [pol|pv];
    cbn [mbind panicking_bind] in Hs; [|discriminate].
  destruct (_ <? 0); [discriminate|]. injection Hs as <-. reflexivity.
Qed.

(** X10.  A [Put] or [Delete] on the map that returns leaves every
    segment but the first with the buckets, bucket number and size it
    had: all calls are routed to the first segment. *)
Theorem other_segments_untouched (cmap cmap' : myConcurrentMap) (op : cmap_op) :
  cmap_apply cmap op = Done cmap' ->
  forall (i : nat) (s : segment policy),
    (0 < i)%nat -> segments cmap !! i = Some s ->
    exists s',
      segments cmap' !! i = Some s'
      /\ buckets s' = buckets s /\ bucketsLen s' = bucketsLen s
      /\ segment_Size s' = segment_Size s.
Proof.
  intros Hop i s Hi Hs.
  assert (Hstore : forall s1 : segment policy,
    exists s',
      store_segment (segments cmap) O s1 !! i = Some s'
      /\ buckets s' = buckets s /\ bucketsLen s' = bucketsLen s
      /\ segment_Size s' = segment_Size s).
  { intros s1. unfold store_segment. rewrite list_lookup_fmap.
    rewrite list_lookup_insert_ne by lia. rewrite Hs. cbn.
    eexists. split; [reflexivity|]. apply share_policy_fields. }
  destruct op as [key element | key]; cbn [cmap_apply] in Hop.
  - destruct (cmap_Put cmap key element) as [[cmap1 [ok err]]|pv] eqn:Hput;
      cbn [mbind panicking_bind fst] in Hop; [|discriminate].
    injection Hop as <-.
    apply cmap_Put_inv in Hput
      as [(_ & -> & _) | (v & s0 & s1 & _ & _ & _ & ->)].
    + exists s. repeat split. exact Hs.
    + apply Hstore.
  - destruct (cmap_Delete cmap key) as [[cmap1 ok]|pv] eqn:Hdel;
      cbn [mbind panicking_bind fst] in Hop; [|discriminate].
    injection Hop as <-.
    apply cmap_Delete_inv in Hdel as (s0 & s1 & _ & _ & ->). apply Hstore.
Qed.

(** ** Calls on a map in regular state *)

Lemma cmap_Get_wf (cmap : myConcurrentMap) (key : string) :
  cmap_wf cmap ->
  cmap_Get cmap key
  = Done match cmap_entry cmap key with
         | Some c => Element c
         | None => None
         end.
Proof.
  intros Hwf.
  destruct (cmap_wf_first cmap Hwf) as (s & pr & Hs & [[Hlen Hb] _] & _).
  rewrite (cmap_entry_first cmap s key Hs).
  apply cmap_Get_entry; [exact Hs | exact Hlen |]. unfold MaxInt in Hb. lia.
Qed.

Lemma cmap_Put_wf (cmap : myConcurrentMap) (key : string) (v : V) :
  cmap_wf cmap ->
  let new := match cmap_entry cmap key with Some _ => false | None => true end in
  exists cmap',
    cmap_Put cmap key (Some v) = Done (cmap', (new, None))
    /\ concurrency cmap' = concurrency cmap
    /\ length (segments cmap') = length (segments cmap)
    /\ total cmap' = (if new then wrap64 (total cmap + 1) else total cmap)
    /\ forall key',
        cmap_Get cmap' key'
        = if decide (key' = key) then Done (Some v) else cmap_Get cmap key'.
Proof.
  intros Hwf new. pose proof Hwf as [Hlen _].
  destruct (cmap_wf_first cmap Hwf) as (s & pr & Hs & Hswf & Hpol & Ho).
  destruct (cmap_Put_default cmap s pr key v Hs Hswf Hpol Ho)
    as (s' & Hput & Hstep & Hlook).
  unfold new. rewrite (cmap_entry_first cmap s key Hs).
  eexists. split; [exact Hput|]. cbn [concurrency segments total].
  split; [reflexivity|]. split; [apply length_insert|]. split; [reflexivity|].
  intros key'.
  destruct (default_step_range s s' pr (proj1 Hswf) Hstep) as [Hlen' Hb'].
  rewrite (cmap_Get_entry _ s' key'); try assumption.
  - rewrite Hlook. destruct (decide (key' = key)); [reflexivity|].
    rewrite (cmap_Get_wf cmap key' Hwf), (cmap_entry_first cmap s key' Hs).
    reflexivity.
  - cbn [segments]. apply list_lookup_insert_eq. exact Hlen.
Qed.

Lemma cmap_Delete_wf (cmap : myConcurrentMap) (key : string) :
  cmap_wf cmap ->
  let found := match cmap_entry cmap key with Some _ => true | None => false end in
  exists cmap',
    cmap_Delete cmap key = Done (cmap', found)
    /\ concurrency cmap' = concurrency cmap
    /\ length (segments cmap') = length (segments cmap)
    /\ total cmap' = (if found then wrap64 (total cmap - 1) else total cmap)
    /\ forall key',
        cmap_Get cmap' key'
        = if decide (key' = key) then Done None else cmap_Get cmap key'.
Proof.
  intros Hwf found. pose proof Hwf as [Hlen _].
  destruct (cmap_wf_first cmap Hwf) as (s & pr & Hs & Hswf & Hpol & Ho).
  destruct (cmap_Delete_default cmap s pr key Hs Hswf Hpol Ho)
    as (s' & Hdel & Hstep & Hlook).
  unfold found. rewrite (cmap_entry_first cmap s key Hs).
  eexists. split; [exact Hdel|]. cbn [concurrency segments total].
  split; [reflexivity|]. split; [apply length_insert|].
  split; [destruct (segment_entry s key); [apply wrap64_pred | reflexivity]|].
  intros key'.
  destruct (default_step_range s s' pr (proj1 Hswf) Hstep) as [Hlen' Hb'].
  rewrite (cmap_Get_entry _ s' key'); try assumption.
  - rewrite Hlook. destruct (decide (key' = key)); [reflexivity|].
    rewrite (cmap_Get_wf cmap key' Hwf), (cmap_entry_first cmap s key' Hs).
    reflexivity.
  - cbn [segments]. apply list_lookup_insert_eq. exact Hlen.
Qed.

(** X11.  On a map in regular state [Delete] returns; afterwards [Get]
    of the key returns nil and [Get] of every other key returns what it
    returned before; [Len] is one lower if the result is [true] and
    unchanged if not.  The result is [true] if [Get] returned an element
    for the key, and a [Delete] that returns [false] changes no [Get]. *)
Theorem Delete_removes_key (cmap : myConcurrentMap) (key : string) :
  cmap_wf cmap ->
  exists cmap' ok,
    cmap_Delete cmap key = Done (cmap', ok)
    /\ cmap_Get cmap' key = Done None
    /\ (forall key', key' <> key -> cmap_Get cmap' key' = cmap_Get cmap key')
    /\ cmap_Len cmap' = (if ok then wrap64 (cmap_Len cmap - 1) else cmap_Len cmap)
    /\ (forall w, cmap_Get cmap key = Done (Some w) -> ok = true)
    /\ (ok = false -> forall key', cmap_Get cmap' key' = cmap_Get cmap key').
Proof.
  intros Hwf.
  destruct (cmap_Delete_wf cmap key Hwf) as (cmap' & Hdel & _ & _ & Htot & Hget).
  eexists cmap', _. split; [exact Hdel|]. split; [|split; [|split; [|split]]].
  - rewrite Hget. destruct (decide (key = key)); [reflexivity | contradiction].
  - intros key' Hne. rewrite Hget.
    destruct (decide (key' = key)); [contradiction | reflexivity].
  - exact Htot.
  - intros w Hw. rewrite (cmap_Get_wf cmap key Hwf) in Hw.
    destruct (cmap_entry cmap key); [reflexivity | discriminate].
  - intros Hok key'. rewrite Hget.
    destruct (decide (key' = key)) as [->|]; [|reflexivity].
    rewrite (cmap_Get_wf cmap key Hwf).
    destruct (cmap_entry cmap key); [discriminate | reflexivity].
Qed.

(** X12.  On a map in regular state [Put] of an element that is not nil
    returns with a nil error and leaves [Get] of every other key as it
    was; [Len] is one higher if the result is [true] and unchanged if
    not; the result is [false] if [Get] returned an element for the key;
    the concurrency and the number of segments stay. *)
Theorem Put_keeps_other_keys (cmap : myConcurrentMap) (key : string) (v : V) :
  cmap_wf cmap ->
  exists cmap' ok,
    cmap_Put cmap key (Some v) = Done (cmap', (ok, None))
    /\ (forall key', key' <> key -> cmap_Get cmap' key' = cmap_Get cmap key')
    /\ cmap_Len cmap' = (if ok then wrap64 (cmap_Len cmap + 1) else cmap_Len cmap)
    /\ (forall w, cmap_Get cmap key = Done (Some w) -> ok = false)
    /\ Concurrency cmap' = Concurrency cmap
    /\ length (segments cmap') = length (segments cmap).
Proof.
  intros Hwf.
  destruct (cmap_Put_wf cmap key v Hwf) as (cmap' & Hput & Hc & Hl & Htot & Hget).
  eexists cmap', _. split; [exact Hput|]. split; [|split; [|split; [|split]]].
  - intros key' Hne. rewrite Hget.
    destruct (decide (key' = key)); [contradiction | reflexivity].
  - exact Htot.
  - intros w Hw. rewrite (cmap_Get_wf cmap key Hwf) in Hw.
    destruct (cmap_entry cmap key); [reflexivity | discriminate].
  - exact Hc.
  - exact Hl.
Qed.

(** X13.  On a map with room for two calls, [Put] of a key and then
    [Delete] of it both return, the [Delete] with [true]; afterwards
    [Get] of the key returns nil, [Get] of every other key returns what
    it returned before the two calls, and [Len] is what it was if the
    key was new and one lower if it was not. *)
Theorem Put_then_Delete (cmap : myConcurrentMap) (key : string) (v : V) :
  cmap_ready 2 cmap ->
  exists cmap1 ok cmap2,
    cmap_Put cmap key (Some v) = Done (cmap1, (ok, None))
    /\ cmap_Delete cmap1 key = Done (cmap2, true)
    /\ cmap_Get cmap2 key = Done None
    /\ (forall key', key' <> key -> cmap_Get cmap2 key' = cmap_Get cmap key')
    /\ cmap_Len cmap2
       = wrap64 (if ok then cmap_Len cmap else cmap_Len cmap - 1).
Proof.
  intros Hready.
  destruct (cmap_Put_ready 2 cmap key v ltac:(lia) Hready)
    as (cmap1 & Hput & Hready1 & Htot1 & Hlook1).
  change (2 - 1) with 1 in Hready1.
  destruct (cmap_Delete_ready 1 cmap1 key ltac:(lia) Hready1)
    as (cmap2 & Hdel & Hready2 & Htot2 & Hlook2).
  rewrite Hlook1 in Hdel, Htot2.
  destruct (decide (key = key)) as [_|]; [|contradiction].
  eexists cmap1, _, cmap2. split; [exact Hput|]. split; [exact Hdel|].
  split; [|split].
  - rewrite (cmap_Get_ready _ cmap2 key Hready2), Hlook2.
    destruct (decide (key = key)); [reflexivity | contradiction].
  - intros key' Hne.
    rewrite (cmap_Get_ready _ cmap2 key' Hready2), Hlook2.
    rewrite (cmap_Get_ready _ cmap key' Hready).
    destruct (decide (key' = key)); [contradiction|].
    rewrite Hlook1. destruct (decide (key' = key)); [contradiction | reflexivity].
  - unfold cmap_Len. rewrite Htot2, Htot1, wrap64_pred.
    destruct (cmap_entry cmap key).
    + reflexivity.
    + unfold wrap64. rewrite Zminus_mod_idemp_l. f_equal. lia.
Qed.

(** ** Counting pairs by their keys *)

Lemma pair_count_keys (bs : list Bucket) :
  pair_count bs = length (map Key (concat (map bucket_entries bs))).
Proof.
  unfold pair_count. rewrite all_entries_nodes, !length_map. reflexivity.
Qed.

Lemma key_stored (n : Z) (bs : list Bucket) (key : string) :
  buckets_ok n bs ->
  key ∈ map Key (concat (map bucket_entries bs))
  <-> lookup_entry bs n key <> None.
Proof.
  intros Hok. rewrite <- (find_all_entries n bs key Hok), list_elem_of_In.
  destruct (find (has_key key) (concat (map bucket_entries bs))) as [c|] eqn:Hf.
  - split; [discriminate|]. intros _.
    apply find_key_some in Hf as [Hin Hk].
    apply in_map_iff. exists c. split; assumption.
  - apply find_key_none in Hf. split; [contradiction | congruence].
Qed.

Lemma pair_count_same (n m : Z) (bs bs' : list Bucket) :
  buckets_ok n bs -> buckets_ok m bs' ->
  (forall key, lookup_entry bs' m key = None <-> lookup_entry bs n key = None) ->
  pair_count bs' = pair_count bs.
Proof.
  intros Hok Hok' Hsame. rewrite !pair_count_keys.
  apply Permutation_length, NoDup_Permutation.
  - apply (all_entries_NoDup m), Hok'.
  - apply (all_entries_NoDup n), Hok.
  - intros key. rewrite (key_stored m bs' key Hok'), (key_stored n bs key Hok).
    split; intros Hx Hy; apply Hx, Hsame, Hy.
Qed.

Lemma pair_count_add (n m : Z) (bs bs' : list Bucket) (key : string) :
  buckets_ok n bs -> buckets_ok m bs' ->
  lookup_entry bs n key = None -> lookup_entry bs' m key <> None ->
  (forall key', key' <> key ->
     (lookup_entry bs' m key' = None <-> lookup_entry bs n key' = None)) ->
  pair_count bs' = S (pair_count bs).
Proof.
  intros Hok Hok' Hnew Hin Hsame. rewrite !pair_count_keys.
  change (S (length (map Key (concat (map bucket_entries bs)))))
    with (length (key :: map Key (concat (map bucket_entries bs)))).
  apply Permutation_length, NoDup_Permutation.
  - apply (all_entries_NoDup m), Hok'.
  - apply NoDup_cons. split; [|apply (all_entries_NoDup n), Hok].
    rewrite (key_stored n bs key Hok). intros Hx. apply Hx, Hnew.
  - intros k. rewrite elem_of_cons.
    rewrite (key_stored m bs' k Hok'), (key_stored n bs k Hok).
    destruct (decide (k = key)) as [->|Hne].
    + split; [left; reflexivity | intros _; exact Hin].
    + split.
      * intros Hx. right. intros Hy. apply Hx, (Hsame k Hne), Hy.
      * intros [Heq | Hx]; [contradiction|].
        intros Hy. apply Hx, (Hsame k Hne), Hy.
Qed.

Lemma slice_Get_entry (bs : list Bucket) (key : string) :
  detach <$> slice_Get bs key = lookup_entry bs (Z.of_nat (length bs)) key.
Proof.
  unfold slice_Get, lookup_entry.
  destruct (bs !! Z.to_nat (hash key mod Z.of_nat (length bs))) as [b|];
    [|reflexivity].
  apply bucket_Get_entries.
Qed.

(** X14.  When [Redistribe] of the default policy reports a change on
    buckets that are in order, the slice it returns is not empty and in
    order for its own length, a lookup of any key in it finds the pair
    with the key, hash and element that the lookup found before, and it
    holds as many pairs as the old slice. *)
Theorem Redistribe_keeps_pairs (pr pr' : myPairRedistributor) (st : BucketStatus)
    (bs inplace filled : list Bucket) :
  buckets_ok (Z.of_nat (length bs)) bs -> Z.of_nat (length bs) <= MaxInt ->
  pr_Redistribe pr st bs = ((pr', inplace), Done (filled, true)) ->
  filled <> []
  /\ buckets_ok (Z.of_nat (length filled)) filled
  /\ (forall key, detach <$> slice_Get filled key = detach <$> slice_Get bs key)
  /\ pair_count filled = pair_count bs.
Proof.
  intros Hok Hlen Hred.
  pose proof (pr_Redistribe_outcome pr st bs Hlen) as Hout.
  destruct (resize_target pr st (Z.of_nat (length bs))) as [newNumber|] eqn:Ht;
    [|rewrite Hout in Hred; discriminate].
  destruct (Z.eqb_spec newNumber (Z.of_nat (length bs))) as [|Hne];
    [rewrite Hout in Hred; discriminate|].
  destruct Hout as (inplace0 & filled0 & Heq & Hrehash & Hlenf).
  rewrite Heq in Hred. injection Hred as _ _ ->.
  assert (Hpos : 0 < newNumber).
  { destruct (resize_target_status pr st _ _ Ht) as [-> | ->].
    - apply resize_target_overweight in Ht as [_ ->]; lia.
    - apply resize_target_underweight in Ht as (_ & _ & ->). lia. }
  destruct (rehash_slice (Z.of_nat (length bs)) newNumber bs Hok Hpos)
    as (filled1 & Hrehash1 & _ & Hok1 & Hsame).
  rewrite Hrehash in Hrehash1. injection Hrehash1 as <-.
  rewrite Hlenf. split; [|split; [exact Hok1|split]].
  - intros ->. cbn in Hlenf. lia.
  - intros key. rewrite !slice_Get_entry, Hlenf. apply Hsame.
  - apply (pair_count_same (Z.of_nat (length bs)) newNumber); try assumption.
    intros key. rewrite Hsame. reflexivity.
Qed.

(** ** Iteration *)

Lemma visit_all_app {A : Type} (fn : string -> option V -> A -> A)
    (l1 l2 : list pair) (acc : A) :
  visit_all fn (l1 ++ l2) acc = visit_all fn l2 (visit_all fn l1 acc).
Proof. unfold visit_all. apply foldl_app. Qed.

Lemma chain_ForEach_nodes {A : Type} (fn : string -> option V -> A -> A)
    (p : pair) :
  forall acc : A, chain_ForEach fn p acc = visit_all fn (chain_nodes p) acc.
Proof.
  induction p as [k h e | k h e q IH] using pair_chain_ind; intros acc;
    cbn [chain_ForEach chain_nodes]; [reflexivity|].
  apply IH.
Qed.

Lemma bucket_ForEach_nodes {A : Type} (fn : string -> option V -> A -> A)
    (b : Bucket) (acc : A) :
  bucket_ForEach fn b acc = visit_all fn (bucket_nodes b) acc.
Proof.
  unfold bucket_ForEach, bucket_nodes.
  destruct (bucket_GetFirstPair b); [apply chain_ForEach_nodes | reflexivity].
Qed.

Lemma buckets_ForEach_nodes {A : Type} (fn : string -> option V -> A -> A)
    (bs : list Bucket) :
  forall (count i : nat) (acc : A),
    (i + count)%nat = length bs ->
    buckets_ForEach fn bs i count acc
    = (visit_all fn (concat (map bucket_nodes (drop i bs))) acc, Done tt).
Proof.
  induction count as [|count IH]; intros i acc Hlen; cbn [buckets_ForEach].
  - rewrite drop_ge by lia. reflexivity.
  - destruct (bs !! i) as [b|] eqn:Hb.
    + rewrite IH by lia. rewrite (drop_S _ _ _ Hb). cbn [map concat].
      rewrite visit_all_app, bucket_ForEach_nodes. reflexivity.
    + apply lookup_ge_None in Hb. lia.
Qed.

Lemma segment_ForEach_nodes {A PR : Type} (fn : string -> option V -> A -> A)
    (s : segment PR) (acc : A) :
  bucketsLen s = Z.of_nat (length (buckets s)) ->
  segment_ForEach (Some fn) s acc
  = (visit_all fn (concat (map bucket_nodes (buckets s))) acc, Done tt).
Proof.
  intros Hlen. unfold segment_ForEach. rewrite Hlen, Nat2Z.id.
  apply (buckets_ForEach_nodes fn (buckets s) (length (buckets s)) O acc).
  reflexivity.
Qed.

(** What [Get] of a bucket finds is a node of the chain with the key,
    and with distinct keys every node is found by its key. *)
Lemma chain_find_node (key : string) (p x : pair) :
  chain_find key p = Some x -> In x (chain_nodes p) /\ Key x = key.
Proof.
  induction p as [k h e | k h e q IH] using pair_chain_ind;
    cbn [chain_find chain_nodes In]; destruct (String.eqb k key) eqn:Hk;
    intros Hf; try discriminate.
  - injection Hf as <-. apply String.eqb_eq in Hk. split; [left; reflexivity | exact Hk].
  - injection Hf as <-. apply String.eqb_eq in Hk. split; [left; reflexivity | exact Hk].
  - destruct (IH Hf) as [Hin Hx]. split; [right; exact Hin | exact Hx].
Qed.

Lemma chain_node_found (p x : pair) :
  NoDup (map Key (chain_nodes p)) -> In x (chain_nodes p) ->
  chain_find (Key x) p = Some x.
Proof.
  induction p as [k h e | k h e q IH] using pair_chain_ind;
    cbn [chain_find chain_nodes In map]; intros Hnd Hin.
  - destruct Hin as [<- | []]. cbn [Key pair_key]. rewrite String.eqb_refl.
    reflexivity.
  - apply NoDup_cons in Hnd as [Hk Hnd]. destruct Hin as [<- | Hin].
    + cbn [Key pair_key]. rewrite String.eqb_refl. reflexivity.
    + destruct (String.eqb k (Key x)) eqn:Hkx; [|apply IH; assumption].
      apply String.eqb_eq in Hkx. exfalso. apply Hk.
      apply list_elem_of_In, in_map_iff. exists x. split; [|exact Hin].
      symmetry. exact Hkx.
Qed.

Lemma map_Key_detach (l : list pair) : map Key (map detach l) = map Key l.
Proof.
  rewrite map_map. apply map_ext. intros p. destruct p; reflexivity.
Qed.

Lemma bucket_nodes_NoDup (n : Z) (j : nat) (b : Bucket) :
  bucket_ok n j b -> NoDup (map Key (bucket_nodes b)).
Proof.
  intros [Hnd _]. rewrite <- bucket_nodes_entries, map_Key_detach in Hnd.
  exact Hnd.
Qed.

Lemma all_nodes_in (bs : list Bucket) (p : pair) :
  In p (concat (map bucket_nodes bs))
  <-> exists j b, bs !! j = Some b /\ In p (bucket_nodes b).
Proof.
  rewrite in_concat. split.
  - intros (l & Hl & Hp). apply in_map_iff in Hl as (b & <- & Hb).
    apply list_elem_of_In, list_elem_of_lookup in Hb as [j Hj].
    exists j, b. split; assumption.
  - intros (j & b & Hj & Hp). exists (bucket_nodes b). split; [|exact Hp].
    apply in_map_iff. exists b. split; [reflexivity|].
    apply list_elem_of_In, list_elem_of_lookup. exists j. exact Hj.
Qed.

Lemma bucket_Get_node (b : Bucket) (key : string) (x : pair) :
  bucket_Get b key = Some x -> In x (bucket_nodes b) /\ Key x = key.
Proof.
  unfold bucket_Get, bucket_nodes, bucket_GetFirstPair.
  destruct (head b) as [p|]; [apply chain_find_node | discriminate].
Qed.

Lemma node_slot (n : Z) (bs : list Bucket) (j : nat) (b : Bucket) (p : pair) :
  buckets_ok n bs -> bs !! j = Some b -> In p (bucket_nodes b) ->
  Hash p = hash (Key p) /\ Z.to_nat (hash (Key p) mod n) = j.
Proof.
  intros Hok Hj Hp.
  assert (Hd : In (detach p) (bucket_entries b)).
  { rewrite <- bucket_nodes_entries. apply in_map. exact Hp. }
  destruct (placed_slot n bs j b (detach p) Hok Hj Hd) as [Hh Hslot].
  destruct p; split; assumption.
Qed.

Lemma segment_Get_nodes {PR : Type} (s : segment PR) (key : string) (p : pair) :
  segment_wf s ->
  segment_Get s key = Done (Some p)
  <-> In p (concat (map bucket_nodes (buckets s))) /\ Key p = key.
Proof.
  intros [Hshape Hok]. unfold segment_Get, segment_GetWithHash.
  destruct (bucket_index_shape s (hash key) Hshape) as (b & -> & Hb).
  cbn [mbind panicking_bind]. rewrite Hb. split.
  - intros [= Hget]. apply bucket_Get_node in Hget as [Hin Hk].
    split; [|exact Hk]. apply all_nodes_in. eexists _, b. split; eassumption.
  - intros [Hin <-]. apply all_nodes_in in Hin as (j & b' & Hj & Hin).
    destruct (node_slot _ _ j b' p Hok Hj Hin) as [_ Hslot].
    rewrite Hslot, Hj in Hb. injection Hb as ->. f_equal.
    unfold bucket_Get. unfold bucket_nodes, bucket_GetFirstPair in Hin.
    pose proof (bucket_nodes_NoDup _ _ _ (Hok _ _ Hj)) as Hnd.
    unfold bucket_nodes, bucket_GetFirstPair in Hnd.
    destruct (head b) as [p0|]; [|contradiction].
    apply chain_node_found; assumption.
Qed.

Lemma all_nodes_NoDup (n : Z) (bs : list Bucket) :
  buckets_ok n bs -> NoDup (map Key (concat (map bucket_nodes bs))).
Proof.
  intros Hok. rewrite <- map_Key_detach, <- all_entries_nodes.
  apply (all_entries_NoDup n). exact Hok.
Qed.

(** X15.  [ForEach] of a segment in order returns without panic; with a
    callback it makes the calls [fn(key, element)] for the pairs of the
    buckets in the order of the slice and the chains, that is, for the
    chain of the first bucket from its first pair along [Next], then
    for the chain of the second bucket, and so on; each key once, and
    the pairs it visits are those that [Get] returns for their keys;
    with a nil callback it makes no call. *)
Theorem segment_ForEach_visits {PR : Type} (s : segment PR) :
  segment_wf s ->
  let visits := concat (map bucket_nodes (buckets s)) in
  (forall (A : Type) (fn : string -> option V -> A -> A) (acc : A),
      segment_ForEach (Some fn) s acc = (visit_all fn visits acc, Done tt)
      /\ segment_ForEach (@None (string -> option V -> A -> A)) s acc
         = (acc, Done tt))
  /\ NoDup (map Key visits)
  /\ (forall (key : string) (p : pair),
        segment_Get s key = Done (Some p) <-> In p visits /\ Key p = key)
  /\ length visits = pair_count (buckets s).
Proof.
  intros Hwf visits. unfold visits.
  split; [|split; [|split]].
  - intros A fn acc. split; [|reflexivity].
    apply segment_ForEach_nodes. destruct Hwf as [[Hlen _] _]. exact Hlen.
  - destruct Hwf as [_ Hok]. apply (all_nodes_NoDup _ _ Hok).
  - intros key p. apply segment_Get_nodes. exact Hwf.
  - reflexivity.
Qed.

(** X16.  On a segment in order [GetWithHash] returns; with a hash
    that selects the bucket of the key it returns what [Get] returns,
    and a pair it returns has the key asked for, carries the hash of
    that key, and shows that the hash given selects the bucket of the
    key. *)
Theorem GetWithHash_needs_the_hash {PR : Type} (s : segment PR)
    (key : string) (keyHash : Z) :
  segment_wf s ->
  exists r,
    segment_GetWithHash s key keyHash = Done r
    /\ (keyHash mod bucketsLen s = hash key mod bucketsLen s ->
        segment_Get s key = Done r)
    /\ forall p, r = Some p ->
         Key p = key /\ Hash p = hash key
         /\ keyHash mod bucketsLen s = hash key mod bucketsLen s.
Proof.
  intros [Hshape Hok]. pose proof Hshape as [_ Hb].
  unfold segment_Get, segment_GetWithHash.
  destruct (bucket_index_shape s keyHash Hshape) as (b & -> & Hlook).
  cbn [mbind panicking_bind]. rewrite Hlook. eexists. split; [reflexivity|].
  split.
  - intros Heq.
    destruct (bucket_index_shape s (hash key) Hshape) as (b' & -> & Hlook').
    cbn [mbind panicking_bind]. rewrite <- Heq, Hlook. reflexivity.
  - intros p Hget. apply bucket_Get_node in Hget as [Hin Hk].
    destruct (node_slot _ _ _ b p Hok Hlook Hin) as [Hhash Hslot].
    rewrite Hk in Hhash, Hslot. split; [exact Hk|]. split; [exact Hhash|].
    apply Z2Nat.inj in Hslot; [symmetry; exact Hslot | |];
      apply Z.mod_pos_bound; lia.
Qed.

(** ** Maps reached from a new map *)

Lemma concat_map_nil {X Y : Type} (f : X -> list Y) (l : list X) :
  (forall i x, l !! i = Some x -> f x = []) -> concat (map f l) = [].
Proof.
  induction l as [|a l IH]; intros Hall; cbn [map concat]; [reflexivity|].
  rewrite (Hall O a eq_refl). apply IH. intros i x Hi. apply (Hall (S i)).
  exact Hi.
Qed.

Lemma cmap_pairs_first (cmap : myConcurrentMap) (s0 : segment policy) :
  segments cmap !! O = Some s0 ->
  (forall i s, (0 < i)%nat -> segments cmap !! i = Some s ->
     concat (map bucket_nodes (buckets s)) = []) ->
  cmap_pairs cmap = concat (map bucket_nodes (buckets s0)).
Proof.
  unfold cmap_pairs. destruct (segments cmap) as [|s rest]; [discriminate|].
  intros [= ->] Hrest. cbn [map concat].
  rewrite (concat_map_nil _ rest), app_nil_r; [reflexivity|].
  intros i x Hi. apply (Hrest (S i)); [lia | exact Hi].
Qed.

Lemma cmap_regular_less (k k' : Z) (cmap : myConcurrentMap) :
  k' <= k -> cmap_regular k cmap -> cmap_regular k' cmap.
Proof.
  intros Hk (Hready & Hrest). split; [|exact Hrest].
  eapply cmap_ready_less; eassumption.
Qed.

Lemma wrap64_succ_pred (a : Z) : wrap64 (wrap64 (a + 1) + (2 ^ 64 - 1)) = wrap64 a.
Proof. rewrite wrap64_idem_add, wrap64_pred. f_equal. lia. Qed.

(** One call keeps a regular map regular and adds one pair at most. *)
Lemma cmap_apply_regular (k : Z) (cmap : myConcurrentMap) (op : cmap_op) :
  1 <= k -> cmap_regular k cmap ->
  exists cmap',
    cmap_apply cmap op = Done cmap'
    /\ cmap_regular (k - 1) cmap'
    /\ (length (cmap_pairs cmap') <= S (length (cmap_pairs cmap)))%nat.
Proof.
  intros Hk Hreg. pose proof Hreg as (Hready & Hconc & Hrest & Hnonil & Htot).
  destruct (cmap_ready_first k cmap Hready)
    as (s & pr & Hs & Hwf & Hpol & Ho & Hroom).
  pose proof Hready as [Hlen _].
  pose proof (cmap_pairs_first cmap s Hs Hrest) as Hpairs.
  assert (Hcnt : length (cmap_pairs cmap) = pair_count (buckets s))
    by (rewrite Hpairs; reflexivity).
  assert (Hentry : forall key, cmap_entry cmap key = segment_entry s key)
    by (intros key; apply cmap_entry_first; exact Hs).
  assert (Hframe : forall (s' : segment policy) (t : Z),
    default_step s s' pr ->
    (forall key c, segment_entry s' key = Some c -> Element c <> None) ->
    t = wrap64 (Z.of_nat (pair_count (buckets s'))) ->
    let cmap' := mkConcurrentMap (concurrency cmap) (<[O := s']> (segments cmap)) t in
    cmap_regular (k - 1) cmap'
    /\ length (cmap_pairs cmap') = pair_count (buckets s')).
  { intros s' t Hstep Hnn Ht cmap'.
    assert (Hs' : segments cmap' !! O = Some s')
      by (apply list_lookup_insert_eq; exact Hlen).
    assert (Hrest' : forall i x, (0 < i)%nat -> segments cmap' !! i = Some x ->
              concat (map bucket_nodes (buckets x)) = []).
    { intros i x Hi Hx. cbn [cmap' segments] in Hx.
      rewrite list_lookup_insert_ne in Hx by lia. eapply Hrest; eassumption. }
    pose proof (cmap_pairs_first cmap' s' Hs' Hrest') as Hp'.
    split; [|rewrite Hp'; reflexivity].
    split; [|split; [|split; [|split]]].
    - apply cmap_ready_store; [exact Hk | exact Hready|].
      eapply segment_ready_step; eassumption.
    - cbn [cmap' concurrency segments]. rewrite length_insert. exact Hconc.
    - exact Hrest'.
    - intros key c. rewrite (cmap_entry_first cmap' s' key Hs'). apply Hnn.
    - rewrite Hp'. exact Ht. }
  rewrite Hcnt in Htot. rewrite Hcnt.
  destruct op as [key [v|] | key]; cbn [cmap_apply].
  - destruct (cmap_Put_default cmap s pr key v Hs Hwf Hpol Ho)
      as (s' & Hput & Hstep & Hlook).
    rewrite Hput. cbn [mbind panicking_bind fst]. eexists. split; [reflexivity|].
    pose proof Hstep as (pr' & _ & _ & _ & _ & Hok'). destruct Hwf as [_ Hok].
    unfold segment_entry in Hlook.
    assert (Hnn : forall key' c, segment_entry s' key' = Some c -> Element c <> None).
    { intros key' c. unfold segment_entry. rewrite Hlook.
      destruct (decide (key' = key)); [intros [= <-]; discriminate|].
      intros Hc. apply (Hnonil key'). rewrite Hentry. exact Hc. }
    assert (Hother : forall key', key' <> key ->
      lookup_entry (buckets s') (bucketsLen s') key' = None
      <-> lookup_entry (buckets s) (bucketsLen s) key' = None).
    { intros key' Hne. rewrite Hlook.
      destruct (decide (key' = key)); [contradiction | reflexivity]. }
    assert (Hkey : lookup_entry (buckets s') (bucketsLen s') key <> None).
    { rewrite Hlook. destruct (decide (key = key)); [discriminate | contradiction]. }
    destruct (segment_entry s key) as [c0|] eqn:He; unfold segment_entry in He.
    + assert (Hcount : pair_count (buckets s') = pair_count (buckets s)).
      { apply (pair_count_same (bucketsLen s) (bucketsLen s')); try assumption.
        intros key'. destruct (decide (key' = key)) as [->|Hne];
          [|apply Hother; exact Hne].
        rewrite He. split; [intros Hx; contradiction | discriminate]. }
      destruct (Hframe s' (total cmap) Hstep Hnn) as [Hreg' Hlen'];
        [rewrite Hcount; exact Htot|].
      split; [exact Hreg'|]. rewrite Hlen', Hcount. lia.
    + assert (Hcount : pair_count (buckets s') = S (pair_count (buckets s)))
        by (apply (pair_count_add (bucketsLen s) (bucketsLen s') _ _ key);
            assumption).
      destruct (Hframe s' (wrap64 (total cmap + 1)) Hstep Hnn) as [Hreg' Hlen'].
      { rewrite Hcount, Htot, wrap64_idem_add, Nat2Z.inj_succ. f_equal; lia. }
      split; [exact Hreg'|]. rewrite Hlen', Hcount. lia.
  - cbn. eexists. split; [reflexivity|].
    split; [apply (cmap_regular_less k); [lia | exact Hreg]|].
    rewrite Hcnt. lia.
  - destruct (cmap_Delete_default cmap s pr key Hs Hwf Hpol Ho)
      as (s' & Hdel & Hstep & Hlook).
    rewrite Hdel. cbn [mbind panicking_bind fst]. eexists. split; [reflexivity|].
    pose proof Hstep as (pr' & _ & _ & _ & _ & Hok'). destruct Hwf as [_ Hok].
    unfold segment_entry in Hlook.
    assert (Hnn : forall key' c, segment_entry s' key' = Some c -> Element c <> None).
    { intros key' c. unfold segment_entry. rewrite Hlook.
      destruct (decide (key' = key)); [discriminate|].
      intros Hc. apply (Hnonil key'). rewrite Hentry. exact Hc. }
    assert (Hother : forall key', key' <> key ->
      lookup_entry (buckets s) (bucketsLen s) key' = None
      <-> lookup_entry (buckets s') (bucketsLen s') key' = None).
    { intros key' Hne. rewrite Hlook.
      destruct (decide (key' = key)); [contradiction | reflexivity]. }
    assert (Hkey : lookup_entry (buckets s') (bucketsLen s') key = None).
    { rewrite Hlook. destruct (decide (key = key)); [reflexivity | contradiction]. }
    destruct (segment_entry s key) as [c0|] eqn:He; unfold segment_entry in He.
    + assert (Hcount : pair_count (buckets s) = S (pair_count (buckets s'))).
      { apply (pair_count_add (bucketsLen s') (bucketsLen s) _ _ key);
          try assumption. rewrite He. discriminate. }
      destruct (Hframe s' (wrap64 (total cmap + (2 ^ 64 - 1))) Hstep Hnn)
        as [Hreg' Hlen'].
      { rewrite Htot, Hcount, Nat2Z.inj_succ. unfold Z.succ.
        apply wrap64_succ_pred. }
      split; [exact Hreg'|]. rewrite Hlen', Hcount. lia.
    + assert (Hcount : pair_count (buckets s') = pair_count (buckets s)).
      { apply (pair_count_same (bucketsLen s) (bucketsLen s')); try assumption.
        intros key'. destruct (decide (key' = key)) as [->|Hne];
          [|symmetry; apply Hother; exact Hne].
        rewrite He, Hkey. reflexivity. }
      destruct (Hframe s' (total cmap) Hstep Hnn) as [Hreg' Hlen'];
        [rewrite Hcount; exact Htot|].
      split; [exact Hreg'|]. rewrite Hlen', Hcount. lia.
Qed.

Lemma cmap_run_regular (ops : list cmap_op) :
  forall (k : Z) (cmap : myConcurrentMap),
    Z.of_nat (length ops) <= k -> cmap_regular k cmap ->
    exists cmap',
      cmap_run cmap ops = Done cmap'
      /\ cmap_regular (k - Z.of_nat (length ops)) cmap'
      /\ (length (cmap_pairs cmap') <= length (cmap_pairs cmap) + length ops)%nat.
Proof.
  induction ops as [|op rest IH]; intros k cmap Hk Hreg; cbn [cmap_run].
  - exists cmap. split; [reflexivity|].
    split; [apply (cmap_regular_less k); [cbn; lia | exact Hreg] | lia].
  - cbn [length] in Hk |- *.
    destruct (cmap_apply_regular k cmap op ltac:(lia) Hreg)
      as (cmap1 & Hop & Hreg1 & Hlen1).
    rewrite Hop. cbn [mbind panicking_bind].
    destruct (IH (k - 1) cmap1 ltac:(lia) Hreg1) as (cmap' & Hrun & Hreg' & Hlen').
    exists cmap'. split; [exact Hrun|].
    split; [apply (cmap_regular_less (k - 1 - Z.of_nat (length rest)));
            [lia | exact Hreg'] | lia].
Qed.

Lemma NewConcurrentMap_regular (c k : Z) :
  0 < DEFAULT_BUCKET_NUMBER <= MaxInt ->
  0 < c <= MAX_CONCURRENCY -> 0 <= 8 * k <= MaxInt ->
  exists cmap : myConcurrentMap,
    NewConcurrentMap c None = Done (Some cmap, None)
    /\ cmap_regular k cmap /\ cmap_pairs cmap = [].
Proof.
  intros HD Hc Hk.
  destruct (NewConcurrentMap_ready c k HD Hc Hk)
    as (cmap & Hnew & Hready & Hconc & Hlen & Htot & Hnone).
  destruct (NewConcurrentMap_done c None HD) as (_ & _ & Hmk).
  destruct (Hmk Hc) as (s & Hs & Hnew' & _).
  rewrite Hnew in Hnew'. injection Hnew' as Hcmap.
  destruct (newSegment_done DEFAULT_BUCKET_NUMBER None HD)
    as (pol & Hs' & _); [lia|].
  rewrite Hs in Hs'. injection Hs' as Hseg.
  assert (Hnil : forall i x, segments cmap !! i = Some x ->
            concat (map bucket_nodes (buckets x)) = []).
  { intros i x Hx. rewrite Hcmap in Hx. cbn [segments] in Hx.
    apply lookup_replicate in Hx as [-> _]. rewrite Hseg. cbn [buckets].
    apply concat_map_nil. intros j b Hb.
    apply lookup_replicate in Hb as [-> _]. reflexivity. }
  assert (Hpairs : cmap_pairs cmap = []).
  { unfold cmap_pairs. apply concat_map_nil. exact Hnil. }
  exists cmap. split; [exact Hnew|]. split; [|exact Hpairs].
  split; [exact Hready|]. split; [lia|].
  split; [intros i x _; apply Hnil|].
  split; [intros key c0 Hc0; rewrite Hnone in Hc0; discriminate|].
  rewrite Hpairs, Htot. reflexivity.
Qed.

Lemma reachable_regular (c : Z) (ops : list cmap_op) :
  0 < DEFAULT_BUCKET_NUMBER <= MaxInt -> 0 < c <= MAX_CONCURRENCY ->
  8 * Z.of_nat (length ops) <= MaxInt ->
  exists cmap0 cmap : myConcurrentMap,
    NewConcurrentMap c None = Done (Some cmap0, None)
    /\ cmap_run cmap0 ops = Done cmap
    /\ cmap_regular 0 cmap
    /\ (length (cmap_pairs cmap) <= length ops)%nat.
Proof.
  intros HD Hc Hops.
  destruct (NewConcurrentMap_regular c (Z.of_nat (length ops)) HD Hc ltac:(lia))
    as (cmap0 & Hnew & Hreg0 & Hnil).
  destruct (cmap_run_regular ops _ cmap0 (Z.le_refl _) Hreg0)
    as (cmap & Hrun & Hreg & Hlen).
  exists cmap0, cmap. split; [exact Hnew|]. split; [exact Hrun|].
  rewrite Z.sub_diag in Hreg. split; [exact Hreg|].
  rewrite Hnil in Hlen. cbn [length] in Hlen. lia.
Qed.

(** What a regular map holds, in terms of its calls. *)
Lemma cmap_regular_contents (cmap : myConcurrentMap) :
  cmap_regular 0 cmap ->
  NoDup (map Key (cmap_pairs cmap))
  /\ (forall p, In p (cmap_pairs cmap) ->
        Element p <> None /\ cmap_Get cmap (Key p) = Done (Element p))
  /\ (forall key v, cmap_Get cmap key = Done (Some v) ->
        exists p, In p (cmap_pairs cmap) /\ Key p = key /\ Element p = Some v).
Proof.
  intros (Hready & Hconc & Hrest & Hnonil & Htot).
  destruct (cmap_ready_first 0 cmap Hready) as (s & pr & Hs & Hwf & _).
  rewrite (cmap_pairs_first cmap s Hs Hrest). pose proof Hwf as [Hshape Hok].
  assert (Hget : forall key,
    cmap_Get cmap key
    = Done match segment_entry s key with Some c => Element c | None => None end).
  { intros key. rewrite (cmap_Get_ready 0 cmap key Hready).
    rewrite (cmap_entry_first cmap s key Hs). reflexivity. }
  split; [apply (all_nodes_NoDup _ _ Hok)|]. split.
  - intros p Hin.
    assert (He : segment_entry s (Key p) = Some (detach p)).
    { unfold segment_entry. rewrite <- (find_all_entries _ _ _ Hok).
      rewrite all_entries_nodes.
      apply find_key_in.
      - rewrite map_Key_detach. apply (all_nodes_NoDup _ _ Hok).
      - apply in_map. exact Hin.
      - destruct p; reflexivity. }
    split.
    + replace (Element p) with (Element (detach p)) by (destruct p; reflexivity).
      apply (Hnonil (Key p)). rewrite (cmap_entry_first cmap s _ Hs). exact He.
    + rewrite Hget, He. destruct p; reflexivity.
  - intros key v. rewrite Hget.
    destruct (segment_entry s key) as [c|] eqn:He; [|discriminate].
    intros [= Hv]. unfold segment_entry in He.
    rewrite <- (find_all_entries _ _ _ Hok), all_entries_nodes in He.
    apply find_key_some in He as [Hin Hk].
    apply in_map_iff in Hin as (p & <- & Hin).
    exists p. split; [exact Hin|]. destruct p; split; assumption.
Qed.

(** X17.  After any run of [Put] and [Delete] calls on a new map with
    the default policy, as long as eight times their number is an
    [int], the run returns and [Len] is the number of pairs in the map,
    no two of which have the same key; the keys of these pairs are the
    keys for which [Get] returns an element; and there are no more
    pairs than calls. *)
Theorem Len_counts_keys (c : Z) (ops : list cmap_op) :
  0 < DEFAULT_BUCKET_NUMBER <= MaxInt -> 0 < c <= MAX_CONCURRENCY ->
  8 * Z.of_nat (length ops) <= MaxInt ->
  exists cmap0 cmap : myConcurrentMap,
    NewConcurrentMap c None = Done (Some cmap0, None)
    /\ cmap_run cmap0 ops = Done cmap
    /\ cmap_Len cmap = Z.of_nat (length (cmap_pairs cmap))
    /\ NoDup (map Key (cmap_pairs cmap))
    /\ (forall key,
          In key (map Key (cmap_pairs cmap)) <-> cmap_Get cmap key <> Done None)
    /\ (length (cmap_pairs cmap) <= length ops)%nat.
Proof.
  intros HD Hc Hops.
  destruct (reachable_regular c ops HD Hc Hops)
    as (cmap0 & cmap & Hnew & Hrun & Hreg & Hlen).
  exists cmap0, cmap. split; [exact Hnew|]. split; [exact Hrun|].
  destruct (cmap_regular_contents cmap Hreg) as (Hnd & Hin & Hout).
  destruct Hreg as (Hready & _ & _ & _ & Htot).
  split; [|split; [exact Hnd|split; [|exact Hlen]]].
  - unfold cmap_Len. rewrite Htot. unfold wrap64. apply Z.mod_small.
    unfold MaxInt in Hops. lia.
  - intros key. split.
    + intros Hk. apply in_map_iff in Hk as (p & <- & Hp).
      destruct (Hin p Hp) as [Hne ->]. intros [= He]. contradiction.
    + intros Hget. rewrite (cmap_Get_ready 0 cmap key Hready) in Hget.
      destruct (cmap_entry cmap key) as [e|] eqn:He; [|contradiction].
      destruct (Element e) as [v|] eqn:Hv; [|contradiction].
      destruct (Hout key v) as (p & Hp & Hk & _).
      { rewrite (cmap_Get_ready 0 cmap key Hready), He, Hv. reflexivity. }
      apply in_map_iff. exists p. split; assumption.
Qed.

Lemma segments_ForEach_nodes {A : Type} (fn : string -> option V -> A -> A)
    (segs : list (segment policy)) :
  Forall (fun s => bucketsLen s = Z.of_nat (length (buckets s))) segs ->
  forall (count i : nat) (acc : A),
    (i + count)%nat = length segs ->
    segments_ForEach (Some fn) segs i count acc
    = (visit_all fn
         (concat (map (fun s => concat (map bucket_nodes (buckets s)))
                    (drop i segs))) acc,
       Done tt).
Proof.
  intros Hall. induction count as [|count IH]; intros i acc Hlen;
    cbn [segments_ForEach].
  - rewrite drop_ge by lia. reflexivity.
  - destruct (segs !! i) as [s|] eqn:Hs.
    + rewrite segment_ForEach_nodes.
      * rewrite IH by lia. rewrite (drop_S _ _ _ Hs). cbn [map concat].
        rewrite visit_all_app. reflexivity.
      * rewrite Forall_forall in Hall. apply Hall.
        apply list_elem_of_lookup. exists i. exact Hs.
    + apply lookup_ge_None in Hs. lia.
Qed.

(** X18.  After any such run [ForEach] of the map returns without
    panic; with a callback it makes the calls [fn(key, element)] for the
    pairs of the map in the order of the segments, the buckets and the
    chains, each key once; every element it passes is not nil and is
    what [Get] returns for the key, and every element that [Get] returns
    is passed; with a nil callback it makes no call. *)
Theorem cmap_ForEach_visits (c : Z) (ops : list cmap_op) :
  0 < DEFAULT_BUCKET_NUMBER <= MaxInt -> 0 < c <= MAX_CONCURRENCY ->
  8 * Z.of_nat (length ops) <= MaxInt ->
  exists cmap0 cmap : myConcurrentMap,
    NewConcurrentMap c None = Done (Some cmap0, None)
    /\ cmap_run cmap0 ops = Done cmap
    /\ (forall (A : Type) (fn : string -> option V -> A -> A) (acc : A),
          cmap_ForEach (Some fn) cmap acc
          = (visit_all fn (cmap_pairs cmap) acc, Done tt)
          /\ cmap_ForEach (@None (string -> option V -> A -> A)) cmap acc
             = (acc, Done tt))
    /\ NoDup (map Key (cmap_pairs cmap))
    /\ (forall p, In p (cmap_pairs cmap) ->
          Element p <> None /\ cmap_Get cmap (Key p) = Done (Element p))
    /\ (forall key v, cmap_Get cmap key = Done (Some v) ->
          exists p, In p (cmap_pairs cmap) /\ Key p = key /\ Element p = Some v).
Proof.
  intros HD Hc Hops.
  destruct (reachable_regular c ops HD Hc Hops)
    as (cmap0 & cmap & Hnew & Hrun & Hreg & Hlen).
  exists cmap0, cmap. split; [exact Hnew|]. split; [exact Hrun|].
  split; [|apply cmap_regular_contents; exact Hreg].
  intros A fn acc. split; [|reflexivity].
  destruct Hreg as ([_ Hall] & Hconc & _).
  unfold cmap_ForEach, Concurrency. rewrite Hconc, Nat2Z.id.
  rewrite (segments_ForEach_nodes fn (segments cmap)); [reflexivity | | reflexivity].
  eapply Forall_impl; [exact Hall|].
  intros s [[[Hl _] _] _]. exact Hl.
Qed.

(** ** When a segment grows *)

(** X19.  The growth rule of a segment with the default policy, as
    [redistribute] applies it after [UpdateThreshold] has set the
    threshold: the bucket is overweight if its size is above
    [DEFAULT_BUCKET_MAX_SIZE] or not below the threshold; an overweight
    bucket raises the overweight count by one, and the bucket number
    doubles exactly when the bucket is overweight and the bucket number
    is at most four times the raised count; the count is then reset to
    zero.  In every other case the buckets stay as they are. *)
Theorem redistribute_growth_rule (s : segment policy) (pr : myPairRedistributor)
    (newTotal bucketSize : Z) :
  segment_shape s -> pairRedistributor s = Default pr ->
  0 <= overweightBucketCount pr -> 4 * (overweightBucketCount pr + 1) < 2 ^ 64 ->
  let pr1 := fst (pr_UpdateThreshold pr newTotal (bucketsLen s)) in
  let overweight :=
    (bucketSize >? DEFAULT_BUCKET_MAX_SIZE) || (bucketSize >=? upperThreshold pr1) in
  let grow :=
    overweight && (bucketsLen s <=? 4 * (overweightBucketCount pr + 1)) in
  let s' := fst (segment_redistribute s newTotal bucketSize) in
  bucketsLen s' = (if grow then 2 * bucketsLen s else bucketsLen s)
  /\ Z.of_nat (length (buckets s')) = bucketsLen s'
  /\ (grow = false -> buckets s' = buckets s)
  /\ exists pr',
      pairRedistributor s' = Default pr'
      /\ upperThreshold pr' = upperThreshold pr1
      /\ overweightBucketCount pr'
         = (if grow then 0
            else if overweight then overweightBucketCount pr + 1
            else overweightBucketCount pr).
Proof.
  intros Hshape Hpol Ho Hroom pr1 overweight grow s'.
  pose proof Hshape as [Hlen Hb].
  assert (Hs' : s' = fst (segment_redistribute s newTotal bucketSize)) by reflexivity.
  unfold segment_redistribute in Hs'. rewrite Hpol in Hs'.
  cbn [UpdateThreshold policy_methods] in Hs'.
  destruct (pr_UpdateThreshold_counts pr newTotal (bucketsLen s))
    as (pr1' & Hup & Ho1 & _).
  { rewrite shape_wrap64 by assumption. lia. }
  assert (Hpr1 : pr1 = pr1') by (unfold pr1; rewrite Hup; reflexivity).
  rewrite Hup in Hs'. rewrite <- Hpr1 in Hs', Ho1. clear Hup Hpr1 pr1'.
  cbn [CheckBucketStatus policy_methods] in Hs'.
  unfold pr_CheckBucketStatus in Hs'. fold overweight in Hs'.
  pose proof (pr_Redistribe_outcome) as Hout.
  destruct overweight eqn:Hover; cbn [andb] in grow.
  - cbn [Redistribe policy_methods] in Hs'.
    set (pr2 := store_counts pr1 (wrap64 (overweightBucketCount pr1 + 1))
                  (emptyBucketCount pr1)) in Hs'.
    assert (Ho2 : overweightBucketCount pr2 = overweightBucketCount pr + 1).
    { cbn. rewrite Ho1. unfold wrap64. apply Z.mod_small. lia. }
    specialize (Hout pr2 BUCKET_STATUS_OVERWEIGHT (buckets s)).
    rewrite <- Hlen in Hout. specialize (Hout (proj2 Hb)).
    assert (Hgate : resize_target pr2 BUCKET_STATUS_OVERWEIGHT (bucketsLen s)
                    = if grow then Some (2 * bucketsLen s) else None).
    { unfold resize_target. cbn [Z.eqb BUCKET_STATUS_OVERWEIGHT Pos.eqb].
      rewrite Ho2.
      replace (wrap64 ((overweightBucketCount pr + 1) * 4))
        with (4 * (overweightBucketCount pr + 1))
        by (unfold wrap64; rewrite Z.mod_small; lia).
      unfold grow.
      destruct (Z.ltb_spec (4 * (overweightBucketCount pr + 1)) (bucketsLen s));
        destruct (Z.leb_spec (bucketsLen s) (4 * (overweightBucketCount pr + 1)));
        try lia; [reflexivity|].
      f_equal. rewrite Z.shiftl_mul_pow2 by lia. unfold wrap64, MaxInt in *.
      rewrite Z.mod_small; lia. }
    rewrite Hgate in Hout. destruct grow.
    + destruct (Z.eqb_spec (2 * bucketsLen s) (bucketsLen s)); [lia|].
      destruct Hout as (inplace & filled & Hred & _ & Hl).
      rewrite Hred in Hs'. cbn [fst] in Hs'. rewrite Hs'.
      cbn [bucketsLen buckets pairRedistributor].
      split; [exact Hl|]. split; [reflexivity|]. split; [discriminate|].
      eexists. split; [reflexivity|]. split; reflexivity.
    + rewrite Hout in Hs'. cbn [fst] in Hs'. rewrite Hs'.
      cbn [bucketsLen buckets pairRedistributor].
      split; [reflexivity|]. split; [symmetry; exact Hlen|].
      split; [reflexivity|].
      exists pr2. split; [reflexivity|]. split; [reflexivity | exact Ho2].
  - assert (Hnormal : forall pr2 : myPairRedistributor,
      pr_Redistribe pr2 BUCKET_STATUS_NORMAL (buckets s)
      = ((pr2, buckets s), Done ([], false))) by reflexivity.
    unfold grow.
    destruct (bucketSize =? 0); cbn [Redistribe policy_methods] in Hs';
      rewrite Hnormal in Hs'; cbn [fst] in Hs'; rewrite Hs';
      cbn [bucketsLen buckets pairRedistributor];
      (split; [reflexivity|]); (split; [symmetry; exact Hlen|]);
      (split; [reflexivity|]); eexists; (split; [reflexivity|]);
      (split; [reflexivity|]); cbn; exact Ho1.
Qed.

(** ** The map as a dictionary *)

(** A map holds a dictionary when every key finds the pair of its
    element there, and the total is the size of the dictionary. *)
Lemma cmap_apply_dict (k : Z) (cmap : myConcurrentMap) (m : gmap string V)
    (op : cmap_op) :
  1 <= k -> cmap_ready k cmap ->
  (forall key,
      cmap_entry cmap key
      = (fun v => mkPair key (hash key) (Some v) None) <$> m !! key) ->
  total cmap = wrap64 (Z.of_nat (size m)) ->
  exists cmap',
    cmap_apply cmap op = Done cmap'
    /\ cmap_ready (k - 1) cmap'
    /\ (forall key,
          cmap_entry cmap' key
          = (fun v => mkPair key (hash key) (Some v) None)
              <$> dict_apply m op !! key)
    /\ total cmap' = wrap64 (Z.of_nat (size (dict_apply m op)))
    /\ (size (dict_apply m op) <= S (size m))%nat.
Proof.
  intros Hk Hready Hdict Htot. destruct op as [key [v|] | key];
    cbn [cmap_apply dict_apply].
  - destruct (cmap_Put_ready k cmap key v Hk Hready)
      as (cmap' & Hput & Hready' & Htot' & Hlook).
    rewrite Hput. cbn [mbind panicking_bind fst]. exists cmap'.
    split; [reflexivity|]. split; [exact Hready'|]. rewrite Hdict in Htot'.
    split; [|destruct (m !! key) as [w|] eqn:Hm; cbn in Htot'].
    + intros key'. rewrite Hlook.
      destruct (decide (key' = key)) as [->|Hne].
      * rewrite lookup_insert_eq. reflexivity.
      * rewrite lookup_insert_ne by congruence. apply Hdict.
    + rewrite map_size_insert_Some by (exists w; exact Hm).
      split; [rewrite Htot'; exact Htot | lia].
    + rewrite map_size_insert_None by exact Hm.
      split; [|lia]. rewrite Htot', Htot, wrap64_idem_add, Nat2Z.inj_succ.
      f_equal; lia.
  - cbn. exists cmap. split; [reflexivity|].
    split; [apply (cmap_ready_less k); [lia | exact Hready]|].
    split; [exact Hdict|]. split; [exact Htot | lia].
  - destruct (cmap_Delete_ready k cmap key Hk Hready)
      as (cmap' & Hdel & Hready' & Htot' & Hlook).
    rewrite Hdel. cbn [mbind panicking_bind fst]. exists cmap'.
    split; [reflexivity|]. split; [exact Hready'|]. rewrite Hdict in Htot'.
    split; [|destruct (m !! key) as [w|] eqn:Hm; cbn in Htot'].
    + intros key'. rewrite Hlook.
      destruct (decide (key' = key)) as [->|Hne].
      * rewrite lookup_delete_eq. reflexivity.
      * rewrite lookup_delete_ne by congruence. apply Hdict.
    + assert (Hsome : is_Some (m !! key)) by (exists w; exact Hm).
      pose proof (map_size_delete_Some key m Hsome) as Hsize.
      pose proof (map_size_ne_0_lookup_2 m key Hsome) as Hpos.
      split; [|lia]. rewrite Htot', Htot.
      replace (Z.of_nat (size m)) with (Z.of_nat (size (delete key m)) + 1) by lia.
      apply wrap64_succ_pred.
    + rewrite map_size_delete_None by exact Hm.
      split; [rewrite Htot'; exact Htot | lia].
Qed.

Lemma cmap_run_dict (ops : list cmap_op) :
  forall (k : Z) (cmap : myConcurrentMap) (m : gmap string V),
    Z.of_nat (length ops) <= k -> cmap_ready k cmap ->
    (forall key,
        cmap_entry cmap key
        = (fun v => mkPair key (hash key) (Some v) None) <$> m !! key) ->
    total cmap = wrap64 (Z.of_nat (size m)) ->
    exists cmap',
      cmap_run cmap ops = Done cmap'
      /\ cmap_ready (k - Z.of_nat (length ops)) cmap'
      /\ (forall key,
            cmap_entry cmap' key
            = (fun v => mkPair key (hash key) (Some v) None)
                <$> foldl dict_apply m ops !! key)
      /\ total cmap' = wrap64 (Z.of_nat (size (foldl dict_apply m ops)))
      /\ (size (foldl dict_apply m ops) <= size m + length ops)%nat.
Proof.
  induction ops as [|op rest IH]; intros k cmap m Hk Hready Hdict Htot;
    cbn [cmap_run foldl].
  - exists cmap. split; [reflexivity|].
    split; [apply (cmap_ready_less k); [cbn; lia | exact Hready]|].
    split; [exact Hdict|]. split; [exact Htot | lia].
  - cbn [length] in Hk |- *.
    destruct (cmap_apply_dict k cmap m op ltac:(lia) Hready Hdict Htot)
      as (cmap1 & Hop & Hready1 & Hdict1 & Htot1 & Hsize1).
    rewrite Hop. cbn [mbind panicking_bind].
    destruct (IH (k - 1) cmap1 (dict_apply m op) ltac:(lia) Hready1 Hdict1 Htot1)
      as (cmap' & Hrun & Hready' & Hdict' & Htot' & Hsize').
    exists cmap'. split; [exact Hrun|].
    split; [apply (cmap_ready_less (k - 1 - Z.of_nat (length rest)));
            [lia | exact Hready']|].
    split; [exact Hdict'|]. split; [exact Htot' | lia].
Qed.

(** X20.  The map is a dictionary: after any sequence of [Put] and
    [Delete] calls on a new map with the default policy, as long as
    eight times their number is an [int], the sequence returns, [Get]
    of every key returns what the dictionary built by the same calls
    holds for the key (nil if nothing), and [Len] is the size of that
    dictionary. *)
Theorem map_refines_dictionary (c : Z) (ops : list cmap_op) :
  0 < DEFAULT_BUCKET_NUMBER <= MaxInt -> 0 < c <= MAX_CONCURRENCY ->
  8 * Z.of_nat (length ops) <= MaxInt ->
  exists cmap0 cmap : myConcurrentMap,
    NewConcurrentMap c None = Done (Some cmap0, None)
    /\ cmap_run cmap0 ops = Done cmap
    /\ (forall key, cmap_Get cmap key = Done (dict_run ops !! key))
    /\ cmap_Len cmap = Z.of_nat (size (dict_run ops)).
Proof.
  intros HD Hc Hops.
  destruct (NewConcurrentMap_ready c (Z.of_nat (length ops)) HD Hc ltac:(lia))
    as (cmap0 & Hnew & Hready0 & _ & _ & Htot0 & Hnone).
  destruct (cmap_run_dict ops _ cmap0 ∅ (Z.le_refl _) Hready0)
    as (cmap & Hrun & Hready & Hdict & Htot & Hsize).
  { intros key. rewrite Hnone, lookup_empty. reflexivity. }
  { rewrite Htot0, map_size_empty. reflexivity. }
  exists cmap0, cmap. split; [exact Hnew|]. split; [exact Hrun|]. split.
  - intros key. rewrite (cmap_Get_ready _ cmap key Hready), Hdict.
    unfold dict_run. destruct (foldl dict_apply ∅ ops !! key); reflexivity.
  - unfold cmap_Len, dict_run. rewrite Htot. rewrite map_size_empty in Hsize.
    unfold wrap64. apply Z.mod_small. unfold MaxInt in Hops. lia.
Qed.

End Properties.

(** * Closed statements *)

Example hash_a : hash "a" = 97.
Proof. reflexivity. Qed.

Example new_policy_threshold :
  newDefaultPairRedistributor DEFAULT_BUCKET_LOAD_FACTOR 16
  = Done (sample_policy 0 0).
Proof. vm_compute. reflexivity. Qed.

Example sample_map_new :
  NewConcurrentMap 4 None = Done (Some sample_map, None).
Proof. vm_compute. reflexivity. Qed.


(** ** Where the specification and the code part *)

(** C2, at a concrete call: the bucket takes the pair, the policy
    panics during the redistribution check, [redistribute] turns the
    panic into a [PairRedistributorError], and [Put] returns
    [true, nil]: the error it reports is not a
    [PairRedistributorError]. *)
Lemma Put_drops_policy_failure :
  snd (@segment_redistribute Z unit failing_policy failing_segment_put 1 1)
  = Some (PairRedistributorError
            "concurrency map: failing pair redistribution: boom")
  /\ match @segment_Put Z unit failing_policy failing_segment sample_pair with
     | Done (s', (ok, err)) =>
         s' = failing_segment_put /\ ok = true
         /\ ~ exists msg, err = Some (PairRedistributorError msg)
     | Panic _ => False
     end.
Proof.
  vm_compute. split; [reflexivity|]. split; [reflexivity|].
  split; [reflexivity|]. intros [msg Hmsg]. discriminate.
Qed.

(** C5, at a concrete call: sixteen buckets, overweight status, both
    counters at one.  The gate is closed ([1 * 4 < 16]), [Redistribe]
    returns at once and the counters are not zero afterwards. *)
Lemma Redistribe_leaves_counters :
  let pr' :=
    fst (fst (pr_Redistribe (sample_policy 1 1) BUCKET_STATUS_OVERWEIGHT
                (replicate 16 (@newBucket Z)))) in
  ~ (overweightBucketCount pr' = 0 /\ emptyBucketCount pr' = 0).
Proof. vm_compute. intros [Hzero _]. discriminate. Qed.

(** ** The run of the specification *)

(** C4.  On a map made with shard count 4 and no policy of the
    caller's, the calls [Put("a", 1)], [Put("a", 2)], [Get("a")],
    [Delete("a")], [Get("a")], [Len()] return [(true, nil)],
    [(false, nil)], [2], [true], [nil] and [0], each on the map that
    the call before it left. *)
Theorem scenario_shard_count_4 (C : Constants) (PS : Type)
    (P : PairRedistributor Z PS) :
  0 < DEFAULT_BUCKET_NUMBER <= MaxInt -> 4 <= MAX_CONCURRENCY ->
  exists m0 m1 m2 m3 : myConcurrentMap Z PS,
    NewConcurrentMap 4 None = Done (Some m0, None)
    /\ cmap_Put m0 "a" (Some 1) = Done (m1, (true, None))
    /\ cmap_Put m1 "a" (Some 2) = Done (m2, (false, None))
    /\ cmap_Get m2 "a" = Done (Some 2)
    /\ cmap_Delete m2 "a" = Done (m3, true)
    /\ cmap_Get m3 "a" = Done None
    /\ cmap_Len m3 = 0.
Proof. apply (@scenario_any_values Z C PS P 1 2). Qed.

(** ** The theorems at concrete inputs *)

Lemma scenario_shard_count_4_witness :
  (0 < 16 <= MaxInt /\ 4 <= 65536)
  /\ exists m0 m1 m2 m3 : myConcurrentMap Z no_policy,
      NewConcurrentMap 4 None = Done (Some m0, None)
      /\ cmap_Put m0 "a" (Some 1) = Done (m1, (true, None))
      /\ cmap_Put m1 "a" (Some 2) = Done (m2, (false, None))
      /\ cmap_Get m2 "a" = Done (Some 2)
      /\ cmap_Delete m2 "a" = Done (m3, true)
      /\ cmap_Get m3 "a" = Done None
      /\ cmap_Len m3 = 0.
Proof.
  assert (Hc : 0 < 16 <= MaxInt /\ 4 <= 65536) by (unfold MaxInt; lia).
  split; [exact Hc|].
  exact (scenario_shard_count_4 sample_constants no_policy no_policy_methods
           (proj1 Hc) (proj2 Hc)).
Defined.


Lemma segment_mutation_result_witness :
  (segment_shape failing_segment /\ segment_shape failing_segment_put)
  /\ (exists b s',
        buckets failing_segment !! Z.to_nat (Hash sample_pair mod 2) = Some b
        /\ @segment_Put Z unit failing_policy failing_segment sample_pair
           = Done (s', snd (bucket_Put b sample_pair)))
  /\ snd (@segment_redistribute Z unit failing_policy failing_segment_put 1 1)
     = Some (recovered (PanicOther "boom"))
  /\ recovered (PanicOther "boom")
     = PairRedistributorError
         "concurrency map: failing pair redistribution: boom".
Proof.
  assert (Hshape : segment_shape failing_segment).
  { split; [reflexivity|]. cbn. unfold MaxInt. lia. }
  assert (Hshape' : segment_shape failing_segment_put).
  { split; [reflexivity|]. cbn. unfold MaxInt. lia. }
  split; [split; [exact Hshape | exact Hshape']|].
  split; [|split].
  - exact (proj1 (@segment_mutation_result Z unit failing_policy failing_segment
                    Hshape) sample_pair).
  - exact (proj1 (proj2 (proj2 (proj2
             (@segment_mutation_result Z unit failing_policy
                failing_segment_put Hshape')))) 1 1).
  - exact (proj2 (proj2 (proj2 (proj2
             (@segment_mutation_result Z unit failing_policy
                failing_segment_put Hshape')))) (PanicOther "boom")).
Defined.

Lemma Redistribe_counters_witness :
  Z.of_nat (length (replicate 16 (@newBucket Z))) <= MaxInt
  /\ overweightBucketCount
       (fst (fst (pr_Redistribe (sample_policy 4 1) BUCKET_STATUS_OVERWEIGHT
                    (replicate 16 (@newBucket Z))))) = 0
  /\ emptyBucketCount
       (fst (fst (pr_Redistribe (sample_policy 4 1) BUCKET_STATUS_OVERWEIGHT
                    (replicate 16 (@newBucket Z))))) = 0.
Proof.
  assert (Hlen : Z.of_nat (length (replicate 16 (@newBucket Z))) <= MaxInt).
  { cbn. unfold MaxInt. lia. }
  split; [exact Hlen|].
  exact (@Redistribe_counters Z (sample_policy 4 1) BUCKET_STATUS_OVERWEIGHT
           (replicate 16 newBucket) Hlen).
Defined.

Lemma Redistribe_hysteresis_witness :
  (Z.of_nat (length (replicate 16 (@newBucket Z))) <= MaxInt /\ 0 <= 4 /\ 0 <= 1)
  /\ exists pr' inplace newBuckets changed,
      pr_Redistribe (sample_policy 4 1) BUCKET_STATUS_OVERWEIGHT
        (replicate 16 (@newBucket Z))
      = ((pr', inplace), Done (newBuckets, changed))
      /\ (changed = true ->
          (BUCKET_STATUS_OVERWEIGHT = BUCKET_STATUS_OVERWEIGHT
           /\ 4 * 4 >= 16
           /\ Z.of_nat (length newBuckets) = 2 * 16)
          \/ (BUCKET_STATUS_OVERWEIGHT = BUCKET_STATUS_UNDERWEIGHT
              /\ 16 >= 100
              /\ 1 * 4 >= 16
              /\ Z.of_nat (length newBuckets) = Z.max (16 / 2) 2))
      /\ (changed = false ->
          newBuckets = [] /\ inplace = replicate 16 (@newBucket Z)).
Proof.
  assert (Hlen : Z.of_nat (length (replicate 16 (@newBucket Z))) <= MaxInt).
  { cbn. unfold MaxInt. lia. }
  split; [split; [exact Hlen | lia]|].
  exact (@Redistribe_hysteresis Z (sample_policy 4 1) BUCKET_STATUS_OVERWEIGHT
           (replicate 16 newBucket) Hlen ltac:(cbn; lia) ltac:(cbn; lia)).
Defined.

Lemma UpdateThreshold_upperThreshold_witness :
  (0 <= 3200 < 2 ^ 64 /\ 0 < 16 <= MaxInt)
  /\ pr_UpdateThreshold (sample_policy 0 0) 3200 16
     = (mkPairRedistributor DEFAULT_BUCKET_LOAD_FACTOR 150 0 0, Done tt).
Proof.
  assert (Hr : 0 <= 3200 < 2 ^ 64 /\ 0 < 16 <= MaxInt) by (unfold MaxInt; lia).
  split; [exact Hr|].
  exact (UpdateThreshold_upperThreshold (sample_policy 0 0) 3200 16
           (proj1 Hr) (proj2 Hr)).
Defined.

Lemma bucket_number_never_decreases_witness :
  (segment_shape sample_segment
   /\ 8 * (0 + Z.of_nat (length [OpPut sample_pair; OpDelete "a"])) <= MaxInt)
  /\ exists s',
      segment_run sample_segment [OpPut sample_pair; OpDelete "a"] = Done s'
      /\ bucketsLen s' = Z.of_nat (length (buckets s'))
      /\ Z.of_nat (length (buckets sample_segment))
         <= Z.of_nat (length (buckets s')).
Proof.
  assert (Hshape : segment_shape sample_segment).
  { split; [reflexivity|]. cbn. unfold MaxInt. lia. }
  assert (Hroom : 8 * (0 + Z.of_nat (length [OpPut sample_pair; OpDelete "a"]))
                  <= MaxInt).
  { cbn. unfold MaxInt. lia. }
  split; [split; [exact Hshape | exact Hroom]|].
  exact (proj2 (@bucket_number_never_decreases Z _ no_policy _) sample_segment
           (sample_policy 0 0) [OpPut sample_pair; OpDelete "a"]
           Hshape eq_refl (Z.le_refl 0) Hroom).
Defined.

(** ** The further properties at concrete inputs *)

Example sample_map_put :
  cmap_Put sample_map "a" (Some 1) = Done (sample_map_a, (true, None)).
Proof. vm_compute. reflexivity. Qed.

Lemma sample_map_ready : cmap_ready 2 sample_map.
Proof.
  destruct (@NewConcurrentMap_ready Z _ no_policy 4 2)
    as (cmap & Hnew & Hready & _); cbn; unfold MaxInt; try lia.
  rewrite sample_map_new in Hnew. injection Hnew as <-. exact Hready.
Qed.

Lemma sample_map_a_wf : cmap_wf sample_map_a.
Proof.
  destruct (@cmap_Put_ready Z _ no_policy _ 2 sample_map "a" 1 ltac:(lia)
              sample_map_ready) as (cmap' & Hput & Hready & _).
  rewrite sample_map_put in Hput. injection Hput as <-.
  apply (@cmap_ready_wf Z no_policy (2 - 1)); [lia | exact Hready].
Qed.

Lemma sample_segment_a_wf : segment_wf sample_segment_a.
Proof.
  destruct (cmap_wf_first sample_map_a sample_map_a_wf)
    as (s & pr & Hs & Hwf & _).
  injection Hs as <-. exact Hwf.
Qed.

Lemma newDefaultPairRedistributor_result_witness :
  0 < 16 <= MaxInt
  /\ newDefaultPairRedistributor (S754_zero false) 16
     = Done (mkPairRedistributor DEFAULT_BUCKET_LOAD_FACTOR
               (uint64_of_float64 uint64_unspecified
                  (f64_mul f64_100 DEFAULT_BUCKET_LOAD_FACTOR)) 0 0).
Proof.
  assert (Hn : 0 < 16 <= MaxInt) by (unfold MaxInt; lia).
  split; [exact Hn|].
  exact (@newDefaultPairRedistributor_result sample_constants (S754_zero false)
           16 Hn).
Defined.

Lemma newSegment_result_witness :
  (0 < 16 <= MaxInt /\ 0 <= MaxInt)
  /\ exists pol : policy no_policy,
      newSegment 0 None
      = Done (mkSegment (replicate 16 (@newBucket Z)) 16 0 pol)
      /\ segment_shape (mkSegment (replicate 16 (@newBucket Z)) 16 0 pol)
      /\ exists pr,
          pol = Default pr
          /\ newDefaultPairRedistributor DEFAULT_BUCKET_LOAD_FACTOR 16 = Done pr
          /\ overweightBucketCount pr = 0 /\ emptyBucketCount pr = 0.
Proof.
  assert (Hn : 0 < 16 <= MaxInt /\ 0 <= MaxInt) by (unfold MaxInt; lia).
  split; [exact Hn|].
  exact (@newSegment_result Z sample_constants no_policy 0 None
           (proj1 Hn) (proj2 Hn)).
Defined.

Lemma NewConcurrentMap_result_witness :
  (0 < 16 <= MaxInt /\ 0 < 4 <= 65536)
  /\ exists s : segment Z (policy no_policy),
      newSegment 16 None = Done s
      /\ NewConcurrentMap 4 None
         = Done (Some (mkConcurrentMap 4 (replicate 4 s) 0), None)
      /\ Z.of_nat (length (replicate 4 s)) = 4
      /\ bucketsLen s = 16 /\ segment_Size s = 0.
Proof.
  assert (Hn : 0 < 16 <= MaxInt /\ 0 < 4 <= 65536) by (unfold MaxInt; lia).
  split; [exact Hn|].
  exact (proj2 (proj2 (@NewConcurrentMap_result Z sample_constants no_policy 4
                         None (proj1 Hn))) (proj2 Hn)).
Defined.

Lemma segment_Size_step_witness :
  @segment_Put Z unit failing_policy failing_segment sample_pair
  = Done (failing_segment_put, (true, None))
  /\ segment_Size failing_segment_put
     = wrap64 (segment_Size failing_segment + 1).
Proof.
  assert (Hput : @segment_Put Z unit failing_policy failing_segment sample_pair
                 = Done (failing_segment_put, (true, None)))
    by (vm_compute; reflexivity).
  split; [exact Hput|].
  exact (proj1 (@segment_Size_step Z unit failing_policy failing_segment)
           sample_pair failing_segment_put true None Hput).
Defined.

Lemma redistribute_default_no_error_witness :
  (segment_shape sample_segment_a
   /\ pairRedistributor sample_segment_a = Default (sample_policy 0 0)
   /\ 0 <= overweightBucketCount (sample_policy 0 0))
  /\ exists s' pr',
      segment_redistribute sample_segment_a 1 1 = (s', None)
      /\ pairRedistributor s' = Default pr'
      /\ pairTotal s' = pairTotal sample_segment_a
      /\ bucketsLen s' = Z.of_nat (length (buckets s'))
      /\ (bucketsLen s' = bucketsLen sample_segment_a
          \/ bucketsLen s' = 2 * bucketsLen sample_segment_a).
Proof.
  assert (Hshape : segment_shape sample_segment_a).
  { split; [reflexivity|]. cbn. unfold MaxInt. lia. }
  split; [split; [exact Hshape | split; [reflexivity | cbn; lia]]|].
  exact (@redistribute_default_no_error Z _ no_policy _ sample_segment_a
           (sample_policy 0 0) 1 1 Hshape eq_refl ltac:(cbn; lia)).
Defined.

Lemma Len_is_sum_of_sizes_witness :
  (NewConcurrentMap 4 None = Done (Some sample_map, None)
   /\ cmap_run sample_map [CallPut "a" (Some 1)] = Done sample_map_a)
  /\ cmap_Len sample_map_a = wrap64 (segments_total (segments sample_map_a)).
Proof.
  assert (Hrun : cmap_run sample_map [CallPut "a" (Some 1)] = Done sample_map_a)
    by (vm_compute; reflexivity).
  split; [split; [exact sample_map_new | exact Hrun]|].
  exact (@Len_is_sum_of_sizes Z _ no_policy _ 4 None sample_map sample_map_a
           [CallPut "a" (Some 1)] sample_map_new Hrun).
Defined.

Lemma other_segments_untouched_witness :
  (cmap_apply sample_map (CallPut "a" (Some 1)) = Done sample_map_a
   /\ (0 < 1)%nat /\ segments sample_map !! 1%nat = Some sample_segment)
  /\ exists s',
      segments sample_map_a !! 1%nat = Some s'
      /\ buckets s' = buckets sample_segment
      /\ bucketsLen s' = bucketsLen sample_segment
      /\ segment_Size s' = segment_Size sample_segment.
Proof.
  assert (Hop : cmap_apply sample_map (CallPut "a" (Some 1)) = Done sample_map_a)
    by (vm_compute; reflexivity).
  split; [split; [exact Hop | split; [lia | reflexivity]]|].
  exact (@other_segments_untouched Z _ no_policy _ sample_map sample_map_a
           (CallPut "a" (Some 1)) Hop 1%nat sample_segment ltac:(lia) eq_refl).
Defined.

Lemma Delete_removes_key_witness :
  cmap_wf sample_map_a
  /\ exists cmap' ok,
      cmap_Delete sample_map_a "a" = Done (cmap', ok)
      /\ cmap_Get cmap' "a" = Done None
      /\ (forall key', key' <> "a" ->
            cmap_Get cmap' key' = cmap_Get sample_map_a key')
      /\ cmap_Len cmap'
         = (if ok then wrap64 (cmap_Len sample_map_a - 1)
            else cmap_Len sample_map_a)
      /\ (forall w, cmap_Get sample_map_a "a" = Done (Some w) -> ok = true)
      /\ (ok = false ->
          forall key', cmap_Get cmap' key' = cmap_Get sample_map_a key').
Proof.
  split; [exact sample_map_a_wf|].
  exact (@Delete_removes_key Z _ no_policy _ sample_map_a "a" sample_map_a_wf).
Defined.

Lemma Put_keeps_other_keys_witness :
  cmap_wf sample_map_a
  /\ exists cmap' ok,
      cmap_Put sample_map_a "b" (Some 2) = Done (cmap', (ok, None))
      /\ (forall key', key' <> "b" ->
            cmap_Get cmap' key' = cmap_Get sample_map_a key')
      /\ cmap_Len cmap'
         = (if ok then wrap64 (cmap_Len sample_map_a + 1)
            else cmap_Len sample_map_a)
      /\ (forall w, cmap_Get sample_map_a "b" = Done (Some w) -> ok = false)
      /\ Concurrency cmap' = Concurrency sample_map_a
      /\ length (segments cmap') = length (segments sample_map_a).
Proof.
  split; [exact sample_map_a_wf|].
  exact (@Put_keeps_other_keys Z _ no_policy _ sample_map_a "b" 2 sample_map_a_wf).
Defined.

Lemma Put_then_Delete_witness :
  cmap_ready 2 sample_map
  /\ exists cmap1 ok cmap2,
      cmap_Put sample_map "a" (Some 1) = Done (cmap1, (ok, None))
      /\ cmap_Delete cmap1 "a" = Done (cmap2, true)
      /\ cmap_Get cmap2 "a" = Done None
      /\ (forall key', key' <> "a" -> cmap_Get cmap2 key' = cmap_Get sample_map key')
      /\ cmap_Len cmap2
         = wrap64 (if ok then cmap_Len sample_map else cmap_Len sample_map - 1).
Proof.
  split; [exact sample_map_ready|].
  exact (@Put_then_Delete Z _ no_policy _ sample_map "a" 1 sample_map_ready).
Defined.

Lemma Redistribe_keeps_pairs_witness :
  (buckets_ok (Z.of_nat (length (buckets sample_segment_a)))
     (buckets sample_segment_a)
   /\ Z.of_nat (length (buckets sample_segment_a)) <= MaxInt
   /\ pr_Redistribe (sample_policy 4 1) BUCKET_STATUS_OVERWEIGHT
        (buckets sample_segment_a)
      = ((sample_policy 0 0, buckets sample_segment_a),
         Done (sample_buckets_32, true)))
  /\ sample_buckets_32 <> []
  /\ buckets_ok (Z.of_nat (length sample_buckets_32)) sample_buckets_32
  /\ (forall key,
        detach <$> slice_Get sample_buckets_32 key
        = detach <$> slice_Get (buckets sample_segment_a) key)
  /\ pair_count sample_buckets_32 = pair_count (buckets sample_segment_a).
Proof.
  assert (Hok : buckets_ok (Z.of_nat (length (buckets sample_segment_a)))
                  (buckets sample_segment_a))
    by exact (proj2 sample_segment_a_wf).
  assert (Hlen : Z.of_nat (length (buckets sample_segment_a)) <= MaxInt).
  { cbn. unfold MaxInt. lia. }
  assert (Hred : pr_Redistribe (sample_policy 4 1) BUCKET_STATUS_OVERWEIGHT
                   (buckets sample_segment_a)
                 = ((sample_policy 0 0, buckets sample_segment_a),
                    Done (sample_buckets_32, true)))
    by (vm_compute; reflexivity).
  split; [split; [exact Hok | split; [exact Hlen | exact Hred]]|].
  exact (@Redistribe_keeps_pairs Z (sample_policy 4 1) (sample_policy 0 0)
           BUCKET_STATUS_OVERWEIGHT (buckets sample_segment_a)
           (buckets sample_segment_a) sample_buckets_32 Hok Hlen Hred).
Defined.

Lemma segment_ForEach_visits_witness :
  segment_wf sample_segment_a
  /\ let visits := concat (map bucket_nodes (buckets sample_segment_a)) in
     (forall (A : Type) (fn : string -> option Z -> A -> A) (acc : A),
         segment_ForEach (Some fn) sample_segment_a acc
         = (visit_all fn visits acc, Done tt)
         /\ segment_ForEach (@None (string -> option Z -> A -> A))
              sample_segment_a acc
            = (acc, Done tt))
     /\ NoDup (map Key visits)
     /\ (forall (key : string) (p : pair Z),
           segment_Get sample_segment_a key = Done (Some p)
           <-> In p visits /\ Key p = key)
     /\ length visits = pair_count (buckets sample_segment_a).
Proof.
  split; [exact sample_segment_a_wf|].
  exact (@segment_ForEach_visits Z _ sample_segment_a sample_segment_a_wf).
Defined.

Lemma GetWithHash_needs_the_hash_witness :
  segment_wf sample_segment_a
  /\ exists r,
      segment_GetWithHash sample_segment_a "a" 1 = Done r
      /\ (1 mod bucketsLen sample_segment_a
          = hash "a" mod bucketsLen sample_segment_a ->
          segment_Get sample_segment_a "a" = Done r)
      /\ forall p, r = Some p ->
           Key p = "a" /\ Hash p = hash "a"
           /\ 1 mod bucketsLen sample_segment_a
              = hash "a" mod bucketsLen sample_segment_a.
Proof.
  split; [exact sample_segment_a_wf|].
  exact (@GetWithHash_needs_the_hash Z _ sample_segment_a "a" 1
           sample_segment_a_wf).
Defined.

Lemma Len_counts_keys_witness :
  (0 < 16 <= MaxInt /\ 0 < 4 <= 65536
   /\ 8 * Z.of_nat (length [@CallPut Z "a" (Some 1); CallDelete "b"]) <= MaxInt)
  /\ exists cmap0 cmap : myConcurrentMap Z no_policy,
      NewConcurrentMap 4 None = Done (Some cmap0, None)
      /\ cmap_run cmap0 [CallPut "a" (Some 1); CallDelete "b"] = Done cmap
      /\ cmap_Len cmap = Z.of_nat (length (cmap_pairs cmap))
      /\ NoDup (map Key (cmap_pairs cmap))
      /\ (forall key,
            In key (map Key (cmap_pairs cmap)) <-> cmap_Get cmap key <> Done None)
      /\ (length (cmap_pairs cmap)
          <= length [@CallPut Z "a" (Some 1%Z); CallDelete "b"])%nat.
Proof.
  assert (Hn : 0 < 16 <= MaxInt /\ 0 < 4 <= 65536
               /\ 8 * Z.of_nat (length [@CallPut Z "a" (Some 1); CallDelete "b"])
                  <= MaxInt)
    by (cbn; unfold MaxInt; lia).
  split; [exact Hn|].
  exact (@Len_counts_keys Z sample_constants no_policy _ 4
           [CallPut "a" (Some 1); CallDelete "b"]
           (proj1 Hn) (proj1 (proj2 Hn)) (proj2 (proj2 Hn))).
Defined.

Lemma cmap_ForEach_visits_witness :
  (0 < 16 <= MaxInt /\ 0 < 4 <= 65536
   /\ 8 * Z.of_nat (length [@CallPut Z "a" (Some 1); CallPut "b" (Some 2)])
      <= MaxInt)
  /\ exists cmap0 cmap : myConcurrentMap Z no_policy,
      NewConcurrentMap 4 None = Done (Some cmap0, None)
      /\ cmap_run cmap0 [CallPut "a" (Some 1); CallPut "b" (Some 2)] = Done cmap
      /\ (forall (A : Type) (fn : string -> option Z -> A -> A) (acc : A),
            cmap_ForEach (Some fn) cmap acc
            = (visit_all fn (cmap_pairs cmap) acc, Done tt)
            /\ cmap_ForEach (@None (string -> option Z -> A -> A)) cmap acc
               = (acc, Done tt))
      /\ NoDup (map Key (cmap_pairs cmap))
      /\ (forall p, In p (cmap_pairs cmap) ->
            Element p <> None /\ cmap_Get cmap (Key p) = Done (Element p))
      /\ (forall key v, cmap_Get cmap key = Done (Some v) ->
            exists p, In p (cmap_pairs cmap) /\ Key p = key /\ Element p = Some v).
Proof.
  assert (Hn : 0 < 16 <= MaxInt /\ 0 < 4 <= 65536
               /\ 8 * Z.of_nat (length [@CallPut Z "a" (Some 1);
                                        CallPut "b" (Some 2)])
                  <= MaxInt)
    by (cbn; unfold MaxInt; lia).
  split; [exact Hn|].
  exact (@cmap_ForEach_visits Z sample_constants no_policy _ 4
           [CallPut "a" (Some 1); CallPut "b" (Some 2)]
           (proj1 Hn) (proj1 (proj2 Hn)) (proj2 (proj2 Hn))).
Defined.

Lemma redistribute_growth_rule_witness :
  (segment_shape sample_segment_heavy
   /\ pairRedistributor sample_segment_heavy = Default (sample_policy 3 0)
   /\ 0 <= overweightBucketCount (sample_policy 3 0)
   /\ 4 * (overweightBucketCount (sample_policy 3 0) + 1) < 2 ^ 64)
  /\ let pr1 := fst (pr_UpdateThreshold (sample_policy 3 0) 1
                       (bucketsLen sample_segment_heavy)) in
     let overweight :=
       (75 >? DEFAULT_BUCKET_MAX_SIZE) || (75 >=? upperThreshold pr1) in
     let grow :=
       overweight
       && (bucketsLen sample_segment_heavy
           <=? 4 * (overweightBucketCount (sample_policy 3 0) + 1)) in
     let s' := fst (segment_redistribute sample_segment_heavy 1 75) in
     bucketsLen s'
     = (if grow then 2 * bucketsLen sample_segment_heavy
        else bucketsLen sample_segment_heavy)
     /\ Z.of_nat (length (buckets s')) = bucketsLen s'
     /\ (grow = false -> buckets s' = buckets sample_segment_heavy)
     /\ exists pr',
         pairRedistributor s' = Default pr'
         /\ upperThreshold pr' = upperThreshold pr1
         /\ overweightBucketCount pr'
            = (if grow then 0
               else if overweight
                    then overweightBucketCount (sample_policy 3 0) + 1
                    else overweightBucketCount (sample_policy 3 0)).
Proof.
  assert (Hshape : segment_shape sample_segment_heavy).
  { split; [reflexivity|]. cbn. unfold MaxInt. lia. }
  assert (Ho : 0 <= overweightBucketCount (sample_policy 3 0)) by (cbn; lia).
  assert (Hroom : 4 * (overweightBucketCount (sample_policy 3 0) + 1) < 2 ^ 64)
    by (cbn; lia).
  split; [split; [exact Hshape | split; [reflexivity | split; [exact Ho | exact Hroom]]]|].
  exact (@redistribute_growth_rule Z _ no_policy _ sample_segment_heavy
           (sample_policy 3 0) 1 75 Hshape eq_refl Ho Hroom).
Defined.

(** The growth at that call: sixteen buckets become thirty-two. *)
Example sample_segment_heavy_grows :
  bucketsLen (fst (segment_redistribute sample_segment_heavy 1 75)) = 32.
Proof. vm_compute. reflexivity. Qed.

Lemma map_refines_dictionary_witness :
  (0 < 16 <= MaxInt /\ 0 < 4 <= 65536
   /\ 8 * Z.of_nat (length [@CallPut Z "a" (Some 1); CallPut "b" (Some 2);
                            CallDelete "a"])
      <= MaxInt)
  /\ exists cmap0 cmap : myConcurrentMap Z no_policy,
      NewConcurrentMap 4 None = Done (Some cmap0, None)
      /\ cmap_run cmap0 [CallPut "a" (Some 1); CallPut "b" (Some 2);
                         CallDelete "a"] = Done cmap
      /\ (forall key,
            cmap_Get cmap key
            = Done (dict_run [CallPut "a" (Some 1); CallPut "b" (Some 2);
                              CallDelete "a"] !! key))
      /\ cmap_Len cmap
         = Z.of_nat (size (dict_run [@CallPut Z "a" (Some 1);
                                     CallPut "b" (Some 2); CallDelete "a"])).
Proof.
  assert (Hn : 0 < 16 <= MaxInt /\ 0 < 4 <= 65536
               /\ 8 * Z.of_nat (length [@CallPut Z "a" (Some 1);
                                        CallPut "b" (Some 2); CallDelete "a"])
                  <= MaxInt)
    by (cbn; unfold MaxInt; lia).
  split; [exact Hn|].
  exact (@map_refines_dictionary Z sample_constants no_policy _ 4
           [CallPut "a" (Some 1); CallPut "b" (Some 2); CallDelete "a"]
           (proj1 Hn) (proj1 (proj2 Hn)) (proj2 (proj2 Hn))).
Defined.
